(** * AI-Voice-Generator: the credential cipher (enc.js) and the PCM framer (index.js)

    A shallow embedding of the two cores of the repository and the proofs of
    their specification.

    - JavaScript strings are sequences of UTF-16 code units: [list Z].
    - [ArrayBuffer]s and [Uint8Array]s are [list byte].
    - Integer-valued JavaScript numbers are [Z] (values, such as the sample
      rate) and [nat] (lengths, offsets and loop counters); a DataView
      write keeps the value modulo the width of the field.
    - A DataView and the ArrayBuffer it views are one store: the buffer is
      the view after the last write.
    - A call that can throw returns a [Completion]; the asynchronous
      functions of enc.js run in the [Async] monad, which threads the
      platform's random source and propagates rejections.
    - The platform functions the source calls ([btoa], [atob], [TextEncoder],
      [TextDecoder], [DataView], [crypto.subtle]) are embedded from their
      standards (WHATWG Infra and Encoding, ECMAScript, W3C WebCrypto with
      FIPS 180-4, RFC 2104, RFC 8018, FIPS 197 and NIST SP 800-38D).
      Engine resource limits (maximum string and call-argument counts) are
      not part of the model. *)

From Stdlib Require Import ZArith Lia DecimalString.
From Stdlib.Strings Require Import Byte String Ascii.
From stdpp Require Import base numbers list functions gmap.

Local Open Scope Z_scope.

(* ================================================================== *)
(** * Part I: the embedding                                            *)
(* ================================================================== *)

(** ** Bytes, strings and completions *)

Definition byte_to_Z (b : byte) : Z := Z.of_N (Byte.to_N b).

(** Storing a number in a byte keeps it modulo 256 (ToUint8). *)
Definition byte_of_Z (z : Z) : byte :=
  default x00 (Byte.of_N (Z.to_N (z mod 256))).

(** A JavaScript string: its UTF-16 code units. *)
Abbreviation JSString := (list Z).

(** The code units of an ASCII/Latin-1 string literal of the source. *)
Fixpoint js (s : string) : JSString :=
  match s with
  | EmptyString => []
  | String c rest => Z.of_N (N_of_ascii c) :: js rest
  end.

(** The DOMExceptions and errors the modelled calls throw. *)
Inductive Exception : Type :=
  | RangeError
  | InvalidCharacterError
  | QuotaExceededError
  | OperationError.

Inductive Completion (A : Type) : Type :=
  | Normal (a : A)
  | Throw (e : Exception).
Arguments Normal {A} a.
Arguments Throw {A} e.

Definition cbind {A B} (c : Completion A) (k : A -> Completion B) : Completion B :=
  match c with
  | Normal a => k a
  | Throw e => Throw e
  end.

Declare Scope completion_scope.
Delimit Scope completion_scope with completion.
Notation "'try' x <- c ; k" := (cbind c (fun x => k))
  (at level 10, x name, c at level 100, k at level 200) : completion_scope.

(** ** index.js: DataView over a whole ArrayBuffer *)

(** The bytes of the unsigned [n]-byte integer [value mod 256^n]. *)
Definition uint_bytes (n : nat) (value : Z) (littleEndian : bool) : list byte :=
  let le := (fun k => byte_of_Z (value / 256 ^ Z.of_nat k)) <$> seq 0 n in
  if littleEndian then le else reverse le.

(** SetViewValue: a RangeError when the bytes do not fit in the view,
    otherwise they overwrite the buffer at [byteOffset]. *)
Definition set_view_value (view : list byte) (byteOffset : nat) (bs : list byte)
  : Completion (list byte) :=
  if decide (byteOffset + length bs <= length view)%nat
  then Normal (take byteOffset view ++ bs ++ drop (byteOffset + length bs) view)
  else Throw RangeError.

Definition setUint8 (view : list byte) (byteOffset : nat) (value : Z) :=
  set_view_value view byteOffset (uint_bytes 1 value true).

Definition setUint16 (view : list byte) (byteOffset : nat) (value : Z) (littleEndian : bool) :=
  set_view_value view byteOffset (uint_bytes 2 value littleEndian).

Definition setUint32 (view : list byte) (byteOffset : nat) (value : Z) (littleEndian : bool) :=
  set_view_value view byteOffset (uint_bytes 4 value littleEndian).

Definition getUint8 (view : list byte) (byteOffset : nat) : Completion Z :=
  match view !! byteOffset with
  | Some b => Normal (byte_to_Z b)
  | None => Throw RangeError
  end.

(** An [Int16Array]: a window of [ta_length] 16-bit elements that starts at
    [ta_byteOffset] in its underlying [ta_buffer]. *)
Record Int16Array : Type := {
  ta_buffer : list byte;
  ta_byteOffset : nat;
  ta_length : nat
}.

Definition byteLength (a : Int16Array) : nat := (ta_length a * 2)%nat.

(** The typed-array invariant: the window lies inside the buffer. *)
Definition Int16Array_wf (a : Int16Array) : Prop :=
  (ta_byteOffset a + byteLength a <= length (ta_buffer a))%nat.

(** The bytes the array's elements occupy. *)
Definition sample_bytes (a : Int16Array) : list byte :=
  take (byteLength a) (drop (ta_byteOffset a) (ta_buffer a)).

(** [new Int16Array(buffer)] over a whole buffer of even length. *)
Definition Int16Array_of_buffer (buf : list byte) : Int16Array :=
  {| ta_buffer := buf; ta_byteOffset := 0; ta_length := length buf / 2 |}.

Record Blob : Type := {
  blob_bytes : list byte;
  blob_type : string
}.

Section index_js.
Local Open Scope completion_scope.

(** [for (let i = 0; i < string.length; i++) view.setUint8(offset + i, string.charCodeAt(i))] *)
Fixpoint writeString_loop (view : list byte) (offset i : nat) (chars : JSString)
  : Completion (list byte) :=
  match chars with
  | [] => Normal view
  | c :: rest =>
      try view' <- setUint8 view (offset + i) c;
      writeString_loop view' offset (S i) rest
  end.

Definition writeString (view : list byte) (offset : nat) (string : JSString) :=
  writeString_loop view offset 0 string.

(** [for (let i = 0; i < dataLength; i++) view.setUint8(44 + i, dataView.getUint8(i))],
    with [todo] iterations left. *)
Fixpoint copy_loop (view dataView : list byte) (i todo : nat) : Completion (list byte) :=
  match todo with
  | O => Normal view
  | S todo' =>
      try v <- getUint8 dataView i;
      try view' <- setUint8 view (44 + i) v;
      copy_loop view' dataView (S i) todo'
  end.

Definition pcmToWav (pcm16 : Int16Array) (sampleRate : Z) : Completion Blob :=
  let numChannels := 1 in
  let bitsPerSample := 16 in
  let byteRate := sampleRate * numChannels * (bitsPerSample / 8) in
  let blockAlign := numChannels * (bitsPerSample / 8) in
  let dataLength := byteLength pcm16 in
  let buffer := replicate (44 + dataLength) x00 in
  let view := buffer in
  (* RIFF chunk *)
  try view <- writeString view 0 (js "RIFF");
  try view <- setUint32 view 4 (Z.of_nat (36 + dataLength)) true;
  try view <- writeString view 8 (js "WAVE");
  (* FMT sub-chunk *)
  try view <- writeString view 12 (js "fmt ");
  try view <- setUint32 view 16 16 true;
  try view <- setUint16 view 20 1 true;
  try view <- setUint16 view 22 numChannels true;
  try view <- setUint32 view 24 sampleRate true;
  try view <- setUint32 view 28 byteRate true;
  try view <- setUint16 view 32 blockAlign true;
  try view <- setUint16 view 34 bitsPerSample true;
  (* DATA sub-chunk *)
  try view <- writeString view 36 (js "data");
  try view <- setUint32 view 40 (Z.of_nat dataLength) true;
  (* Write PCM data *)
  let dataView := ta_buffer pcm16 in
  try view <- copy_loop view dataView 0 dataLength;
  let buffer := view in
  Normal {| blob_bytes := buffer; blob_type := "audio/wav" |}.

End index_js.

(** The unsigned integer a little-endian byte field holds. *)
Definition le_value (bs : list byte) : Z :=
  foldr (fun b acc => byte_to_Z b + 256 * acc) 0 bs.

(** The bytes of a file at offsets [first .. first + n - 1]. *)
Definition field (first n : nat) (bs : list byte) : list byte :=
  take n (drop first bs).

(** The bytes of an ASCII string literal. *)
Definition ascii_bytes (s : string) : list byte := byte_of_Z <$> js s.

(** The 44-byte header of the specification's layout table (section 4.2),
    field by field, for a sample rate and a payload length. *)
Definition wav_header (sampleRate dataLength : Z) : list byte :=
  ascii_bytes "RIFF" ++ uint_bytes 4 (36 + dataLength) true ++
  ascii_bytes "WAVE" ++
  ascii_bytes "fmt " ++ uint_bytes 4 16 true ++
  uint_bytes 2 1 true ++ uint_bytes 2 1 true ++
  uint_bytes 4 sampleRate true ++ uint_bytes 4 (sampleRate * 1 * 2) true ++
  uint_bytes 2 (1 * 2) true ++ uint_bytes 2 16 true ++
  ascii_bytes "data" ++ uint_bytes 4 dataLength true.

(** ** enc.js: codec utilities *)

(** *** The platform's base64 ([btoa], [atob]: WHATWG forgiving-base64) *)

Definition base64_alphabet : JSString :=
  js "ABCDEFGHIJKLMNOPQRSTUVWXYZabcdefghijklmnopqrstuvwxyz0123456789+/".

(** The character of a 6-bit group. *)
Definition base64_char (sextet : Z) : Z :=
  default 0 (base64_alphabet !! Z.to_nat sextet).

(** The 6-bit group of a character of the alphabet. *)
Definition base64_index (c : Z) : option Z :=
  if (65 <=? c) && (c <=? 90) then Some (c - 65)
  else if (97 <=? c) && (c <=? 122) then Some (c - 71)
  else if (48 <=? c) && (c <=? 57) then Some (c + 4)
  else if c =? 43 then Some 62
  else if c =? 47 then Some 63
  else None.

(** RFC 4648 encoding with padding: three bytes make four characters. *)
Fixpoint base64_encode (bs : list byte) : JSString :=
  match bs with
  | [] => []
  | [a] =>
      let n := byte_to_Z a * 65536 in
      [base64_char (n / 262144); base64_char (n / 4096 mod 64); 61; 61]
  | [a; b] =>
      let n := byte_to_Z a * 65536 + byte_to_Z b * 256 in
      [base64_char (n / 262144); base64_char (n / 4096 mod 64);
       base64_char (n / 64 mod 64); 61]
  | a :: b :: c :: rest =>
      let n := byte_to_Z a * 65536 + byte_to_Z b * 256 + byte_to_Z c in
      base64_char (n / 262144) :: base64_char (n / 4096 mod 64) ::
      base64_char (n / 64 mod 64) :: base64_char (n mod 64) ::
      base64_encode rest
  end.

(** [btoa]: an InvalidCharacterError when a code unit exceeds U+00FF. *)
Definition btoa (data : JSString) : Completion JSString :=
  if forallb (fun c => (0 <=? c) && (c <=? 255)) data
  then Normal (base64_encode (byte_of_Z <$> data))
  else Throw InvalidCharacterError.

Definition is_ascii_whitespace (c : Z) : bool :=
  (c =? 9) || (c =? 10) || (c =? 12) || (c =? 13) || (c =? 32).

(** Removing one or two trailing U+003D (=). *)
Definition strip_padding (data : JSString) : JSString :=
  match reverse data with
  | 61 :: 61 :: r => reverse r
  | 61 :: r => reverse r
  | _ => data
  end.

(** Four 6-bit groups make three bytes; of two trailing groups the last
    four bits are dropped, of three the last two. *)
Fixpoint decode_sextets (ss : list Z) : list byte :=
  match ss with
  | a :: b :: c :: d :: rest =>
      let n := a * 262144 + b * 4096 + c * 64 + d in
      byte_of_Z (n / 65536) :: byte_of_Z (n / 256) :: byte_of_Z n ::
      decode_sextets rest
  | [a; b; c] =>
      let n := (a * 4096 + b * 64 + c) / 4 in
      [byte_of_Z (n / 256); byte_of_Z n]
  | [a; b] =>
      let n := (a * 64 + b) / 16 in
      [byte_of_Z n]
  | _ => []
  end.

(** Forgiving-base64 decode; [None] is the standard's failure. *)
Definition forgiving_base64_decode (data : JSString) : option (list byte) :=
  let data := filter (fun c => is_ascii_whitespace c = false) data in
  let data := if (length data mod 4 =? 0)%nat then strip_padding data else data in
  if (length data mod 4 =? 1)%nat then None
  else decode_sextets <$> mapM base64_index data.

Definition atob (data : JSString) : Completion JSString :=
  match forgiving_base64_decode data with
  | Some bs => Normal (byte_to_Z <$> bs)
  | None => Throw InvalidCharacterError
  end.

(** [String.fromCharCode(...codes)]: each argument modulo 2^16. *)
Definition String_fromCharCode (codes : list Z) : JSString :=
  (fun c => c mod 65536) <$> codes.

(** *** The helpers of enc.js *)

Section enc_js_helpers.
Local Open Scope completion_scope.

Definition bufToBase64 (buf : list byte) : Completion JSString :=
  btoa (String_fromCharCode (byte_to_Z <$> buf)).

(** [for (let i = 0; i < str.length; i++) arr[i] = str.charCodeAt(i)],
    over the code units from index [i] on. *)
Fixpoint base64ToBuf_loop (arr : list byte) (i : nat) (chars : JSString) : list byte :=
  match chars with
  | [] => arr
  | c :: rest => base64ToBuf_loop (<[i := byte_of_Z c]> arr) (S i) rest
  end.

Definition base64ToBuf (b64 : JSString) : Completion (list byte) :=
  try str <- atob b64;
  let arr := replicate (length str) x00 in
  Normal (base64ToBuf_loop arr 0 str).

(** [tmp.set(new Uint8Array(b), offset)] has the range check of a view
    write. *)
Fixpoint concatBuffers_loop (tmp : list byte) (offset : nat) (buffers : list (list byte))
  : Completion (list byte) :=
  match buffers with
  | [] => Normal tmp
  | b :: rest =>
      try tmp' <- set_view_value tmp offset b;
      concatBuffers_loop tmp' (offset + length b) rest
  end.

Definition concatBuffers (buffers : list (list byte)) : Completion (list byte) :=
  let total := foldl (fun sum b => (sum + length b)%nat) 0%nat buffers in
  let tmp := replicate total x00 in
  concatBuffers_loop tmp 0 buffers.

(** [Uint8Array.prototype.slice(begin, end)] and [slice(begin)] for
    non-negative arguments: both are clamped to the array. *)
Definition slice (arr : list byte) (begin end_ : nat) : list byte :=
  take (end_ - begin) (drop begin arr).

Definition slice_from (arr : list byte) (begin : nat) : list byte :=
  drop begin arr.

End enc_js_helpers.

(** *** The platform's text codec ([TextEncoder], [TextDecoder]: WHATWG Encoding) *)

Definition is_lead_surrogate (c : Z) : bool := (0xD800 <=? c) && (c <=? 0xDBFF).
Definition is_trail_surrogate (c : Z) : bool := (0xDC00 <=? c) && (c <=? 0xDFFF).

(** A string's scalar values: a surrogate pair is one code point, a
    surrogate that is not part of a pair becomes U+FFFD. *)
Fixpoint to_scalar_values (s : JSString) : list Z :=
  match s with
  | [] => []
  | c :: rest =>
      if is_lead_surrogate c then
        match rest with
        | d :: rest' =>
            if is_trail_surrogate d
            then (0x10000 + (c - 0xD800) * 0x400 + (d - 0xDC00)) :: to_scalar_values rest'
            else 0xFFFD :: to_scalar_values rest
        | [] => [0xFFFD]
        end
      else if is_trail_surrogate c then 0xFFFD :: to_scalar_values rest
      else c :: to_scalar_values rest
  end.

(** The UTF-8 encoder: [append 0x80 | (temp & 0x3F)] while [count] is
    greater than 0. *)
Fixpoint utf8_continuation_bytes (cp : Z) (count : nat) : list byte :=
  match count with
  | O => []
  | S k =>
      let temp := Z.shiftr cp (6 * Z.of_nat k) in
      byte_of_Z (Z.lor 0x80 (Z.land temp 0x3F)) :: utf8_continuation_bytes cp k
  end.

Definition utf8_encode_code_point (cp : Z) : list byte :=
  if cp <=? 0x7F then [byte_of_Z cp]
  else
    let '(count, offset) :=
      if cp <=? 0x7FF then (1%nat, 0xC0)
      else if cp <=? 0xFFFF then (2%nat, 0xE0)
      else (3%nat, 0xF0) in
    byte_of_Z (Z.shiftr cp (6 * Z.of_nat count) + offset)
    :: utf8_continuation_bytes cp count.

Definition TextEncoder_encode (input : JSString) : list byte :=
  concat (utf8_encode_code_point <$> to_scalar_values input).

(** The UTF-8 decoder's state. *)
Record utf8_decoder : Type := {
  utf8_code_point : Z;
  utf8_bytes_seen : nat;
  utf8_bytes_needed : nat;
  utf8_lower_boundary : Z;
  utf8_upper_boundary : Z
}.

Definition utf8_decoder_init : utf8_decoder :=
  {| utf8_code_point := 0; utf8_bytes_seen := 0; utf8_bytes_needed := 0;
     utf8_lower_boundary := 0x80; utf8_upper_boundary := 0xBF |}.

(** The handler when no continuation byte is awaited: the code points it
    emits (U+FFFD for an error) and the next state. *)
Definition utf8_lead (b : Z) : list Z * utf8_decoder :=
  if b <=? 0x7F then ([b], utf8_decoder_init)
  else if (0xC2 <=? b) && (b <=? 0xDF) then
    ([], {| utf8_code_point := Z.land b 0x1F; utf8_bytes_seen := 0;
            utf8_bytes_needed := 1;
            utf8_lower_boundary := 0x80; utf8_upper_boundary := 0xBF |})
  else if (0xE0 <=? b) && (b <=? 0xEF) then
    ([], {| utf8_code_point := Z.land b 0xF; utf8_bytes_seen := 0;
            utf8_bytes_needed := 2;
            utf8_lower_boundary := if b =? 0xE0 then 0xA0 else 0x80;
            utf8_upper_boundary := if b =? 0xED then 0x9F else 0xBF |})
  else if (0xF0 <=? b) && (b <=? 0xF4) then
    ([], {| utf8_code_point := Z.land b 0x7; utf8_bytes_seen := 0;
            utf8_bytes_needed := 3;
            utf8_lower_boundary := if b =? 0xF0 then 0x90 else 0x80;
            utf8_upper_boundary := if b =? 0xF4 then 0x8F else 0xBF |})
  else ([0xFFFD], utf8_decoder_init).

(** The handler for one byte.  A byte outside the awaited range resets the
    decoder, is an error, and is read again ("restored to the queue"). *)
Definition utf8_handler (st : utf8_decoder) (b : Z) : list Z * utf8_decoder :=
  if (utf8_bytes_needed st =? 0)%nat then utf8_lead b
  else if negb ((utf8_lower_boundary st <=? b) && (b <=? utf8_upper_boundary st)) then
    let '(out, st') := utf8_lead b in (0xFFFD :: out, st')
  else
    let cp := Z.lor (Z.shiftl (utf8_code_point st) 6) (Z.land b 0x3F) in
    let seen := S (utf8_bytes_seen st) in
    if (seen =? utf8_bytes_needed st)%nat then ([cp], utf8_decoder_init)
    else ([], {| utf8_code_point := cp; utf8_bytes_seen := seen;
                 utf8_bytes_needed := utf8_bytes_needed st;
                 utf8_lower_boundary := 0x80; utf8_upper_boundary := 0xBF |}).

(** Running the decoder over the queue in replacement error mode; at the end
    of the queue an unfinished sequence is one more error. *)
Fixpoint utf8_decode_from (st : utf8_decoder) (bytes : list byte) : list Z :=
  match bytes with
  | [] => if (utf8_bytes_needed st =? 0)%nat then [] else [0xFFFD]
  | b :: rest =>
      let '(out, st') := utf8_handler st (byte_to_Z b) in
      out ++ utf8_decode_from st' rest
  end.

(** The code units of a code point. *)
Definition utf16_code_units (cp : Z) : JSString :=
  if cp <? 0x10000 then [cp]
  else [0xD800 + Z.shiftr (cp - 0x10000) 10; 0xDC00 + Z.land (cp - 0x10000) 0x3FF].

(** With [ignoreBOM] false, a first code point U+FEFF is not appended to
    the output. *)
Definition strip_bom (output : list Z) : list Z :=
  match output with
  | 0xFEFF :: rest => rest
  | _ => output
  end.

(** [new TextDecoder().decode(bytes)]: UTF-8, not fatal, [ignoreBOM] false. *)
Definition TextDecoder_decode (bytes : list byte) : JSString :=
  let output := utf8_decode_from utf8_decoder_init bytes in
  concat (utf16_code_units <$> strip_bom output).

(** A string without unpaired surrogates ([String.prototype.isWellFormed]). *)
Fixpoint isWellFormed (s : JSString) : bool :=
  match s with
  | [] => true
  | c :: rest =>
      if is_lead_surrogate c then
        match rest with
        | d :: rest' => is_trail_surrogate d && isWellFormed rest'
        | [] => false
        end
      else negb (is_trail_surrogate c) && (0 <=? c) && (c <=? 0xFFFF) && isWellFormed rest
  end.

(** *** The platform's cryptography ([crypto.subtle]) *)

(** Big-endian integers and byte-wise exclusive or. *)
Definition be_bytes (n : nat) (value : Z) : list byte := uint_bytes n value false.

Definition be_value (bs : list byte) : Z :=
  foldl (fun acc b => acc * 256 + byte_to_Z b) 0 bs.

Definition byte_xor (a b : byte) : byte :=
  byte_of_Z (Z.lxor (byte_to_Z a) (byte_to_Z b)).

Definition xor_bytes (a b : list byte) : list byte := zip_with byte_xor a b.

(** Cutting a sequence into pieces of [n] elements (the last may be shorter). *)
Fixpoint chunks_fuel {A} (fuel n : nat) (l : list A) : list (list A) :=
  match fuel with
  | O => []
  | S fuel' =>
      match l with
      | [] => []
      | _ => take n l :: chunks_fuel fuel' n (drop n l)
      end
  end.

Definition chunks {A} (n : nat) (l : list A) : list (list A) :=
  chunks_fuel (length l) n l.

#[global] Instance byte_eq_decision : EqDecision byte := Byte.byte_eq_dec.

(** SHA-256 (FIPS 180-4), on 32-bit words held in [Z]. *)
Module SHA256.

Definition add32 (x y : Z) : Z := (x + y) mod 2 ^ 32.
Definition rotr (n x : Z) : Z :=
  Z.lor (Z.shiftr x n) (Z.shiftl x (32 - n) mod 2 ^ 32).
Definition shr (n x : Z) : Z := Z.shiftr x n.
Definition not32 (x : Z) : Z := Z.lxor x 0xFFFFFFFF.

Definition Ch (x y z : Z) : Z := Z.lxor (Z.land x y) (Z.land (not32 x) z).
Definition Maj (x y z : Z) : Z :=
  Z.lxor (Z.lxor (Z.land x y) (Z.land x z)) (Z.land y z).
Definition Sigma0 (x : Z) : Z := Z.lxor (Z.lxor (rotr 2 x) (rotr 13 x)) (rotr 22 x).
Definition Sigma1 (x : Z) : Z := Z.lxor (Z.lxor (rotr 6 x) (rotr 11 x)) (rotr 25 x).
Definition sigma0 (x : Z) : Z := Z.lxor (Z.lxor (rotr 7 x) (rotr 18 x)) (shr 3 x).
Definition sigma1 (x : Z) : Z := Z.lxor (Z.lxor (rotr 17 x) (rotr 19 x)) (shr 10 x).

(** The constants are fractional parts of roots of the first primes: K_t
    the first 32 bits of the cube root of the t-th prime, the initial hash
    value those of the square roots of the first eight. *)
Definition is_prime (n : nat) : bool :=
  forallb (fun d => negb (n mod d =? 0)%nat) (seq 2 (n - 2)).

Definition first_primes : list Z :=
  Z.of_nat <$> List.filter is_prime (seq 2 310).

(** The integer cube root of a number below 2^108, bit by bit. *)
Definition icbrt (n : Z) : Z :=
  foldl (fun r b => let c := r + 2 ^ Z.of_nat b in if c * c * c <=? n then c else r)
        0 (reverse (seq 0 36)).

Definition K : list Z :=
  Eval vm_compute in (fun p => icbrt (p * 2 ^ 96) mod 2 ^ 32) <$> first_primes.

Definition H0 : list Z :=
  Eval vm_compute in (fun p => Z.sqrt (p * 2 ^ 64) mod 2 ^ 32) <$> take 8 first_primes.

(** The message with its padding: a 1 bit, zeros, and the bit length in 64
    bits, up to a multiple of 64 bytes. *)
Definition pad (msg : list byte) : list byte :=
  let zeros := ((64 - (length msg + 9) mod 64) mod 64)%nat in
  msg ++ [x80] ++ replicate zeros x00 ++ be_bytes 8 (8 * Z.of_nat (length msg)).

(** The message schedule of a block: W_0 .. W_63. *)
Definition schedule_step (W : list Z) : list Z :=
  let t := length W in
  W ++ [add32 (add32 (sigma1 (W !!! (t - 2)%nat)) (W !!! (t - 7)%nat))
              (add32 (sigma0 (W !!! (t - 15)%nat)) (W !!! (t - 16)%nat))].

Definition schedule (block : list byte) : list Z :=
  Nat.iter 48 schedule_step (be_value <$> chunks 4 block).

(** One round on the working variables a .. h. *)
Definition round (s : list Z) (kw : Z * Z) : list Z :=
  match s with
  | [a; b; c; d; e; f; g; h] =>
      let T1 := add32 (add32 (add32 h (Sigma1 e)) (add32 (Ch e f g) kw.1)) kw.2 in
      let T2 := add32 (Sigma0 a) (Maj a b c) in
      [add32 T1 T2; a; b; c; add32 d T1; e; f; g]
  | _ => s
  end.

Definition compress (H : list Z) (block : list byte) : list Z :=
  zip_with add32 H (foldl round H (zip K (schedule block))).

Definition sha256 (msg : list byte) : list byte :=
  concat (be_bytes 4 <$> foldl compress H0 (chunks 64 (pad msg))).

End SHA256.

(** HMAC (RFC 2104, FIPS 198-1) with SHA-256: the key, hashed when longer
    than a block, is padded with zeros to the 64-byte block. *)
Definition hmac_key_block (key : list byte) : list byte :=
  let k := if decide (64 < length key)%nat then SHA256.sha256 key else key in
  k ++ replicate (64 - length k) x00.

Definition hmac_sha256 (key msg : list byte) : list byte :=
  let k0 := hmac_key_block key in
  SHA256.sha256 (xor_bytes k0 (replicate 64 x5c) ++
                 SHA256.sha256 (xor_bytes k0 (replicate 64 x36) ++ msg)).

(** PBKDF2 (RFC 8018, section 5.2) with HMAC-SHA-256 as its PRF. *)
Definition pbkdf2_step (P : list byte) (ut : list byte * list byte)
  : list byte * list byte :=
  let u := hmac_sha256 P ut.1 in (u, xor_bytes ut.2 u).

Definition pbkdf2_F (P salt : list byte) (c : N) (i : Z) : list byte :=
  let u1 := hmac_sha256 P (salt ++ be_bytes 4 i) in
  (N.iter (c - 1) (pbkdf2_step P) (u1, u1)).2.

Definition pbkdf2_hmac_sha256 (P salt : list byte) (c : N) (dkLen : nat) : list byte :=
  let l := ((dkLen + 31) / 32)%nat in
  take dkLen (concat ((fun i => pbkdf2_F P salt c (Z.of_nat (S i))) <$> seq 0 l)).

(** AES-256 encryption of one block (FIPS 197), on bytes held in [Z]. *)
Module AES.

(** Multiplication by x in GF(2^8) modulo x^8 + x^4 + x^3 + x + 1. *)
Definition xtime (b : Z) : Z :=
  let s := 2 * b in
  if s <? 256 then s else Z.lxor (s - 256) 0x1B.

Fixpoint gmul_loop (n : nat) (a b : Z) : Z :=
  match n with
  | O => 0
  | S k => Z.lxor (if Z.odd b then a else 0) (gmul_loop k (xtime a) (Z.shiftr b 1))
  end.

Definition gmul (a b : Z) : Z := gmul_loop 8 a b.

(** The multiplicative inverse, a^254 (and 0 for 0). *)
Definition ginv (a : Z) : Z :=
  let a2 := gmul a a in
  let a4 := gmul a2 a2 in
  let a8 := gmul a4 a4 in
  let a16 := gmul a8 a8 in
  let a32 := gmul a16 a16 in
  let a64 := gmul a32 a32 in
  let a128 := gmul a64 a64 in
  gmul a2 (gmul a4 (gmul a8 (gmul a16 (gmul a32 (gmul a64 a128))))).

Definition rotl8 (x n : Z) : Z :=
  Z.lor (Z.shiftl x n) (Z.shiftr x (8 - n)) mod 256.

(** The S-box: the inverse followed by the affine transformation. *)
Definition sbox (x : Z) : Z :=
  let b := ginv x in
  Z.lxor (Z.lxor (Z.lxor (Z.lxor (Z.lxor b (rotl8 b 1)) (rotl8 b 2)) (rotl8 b 3)) (rotl8 b 4)) 0x63.

(** The state is the block in input order: byte r + 4c is row r, column c. *)
Definition sub_bytes (st : list Z) : list Z := sbox <$> st.

Definition shift_rows (st : list Z) : list Z :=
  (fun i => let r := (i mod 4)%nat in
            let c := (i / 4)%nat in
            st !!! (r + 4 * ((c + r) mod 4))%nat) <$> seq 0 16.

Definition mix_column (col : list Z) : list Z :=
  match col with
  | [s0; s1; s2; s3] =>
      [Z.lxor (Z.lxor (gmul 2 s0) (gmul 3 s1)) (Z.lxor s2 s3);
       Z.lxor (Z.lxor s0 (gmul 2 s1)) (Z.lxor (gmul 3 s2) s3);
       Z.lxor (Z.lxor s0 s1) (Z.lxor (gmul 2 s2) (gmul 3 s3));
       Z.lxor (Z.lxor (gmul 3 s0) s1) (Z.lxor s2 (gmul 2 s3))]
  | _ => col
  end.

Definition mix_columns (st : list Z) : list Z :=
  concat (mix_column <$> chunks 4 st).

Definition add_round_key (st rk : list Z) : list Z := zip_with Z.lxor st rk.

(** Key expansion for Nk = 8: word i (from 8 on) from words i-1 and i-8. *)
Definition rcon (j : nat) : Z := Nat.iter (j - 1) xtime 1.

Definition expand_step (w : list (list Z)) : list (list Z) :=
  let i := length w in
  let temp := w !!! (i - 1)%nat in
  let temp :=
    if (i mod 8 =? 0)%nat then
      zip_with Z.lxor (sbox <$> (drop 1 temp ++ take 1 temp)) [rcon (i / 8); 0; 0; 0]
    else if (i mod 8 =? 4)%nat then sbox <$> temp
    else temp in
  w ++ [zip_with Z.lxor (w !!! (i - 8)%nat) temp].

Definition key_expansion (key : list byte) : list (list Z) :=
  Nat.iter 52 expand_step (chunks 4 (byte_to_Z <$> key)).

Definition round_key (w : list (list Z)) (r : nat) : list Z :=
  concat (take 4 (drop (4 * r) w)).

Definition cipher_round (w : list (list Z)) (st : list Z) (r : nat) : list Z :=
  add_round_key (mix_columns (shift_rows (sub_bytes st))) (round_key w r).

(** The cipher with Nr = 14 rounds; the result is always 16 bytes. *)
Definition encrypt_block (key block : list byte) : list byte :=
  let w := key_expansion key in
  let st := add_round_key (byte_to_Z <$> block) (round_key w 0) in
  let st := foldl (cipher_round w) st (seq 1 13) in
  let st := add_round_key (shift_rows (sub_bytes st)) (round_key w 14) in
  (fun i => byte_of_Z (st !!! i)) <$> seq 0 16.

End AES.

(** AES-GCM (NIST SP 800-38D) with a 128-bit tag and no additional data;
    128-bit blocks are big-endian integers. *)
Module GCM.

Definition R : Z := 0xE1 * 2 ^ 120.

(** Multiplication in GF(2^128), bit 0 being the leftmost bit of a block. *)
Definition mul_step (X : Z) (zv : Z * Z) (i : nat) : Z * Z :=
  let '(z, v) := zv in
  (if Z.testbit X (127 - Z.of_nat i) then Z.lxor z v else z,
   if Z.odd v then Z.lxor (Z.shiftr v 1) R else Z.shiftr v 1).

Definition mul (X Y : Z) : Z := (foldl (mul_step X) (0, Y) (seq 0 128)).1.

Definition ghash (H : Z) (data : list byte) : Z :=
  foldl (fun y block => mul (Z.lxor y (be_value block)) H) 0 (chunks 16 data).

(** Zeros up to a multiple of 16 bytes. *)
Definition pad16 (bs : list byte) : list byte :=
  bs ++ replicate ((16 - length bs mod 16) mod 16) x00.

Definition hash_subkey (key : list byte) : Z :=
  be_value (AES.encrypt_block key (replicate 16 x00)).

(** The pre-counter block J0: for a 96-bit IV, IV || 0^31 || 1. *)
Definition J0 (key iv : list byte) : Z :=
  if decide (length iv = 12%nat) then be_value iv * 2 ^ 32 + 1
  else ghash (hash_subkey key)
         (pad16 iv ++ be_bytes 8 0 ++ be_bytes 8 (8 * Z.of_nat (length iv))).

(** The counter block [i] increments (inc32) after [cb]. *)
Definition counter_block (cb : Z) (i : nat) : Z :=
  cb / 2 ^ 32 * 2 ^ 32 + (cb + Z.of_nat i) mod 2 ^ 32.

(** GCTR: the input xored with the encrypted counter blocks. *)
Definition keystream (key : list byte) (icb : Z) (n : nat) : list byte :=
  take n (concat ((fun i => AES.encrypt_block key (be_bytes 16 (counter_block icb i)))
                  <$> seq 0 ((n + 15) / 16))).

Definition gctr (key : list byte) (icb : Z) (X : list byte) : list byte :=
  xor_bytes X (keystream key icb (length X)).

Definition tag (key iv C : list byte) : list byte :=
  let H := hash_subkey key in
  let S := ghash H (pad16 C ++ be_bytes 8 0 ++ be_bytes 8 (8 * Z.of_nat (length C))) in
  gctr key (J0 key iv) (be_bytes 16 S).

(** Authenticated encryption: the ciphertext and the tag. *)
Definition encrypt (key iv P : list byte) : list byte * list byte :=
  let C := gctr key (counter_block (J0 key iv) 1) P in
  (C, tag key iv C).

(** Authenticated decryption: [None] is FAIL. *)
Definition decrypt (key iv C T : list byte) : option (list byte) :=
  if decide (tag key iv C = T)
  then Some (gctr key (counter_block (J0 key iv) 1) C)
  else None.

End GCM.

(** *** The platform's random source and WebCrypto calls *)

(** The random source: the bytes it will deliver, in order. *)
Definition RandomSource : Type := nat -> byte.

(** An asynchronous computation: it may draw random bytes, and it fulfils
    with a value or rejects with an exception. *)
Definition Async (A : Type) : Type := RandomSource -> Completion A * RandomSource.

Definition aret {A} (a : A) : Async A := fun rs => (Normal a, rs).

Definition lift {A} (c : Completion A) : Async A := fun rs => (c, rs).

Definition abind {A B} (m : Async A) (k : A -> Async B) : Async B :=
  fun rs =>
    match m rs with
    | (Normal a, rs') => k a rs'
    | (Throw e, rs') => (Throw e, rs')
    end.

Declare Scope async_scope.
Delimit Scope async_scope with async.
Notation "'await' x <- m ; k" := (abind m (fun x => k))
  (at level 10, x name, m at level 100, k at level 200) : async_scope.

(** [crypto.getRandomValues(new Uint8Array(n))]: the next [n] bytes of the
    source; more than 65536 bytes at once is a QuotaExceededError. *)
Definition getRandomValues (n : nat) : Async (list byte) :=
  fun rs =>
    if decide (Z.of_nat n <= 65536)
    then (Normal (rs <$> seq 0 n), fun i => rs (n + i)%nat)
    else (Throw QuotaExceededError, rs).

(** [importKey('raw', keyData, 'PBKDF2', ...)]: the key is the password's
    bytes. *)
Definition subtle_importKey_raw (keyData : list byte) : Async (list byte) :=
  aret keyData.

(** [deriveKey({name: 'PBKDF2', salt, iterations, hash: 'SHA-256'}, passKey,
    {name: 'AES-GCM', length}, ...)]: [length] bits of PBKDF2 output; zero
    iterations are an OperationError. *)
Definition subtle_deriveKey_PBKDF2_SHA256
    (salt : list byte) (iterations : N) (passKey : list byte) (length_bits : nat)
  : Async (list byte) :=
  if decide (iterations = 0%N) then lift (Throw OperationError)
  else aret (pbkdf2_hmac_sha256 passKey salt iterations (length_bits / 8)).

(** [encrypt({name: 'AES-GCM', iv}, key, data)]: the ciphertext followed by
    the 128-bit tag. *)
Definition subtle_encrypt_AES_GCM (iv key data : list byte) : Async (list byte) :=
  let '(C, T) := GCM.encrypt key iv data in
  aret (C ++ T).

(** [decrypt({name: 'AES-GCM', iv}, key, data)]: an OperationError when the
    data is shorter than the tag or the tag does not verify. *)
Definition subtle_decrypt_AES_GCM (iv key data : list byte) : Async (list byte) :=
  if decide (length data < 16)%nat then lift (Throw OperationError)
  else
    let n := (length data - 16)%nat in
    match GCM.decrypt key iv (take n data) (drop n data) with
    | Some P => aret P
    | None => lift (Throw OperationError)
    end.

(** ** enc.js: the credential cipher *)

Definition pbkdf2Iterations : N := 200000.
Definition saltLen : nat := 16.
Definition ivLen : nat := 12.

Section enc_js.
Local Open Scope async_scope.

(** Derive AES-GCM key from password + salt *)
Definition deriveKey (password : JSString) (salt : list byte) : Async (list byte) :=
  await passKey <- subtle_importKey_raw (TextEncoder_encode password);
  subtle_deriveKey_PBKDF2_SHA256 salt pbkdf2Iterations passKey 256.

(** Encrypt API key -> return base64(salt||iv||ciphertext) *)
Definition encryptApiKey (apiKey password : JSString) : Async JSString :=
  await salt <- getRandomValues saltLen;
  await iv <- getRandomValues ivLen;
  await key <- deriveKey password salt;
  await ct <- subtle_encrypt_AES_GCM iv key (TextEncoder_encode apiKey);
  await combined <- lift (concatBuffers [salt; iv; ct]);
  lift (bufToBase64 combined).

(** Decrypt base64(salt||iv||ciphertext) -> returns original apiKey string *)
Definition decryptApiKey (encryptedBase64 password : JSString) : Async JSString :=
  await combinedBuf <- lift (base64ToBuf encryptedBase64);
  let combined := combinedBuf in
  let salt := slice combined 0 saltLen in
  let iv := slice combined saltLen (saltLen + ivLen) in
  let ct := slice_from combined (saltLen + ivLen) in
  await key <- deriveKey password salt;
  await plainBuf <- subtle_decrypt_AES_GCM iv key ct;
  aret (TextDecoder_decode plainBuf).

End enc_js.

(** A random source that delivers the same byte forever. *)
Definition constant_source (b : byte) : RandomSource := fun _ => b.

(** ** index.js: the page and its handlers *)

(** *** JavaScript values *)

(** The values a parsed JSON response is made of, and [undefined].  A number
    is the finite double [m * 2^e]; an object lists its own properties, each
    key once. *)
#[warnings="-register-all"] Inductive JSValue : Type :=
  | JSUndefined
  | JSNull
  | JSBoolean (b : bool)
  | JSNumber (m e : Z)
  | JSStringValue (s : JSString)
  | JSArray (items : list JSValue)
  | JSObject (properties : list (JSString * JSValue)).

Definition ToBoolean (v : JSValue) : bool :=
  match v with
  | JSUndefined | JSNull => false
  | JSBoolean b => b
  | JSNumber m _ => negb (m =? 0)
  | JSStringValue s => match s with [] => false | _ => true end
  | JSArray _ | JSObject _ => true
  end.

Fixpoint own_property (properties : list (JSString * JSValue)) (key : JSString) : JSValue :=
  match properties with
  | [] => JSUndefined
  | (k, v) :: rest => if decide (k = key) then v else own_property rest key
  end.

(** The decimal digits of a non-negative integer (its [ToString]). *)
Definition decimal (n : nat) : JSString := js (NilZero.string_of_uint (Nat.to_uint n)).

(** [v.name] for a value that is neither [null] nor [undefined] and one of
    the names the page reads ("candidates", "content", "parts",
    "inlineData", "data", "mimeType", "error", "message"): no prototype
    defines them, so only an object's own property can answer. *)
Definition Get (v : JSValue) (name : string) : JSValue :=
  match v with
  | JSObject properties => own_property properties (js name)
  | _ => JSUndefined
  end.

(** [v[i]] for a value that is neither [null] nor [undefined]. *)
Definition GetIndex (v : JSValue) (i : nat) : JSValue :=
  match v with
  | JSObject properties => own_property properties (decimal i)
  | JSArray items => default JSUndefined (items !! i)
  | JSStringValue s =>
      match s !! i with
      | Some c => JSStringValue [c]
      | None => JSUndefined
      end
  | _ => JSUndefined
  end.

(** [v?.name] and [v?.[i]] *)
Definition OptionalGet (v : JSValue) (name : string) : JSValue :=
  match v with
  | JSUndefined | JSNull => JSUndefined
  | _ => Get v name
  end.

Definition OptionalGetIndex (v : JSValue) (i : nat) : JSValue :=
  match v with
  | JSUndefined | JSNull => JSUndefined
  | _ => GetIndex v i
  end.

(** A string or [null]. *)
Definition nullable (o : option JSString) : JSValue :=
  match o with
  | Some s => JSStringValue s
  | None => JSNull
  end.

(** [a || b] *)
Definition LogicalOr (a b : JSValue) : JSValue := if ToBoolean a then a else b.

(** *** String methods *)

Fixpoint drop_while {A} (f : A -> bool) (l : list A) : list A :=
  match l with
  | [] => []
  | x :: rest => if f x then drop_while f rest else l
  end.

Fixpoint take_while {A} (f : A -> bool) (l : list A) : list A :=
  match l with
  | [] => []
  | x :: rest => if f x then x :: take_while f rest else []
  end.

(** The code units of WhiteSpace and LineTerminator. *)
Definition is_white_space (c : Z) : bool :=
  bool_decide (c ∈ [0x9; 0xA; 0xB; 0xC; 0xD; 0x20; 0xA0; 0x1680; 0x2028; 0x2029;
                    0x202F; 0x205F; 0x3000; 0xFEFF])
  || ((0x2000 <=? c) && (c <=? 0x200A)).

(** [String.prototype.trim] *)
Definition trim (s : JSString) : JSString :=
  reverse (drop_while is_white_space (reverse (drop_while is_white_space s))).

(** [String.prototype.startsWith] *)
Fixpoint startsWith (s searchString : JSString) : bool :=
  match searchString, s with
  | [], _ => true
  | p :: ps, c :: cs => (c =? p) && startsWith cs ps
  | _ :: _, [] => false
  end.

(** [String.prototype.includes] *)
Fixpoint includes (s searchString : JSString) : bool :=
  startsWith s searchString ||
  match s with
  | [] => false
  | _ :: rest => includes rest searchString
  end.

Definition is_digit (c : Z) : bool := (48 <=? c) && (c <=? 57).

(** What follows [searchString] when [s] starts with it. *)
Fixpoint after_prefix (s searchString : JSString) : option JSString :=
  match searchString, s with
  | [], _ => Some s
  | p :: ps, c :: cs => if c =? p then after_prefix cs ps else None
  | _ :: _, [] => None
  end.

(** [mimeType.match(/rate=(\d+)/)]: the leftmost "rate=" that a digit
    follows, with the longest run of digits as group 1; [None] is [null]. *)
Fixpoint match_rate (s : JSString) : option (list JSString) :=
  match s with
  | [] => None
  | _ :: rest =>
      match after_prefix s (js "rate=") with
      | Some after =>
          match take_while is_digit after with
          | [] => match_rate rest
          | digits => Some [js "rate=" ++ digits; digits]
          end
      | None => match_rate rest
      end
  end.

(** *** Numbers of [parseInt] *)

Inductive Number : Type :=
  | NaN
  | Finite (z : Z)
  | PosInfinity
  | NegInfinity.

(** The value of a string of decimal digits. *)
Definition decimal_value (digits : JSString) : Z :=
  foldl (fun acc c => 10 * acc + (c - 48)) 0 digits.

(** The double nearest to a non-negative integer (ties to even), as an
    integer; [None] when it is beyond the largest finite double. *)
Definition round_to_double (z : Z) : option Z :=
  if z <? 2 ^ 53 then Some z
  else
    let k := Z.log2 z - 52 in
    let q := z / 2 ^ k in
    let r := z mod 2 ^ k in
    let half := 2 ^ (k - 1) in
    let q' := if (r <? half) || ((r =? half) && Z.even q) then q else q + 1 in
    if 2 ^ 1024 <=? q' * 2 ^ k then None else Some (q' * 2 ^ k).

(** [parseInt(string, 10)]: leading white space, a sign, then the longest
    run of decimal digits; the mathematical value is taken exactly. *)
Definition parseInt10 (string : JSString) : Number :=
  let trimmed := drop_while is_white_space string in
  let '(negative, unsigned) :=
    match trimmed with
    | 45 :: rest => (true, rest)
    | 43 :: rest => (false, rest)
    | _ => (false, trimmed)
    end in
  match take_while is_digit unsigned with
  | [] => NaN
  | digits =>
      match round_to_double (decimal_value digits) with
      | Some z => Finite (if negative then - z else z)
      | None => if negative then NegInfinity else PosInfinity
      end
  end.

(** The integer a DataView write reduces modulo the field's width for a
    number: [NaN] and the infinities are written as 0. *)
Definition ToIntegerOrZero (n : Number) : Z :=
  match n with
  | Finite z => z
  | _ => 0
  end.

(** *** Thrown values *)

(** What the page can see thrown: an exception of the calls of Part I, one
    of two TypeErrors of the language, a rejection of [fetch] or
    [response.json()] (its message is the platform's), or an [Error] the
    page itself creates. *)
Inductive JSError : Type :=
  | platform_exception (e : Exception)
  | TypeError_property_of_null
  | TypeError_not_a_function
  | TypeError_conversion (message : JSString)
  | rejection (message : JSString)
  | new_Error (message : JSString).

Inductive Result (A : Type) : Type :=
  | Returns (a : A)
  | Throws (error : JSError).
Arguments Returns {A} a.
Arguments Throws {A} error.

(** What the language leaves to the platform: the messages of its own
    errors, and [ToString] of a value that is not a string (a number's
    digits, an array's join, an object's conversion, which can throw). *)
Class Platform : Type := {
  exception_message : Exception -> JSString;
  TypeError_message : bool -> JSString;
  ToString_other : JSValue -> JSString + JSString
}.

(** *** The document, the storage and the network *)

Inductive Element : Type :=
  | textInput
  | voiceSelect
  | generateButton
  | loadingSpinner
  | buttonText
  | audioPlayer
  | audioOutputDiv
  | messageBox
  | charCountDisplay.

#[global] Instance Element_eq_decision : EqDecision Element.
Proof. solve_decision. Defined.

(** What [audioPlayer.src] is set to: a string, or the URL that
    [URL.createObjectURL] makes for a blob. *)
Inductive MediaSrc : Type :=
  | src_string (url : JSString)
  | src_object_url (blob : Blob).

(** The properties of the elements that the page reads or writes. *)
Record Document : Type := {
  el_classList : Element -> list JSString;
  el_textContent : Element -> JSString;
  el_value : Element -> JSString;
  el_disabled : Element -> bool;
  el_src : Element -> MediaSrc
}.

(** The body of a response: the value [response.json()] fulfils with, or
    the message of the error it rejects with. *)
Inductive ResponseBody : Type :=
  | body_json (v : JSValue)
  | body_rejects (message : JSString).

Record Response : Type := {
  response_status : nat;
  response_statusText : JSString;
  response_body : ResponseBody
}.

(** What a call of [fetch] settles with. *)
Inductive FetchOutcome : Type :=
  | fetch_rejects (message : JSString)
  | fetch_fulfils (response : Response).

Inductive TimerCallback : Type :=
  | resolve_promise
  | hide_messageBox.

(** What the page does to the world outside the document and the storage. *)
Inductive Event : Type :=
  | ev_console_error (label : JSString) (error : JSError)
  | ev_fetch (url : JSString) (payload : JSValue)
  | ev_setTimeout (callback : TimerCallback) (ms : Z)
  | ev_prompt (message : JSString)
  | ev_audio_load
  | ev_audio_play.

(** The world a handler runs in.  [network n] is what the [n]-th call of
    [fetch] settles with, [prompt_answer] what the user answers ([None]:
    cancelled), [storage_accepts] whether the storage has room for a pair;
    [events] is the history, oldest first. *)
Record World : Type := {
  document : Document;
  localStorage : gmap JSString JSString;
  storage_accepts : JSString -> JSString -> bool;
  entropy : RandomSource;
  network : nat -> FetchOutcome;
  requests : nat;
  prompt_answer : option JSString;
  events : list Event
}.

Definition with_classList (f : Element -> list JSString) (d : Document) : Document :=
  {| el_classList := f; el_textContent := el_textContent d; el_value := el_value d;
     el_disabled := el_disabled d; el_src := el_src d |}.

Definition with_textContent (f : Element -> JSString) (d : Document) : Document :=
  {| el_classList := el_classList d; el_textContent := f; el_value := el_value d;
     el_disabled := el_disabled d; el_src := el_src d |}.

Definition with_value (f : Element -> JSString) (d : Document) : Document :=
  {| el_classList := el_classList d; el_textContent := el_textContent d; el_value := f;
     el_disabled := el_disabled d; el_src := el_src d |}.

Definition with_disabled (f : Element -> bool) (d : Document) : Document :=
  {| el_classList := el_classList d; el_textContent := el_textContent d;
     el_value := el_value d; el_disabled := f; el_src := el_src d |}.

Definition with_src (f : Element -> MediaSrc) (d : Document) : Document :=
  {| el_classList := el_classList d; el_textContent := el_textContent d;
     el_value := el_value d; el_disabled := el_disabled d; el_src := f |}.

Definition with_document (d : Document) (w : World) : World :=
  {| document := d; localStorage := localStorage w; storage_accepts := storage_accepts w;
     entropy := entropy w; network := network w; requests := requests w;
     prompt_answer := prompt_answer w; events := events w |}.

Definition with_localStorage (s : gmap JSString JSString) (w : World) : World :=
  {| document := document w; localStorage := s; storage_accepts := storage_accepts w;
     entropy := entropy w; network := network w; requests := requests w;
     prompt_answer := prompt_answer w; events := events w |}.

Definition with_entropy (rs : RandomSource) (w : World) : World :=
  {| document := document w; localStorage := localStorage w;
     storage_accepts := storage_accepts w;
     entropy := rs; network := network w; requests := requests w;
     prompt_answer := prompt_answer w; events := events w |}.

Definition with_requests (n : nat) (w : World) : World :=
  {| document := document w; localStorage := localStorage w;
     storage_accepts := storage_accepts w;
     entropy := entropy w; network := network w; requests := n;
     prompt_answer := prompt_answer w; events := events w |}.

Definition with_events (l : list Event) (w : World) : World :=
  {| document := document w; localStorage := localStorage w;
     storage_accepts := storage_accepts w;
     entropy := entropy w; network := network w; requests := requests w;
     prompt_answer := prompt_answer w; events := l |}.

(** *** The computations of the page *)

(** A piece of the page's code: it changes the world, and returns or
    throws.  One handler runs at a time; the callbacks of timers are
    recorded in the history and run by [run_callback]. *)
Definition App (A : Type) : Type := World -> Result A * World.

Definition app_ret {A} (a : A) : App A := fun w => (Returns a, w).

Definition app_throw {A} (error : JSError) : App A := fun w => (Throws error, w).

Definition app_bind {A B} (m : App A) (k : A -> App B) : App B :=
  fun w =>
    match m w with
    | (Returns a, w') => k a w'
    | (Throws error, w') => (Throws error, w')
    end.

(** [try { body } catch (error) { handler }] *)
Definition try_catch {A} (body : App A) (handler : JSError -> App A) : App A :=
  fun w =>
    match body w with
    | (Returns a, w') => (Returns a, w')
    | (Throws error, w') => handler error w'
    end.

(** [try { body } finally { final }] *)
Definition try_finally {A} (body : App A) (final : App unit) : App A :=
  fun w =>
    let '(r, w') := body w in
    match final w' with
    | (Returns _, w'') => (r, w'')
    | (Throws error, w'') => (Throws error, w'')
    end.

Declare Scope app_scope.
Delimit Scope app_scope with app.
Notation "'const' x <- m ; k" := (app_bind m (fun x => k))
  (at level 10, x name, m at level 100, k at level 200) : app_scope.
Notation "'await' x <- m ; k" := (app_bind m (fun x => k))
  (at level 10, x name, m at level 100, k at level 200) : app_scope.
Notation "m ;; k" := (app_bind m (fun _ => k))
  (at level 100, k at level 200, right associativity) : app_scope.

(** A synchronous call of Part I. *)
Definition call {A} (c : Completion A) : App A :=
  match c with
  | Normal a => app_ret a
  | Throw e => app_throw (platform_exception e)
  end.

(** An asynchronous call of enc.js: it draws from the world's random
    source. *)
Definition call_async {A} (m : Async A) : App A :=
  fun w =>
    let '(c, rs) := m (entropy w) in
    call c (with_entropy rs w).

Definition record (e : Event) : App unit :=
  fun w => (Returns tt, with_events (events w ++ [e]) w).

(** Reading and writing the elements' properties. *)
Definition get_value (el : Element) : App JSString :=
  fun w => (Returns (el_value (document w) el), w).

Definition set_value (el : Element) (v : JSString) : App unit :=
  fun w => (Returns tt,
            with_document (with_value (<[el := v]> (el_value (document w))) (document w)) w).

Definition set_textContent (el : Element) (v : JSString) : App unit :=
  fun w => (Returns tt,
            with_document
              (with_textContent (<[el := v]> (el_textContent (document w))) (document w)) w).

Definition set_disabled (el : Element) (v : bool) : App unit :=
  fun w => (Returns tt,
            with_document
              (with_disabled (<[el := v]> (el_disabled (document w))) (document w)) w).

Definition set_src (el : Element) (v : MediaSrc) : App unit :=
  fun w => (Returns tt,
            with_document (with_src (<[el := v]> (el_src (document w))) (document w)) w).

(** [DOMTokenList.add]: each token that is not in the list yet is appended;
    [DOMTokenList.remove]: each token is taken out. *)
Definition tokens_add (tokens l : list JSString) : list JSString :=
  foldl (fun acc t => if decide (t ∈ acc) then acc else acc ++ [t]) l tokens.

Definition tokens_remove (tokens l : list JSString) : list JSString :=
  filter (fun t => t ∉ tokens) l.

Definition classList_add (el : Element) (tokens : list JSString) : App unit :=
  fun w =>
    let d := document w in
    (Returns tt,
     with_document
       (with_classList (<[el := tokens_add tokens (el_classList d el)]> (el_classList d)) d) w).

Definition classList_remove (el : Element) (tokens : list JSString) : App unit :=
  fun w =>
    let d := document w in
    (Returns tt,
     with_document
       (with_classList (<[el := tokens_remove tokens (el_classList d el)]> (el_classList d)) d)
       w).

(** [localStorage.getItem(key)]: [None] is [null]. *)
Definition localStorage_getItem (key : JSString) : App (option JSString) :=
  fun w => (Returns (localStorage w !! key), w).

(** [localStorage.setItem(key, value)]: a QuotaExceededError when the
    storage does not take the pair. *)
Definition localStorage_setItem (key value : JSString) : App unit :=
  fun w =>
    if storage_accepts w key value
    then (Returns tt, with_localStorage (<[key := value]> (localStorage w)) w)
    else (Throws (platform_exception QuotaExceededError), w).

(** [prompt(message)] *)
Definition prompt (message : JSString) : App (option JSString) :=
  fun w => (Returns (prompt_answer w), with_events (events w ++ [ev_prompt message]) w).

(** [setTimeout(callback, ms)] *)
Definition setTimeout (callback : TimerCallback) (ms : Z) : App unit :=
  record (ev_setTimeout callback ms).

(** [await new Promise(resolve => setTimeout(resolve, delay))] *)
Definition sleep (delay : Z) : App unit := setTimeout resolve_promise delay.

(** [fetch(url, {method: 'POST', headers: {'Content-Type':
    'application/json'}, body: JSON.stringify(payload)})] *)
Definition fetch (url : JSString) (payload : JSValue) : App Response :=
  fun w =>
    let w' := with_requests (S (requests w)) (with_events (events w ++ [ev_fetch url payload]) w) in
    match network w (requests w) with
    | fetch_rejects message => (Throws (rejection message), w')
    | fetch_fulfils response => (Returns response, w')
    end.

(** [response.ok]: the status is in the range 200 to 299. *)
Definition response_ok (response : Response) : bool :=
  (200 <=? response_status response)%nat && (response_status response <=? 299)%nat.

(** [response.json()] *)
Definition response_json (response : Response) : App JSValue :=
  match response_body response with
  | body_json v => app_ret v
  | body_rejects message => app_throw (rejection message)
  end.

(** What running a timer's callback does. *)
Definition run_callback (callback : TimerCallback) : App unit :=
  match callback with
  | resolve_promise => app_ret tt
  | hide_messageBox => classList_add messageBox [js "hidden"]
  end.

(** *** Utility functions for audio conversion *)

Section index_js_page.
Context `{!Platform}.
Local Open Scope app_scope.

(** [error.message] *)
Definition error_message (error : JSError) : JSString :=
  match error with
  | platform_exception e => exception_message e
  | TypeError_property_of_null => TypeError_message false
  | TypeError_not_a_function => TypeError_message true
  | TypeError_conversion message => message
  | rejection message => message
  | new_Error message => message
  end.

(** [ToString(v)], of a template literal or an argument conversion. *)
Definition ToString (v : JSValue) : App JSString :=
  match v with
  | JSStringValue s => app_ret s
  | _ =>
      match ToString_other v with
      | inr s => app_ret s
      | inl message => app_throw (TypeError_conversion message)
      end
  end.

(** [v.startsWith(searchString)] and [v.match(/rate=(\d+)/)]: only a string
    has the method; for every other value of a response the call is a
    TypeError. *)
Definition call_startsWith (v : JSValue) (searchString : JSString) : App bool :=
  match v with
  | JSStringValue s => app_ret (startsWith s searchString)
  | _ => app_throw TypeError_not_a_function
  end.

Definition call_match_rate (v : JSValue) : App (option (list JSString)) :=
  match v with
  | JSStringValue s => app_ret (match_rate s)
  | _ => app_throw TypeError_not_a_function
  end.

(** [binaryString.charCodeAt(i)], which is NaN out of range. *)
Definition charCodeAt (s : JSString) (i : nat) : Number :=
  match s !! i with
  | Some c => Finite c
  | None => NaN
  end.

(** [for (let i = 0; i < len; i++) bytes[i] = binaryString.charCodeAt(i)],
    with [todo] iterations left. *)
Fixpoint base64ToArrayBuffer_loop (bytes : list byte) (binaryString : JSString) (i todo : nat)
  : list byte :=
  match todo with
  | O => bytes
  | S todo' =>
      base64ToArrayBuffer_loop
        (<[i := byte_of_Z (ToIntegerOrZero (charCodeAt binaryString i))]> bytes)
        binaryString (S i) todo'
  end.

Definition base64ToArrayBuffer (base64 : JSString) : Completion (list byte) :=
  (try binaryString <- atob base64;
   let len := length binaryString in
   let bytes := replicate len x00 in
   Normal (base64ToArrayBuffer_loop bytes binaryString 0 len))%completion.

(** [new Int16Array(buffer)]: a RangeError when the buffer's length is not
    a multiple of 2. *)
Definition new_Int16Array (buffer : list byte) : Completion Int16Array :=
  if (length buffer mod 2 =? 0)%nat then Normal (Int16Array_of_buffer buffer)
  else Throw RangeError.

(** *** UI management *)

Definition showMessage (message : JSString) (isError : bool) : App unit :=
  set_textContent messageBox message;;
  classList_remove messageBox
    [js "hidden"; js "bg-red-100"; js "border-red-400"; js "text-red-700";
     js "bg-green-100"; js "border-green-400"; js "text-green-700"];;
  classList_add messageBox
    [js "block";
     if isError then js "bg-red-100" else js "bg-green-100";
     if isError then js "border-red-400" else js "border-green-400";
     if isError then js "text-red-700" else js "text-green-700"];;
  (* Hide after 5 seconds *)
  setTimeout hide_messageBox 5000.

Definition setLoading (isLoading : bool) : App unit :=
  set_disabled generateButton isLoading;;
  if isLoading then
    classList_remove loadingSpinner [js "hidden"];;
    set_textContent buttonText (js "Generating...");;
    classList_add audioOutputDiv [js "hidden"]
  else
    classList_add loadingSpinner [js "hidden"];;
    set_textContent buttonText (js "Generate Audio").

Definition checkInputAndEnableButton : App unit :=
  const value <- get_value textInput;
  let text := trim value in
  app_ret tt.

(** *** Core Gemini TTS API logic *)

(** How one round of the retry loop ends when it does not throw. *)
Inductive Round : Type :=
  | round_return (v : JSValue)
  | round_continue (delay : Z).

(** The [try]/[catch] of the [i]-th round. *)
Definition fetchWithBackoff_round
    (apiUrl : JSString) (payload : JSValue) (maxRetries i : nat) (delay : Z) : App Round :=
  try_catch
    (await response <- fetch apiUrl payload;
     if response_ok response then
       await v <- response_json response;
       app_ret (round_return v)
     else if (response_status response =? 429)%nat || (500 <=? response_status response)%nat then
       (* Rate limit or server error - retry *)
       sleep delay;;
       app_ret (round_continue (delay * 2))
     else
       (* Other client errors *)
       await errorData <- response_json response;
       const error <-
         match errorData with
         | JSNull | JSUndefined => app_throw TypeError_property_of_null
         | _ => app_ret (Get errorData "error")
         end;
       const detail <-
         ToString (LogicalOr (OptionalGet error "message")
                             (JSStringValue (response_statusText response)));
       app_throw (new_Error (js "API Error: " ++ decimal (response_status response) ++
                             js " - " ++ detail)))
    (fun error =>
       record (ev_console_error (js "Fetch attempt failed:") error);;
       (* If it's the last retry, or a non-retryable error, throw it *)
       if (i =? maxRetries - 1)%nat || startsWith (error_message error) (js "API Error") then
         app_throw error
       else
         sleep delay;;
         app_ret (round_continue (delay * 2))).

(** [for (let i = 0; i < maxRetries; i++) { ... }] and the [throw] after
    it, with [todo] rounds left. *)
Fixpoint fetchWithBackoff_loop
    (apiUrl : JSString) (payload : JSValue) (maxRetries i : nat) (delay : Z) (todo : nat)
  : App JSValue :=
  match todo with
  | O => app_throw (new_Error (js "API call failed after multiple retries."))
  | S todo' =>
      const round <- fetchWithBackoff_round apiUrl payload maxRetries i delay;
      match round with
      | round_return v => app_ret v
      | round_continue delay' =>
          fetchWithBackoff_loop apiUrl payload maxRetries (S i) delay' todo'
      end
  end.

Definition fetchWithBackoff (payload : JSValue) : App JSValue :=
  const stored <- localStorage_getItem (js "apiKey");
  await apiKey <- call_async (decryptApiKey (default (js "null") stored) (js "Encc1234"));
  if negb (ToBoolean (JSStringValue apiKey)) then
    app_throw (new_Error
      (js "API key not found. Please refresh the page and enter your API key."))
  else
    let apiUrl :=
      js "https://generativelanguage.googleapis.com/v1beta/models/gemini-2.5-flash-preview-tts:generateContent?key="
      ++ apiKey in
    let maxRetries := 5%nat in
    let delay := 1000 in
    fetchWithBackoff_loop apiUrl payload maxRetries 0 delay maxRetries.

(** The [try] block of [generateSpeech] from the response on. *)
Definition generateSpeech_try (voiceName : JSString) (result : JSValue) : App unit :=
  let part :=
    OptionalGetIndex
      (OptionalGet (OptionalGet (OptionalGetIndex (OptionalGet result "candidates") 0)
                                "content") "parts") 0 in
  let audioData := OptionalGet (OptionalGet part "inlineData") "data" in
  let mimeType := OptionalGet (OptionalGet part "inlineData") "mimeType" in
  const isAudio <-
    if ToBoolean audioData && ToBoolean mimeType
    then call_startsWith mimeType (js "audio/L16")
    else app_ret false;
  if isAudio then
    (* 1. Extract sample rate from mimeType string *)
    const rateMatch <- call_match_rate mimeType;
    match rateMatch with
    | None =>
        app_throw (new_Error (js "Could not determine sample rate from API response."))
    | Some groups =>
        if (length groups <? 2)%nat then
          app_throw (new_Error (js "Could not determine sample rate from API response."))
        else
          let sampleRate := parseInt10 (default [] (groups !! 1%nat)) in
          (* 2. Convert base64 to raw PCM data *)
          const base64 <- ToString audioData;
          const pcmData <- call (base64ToArrayBuffer base64);
          const pcm16 <- call (new_Int16Array pcmData);
          (* 3. Convert raw PCM to a playable WAV Blob *)
          const wavBlob <- call (pcmToWav pcm16 (ToIntegerOrZero sampleRate));
          let audioUrl := src_object_url wavBlob in
          (* 4. Update the audio player *)
          set_src audioPlayer audioUrl;;
          record ev_audio_load;;
          record ev_audio_play;;
          classList_remove audioOutputDiv [js "hidden"];;
          showMessage
            (js "Speech generated successfully using voice: " ++ voiceName ++ js "!")
            false
    end
  else
    app_throw (new_Error (js "API response missing audio data or invalid format.")).

(** The [catch] block of [generateSpeech]. *)
Definition generateSpeech_catch (error : JSError) : App unit :=
  record (ev_console_error (js "TTS generation failed:") error);;
  showMessage
    (js "Failed to generate speech: " ++
     match error_message error with
     | [] => js "An unknown error occurred."
     | message => message
     end)
    true;;
  classList_add audioOutputDiv [js "hidden"];;
  set_src audioPlayer (src_string []).

(** Handles the entire TTS generation and playback process. *)
Definition generateSpeech : App unit :=
  const value <- get_value textInput;
  let text := trim value in
  const voiceName <- get_value voiceSelect;
  if negb (ToBoolean (JSStringValue text)) then
    showMessage (js "Please enter some text to generate speech.") true
  else
    setLoading true;;
    (* Optional: Inject speech style guidance for better results *)
    const value <- get_value textInput;
    let stylePrompt :=
      if includes value (js "?")
      then js "Say excitedly: " ++ text
      else js "Say clearly: " ++ text in
    let payload :=
      JSObject
        [(js "contents",
          JSArray [JSObject [(js "parts",
                              JSArray [JSObject [(js "text", JSStringValue stylePrompt)]])]]);
         (js "generationConfig",
          JSObject
            [(js "responseModalities", JSArray [JSStringValue (js "AUDIO")]);
             (js "speechConfig",
              JSObject
                [(js "voiceConfig",
                  JSObject
                    [(js "prebuiltVoiceConfig",
                      JSObject [(js "voiceName", JSStringValue voiceName)])])])]);
         (js "model", JSStringValue (js "gemini-2.5-flash-preview-tts"))] in
    try_finally
      (try_catch
         (await result <- fetchWithBackoff payload;
          generateSpeech_try voiceName result)
         generateSpeech_catch)
      (setLoading false);;
    set_value textInput [].

(** *** Event listeners and initialization *)

(** The listener of [textInput]'s 'input' event. *)
Definition textInput_input : App unit :=
  const value <- get_value textInput;
  let currentLength := length value in
  set_textContent charCountDisplay (decimal currentLength ++ js "/500 characters");;
  checkInputAndEnableButton.

Definition window_onload : App unit :=
  (* Check if API key exists in localStorage *)
  const apiKey <- localStorage_getItem (js "apiKey");
  if negb (ToBoolean (nullable apiKey)) then
    (* Prompt for API key if not found *)
    const apiKey <- prompt (js "Please enter your Gemini API key: ");
    if ToBoolean (nullable apiKey) then
      await encrypted <- call_async (encryptApiKey (default [] apiKey) (js "Encc1234"));
      (* Save encrypted to localStorage *)
      localStorage_setItem (js "apiKey") encrypted;;
      showMessage (js "API key saved successfully!") false
    else
      showMessage (js "No API key provided. Voice generation will not work.") true
  else app_ret tt.

End index_js_page.
(** ** Auxiliary definitions of the proofs *)

(** Overwriting [h] at [off] with [bs]. *)
Definition splice (h : list byte) (off : nat) (bs : list byte) : list byte :=
  take off h ++ bs ++ drop (off + length bs) h.

(** 2147483630 silent samples: 4294967260 bytes of payload. *)
Definition huge_pcm : Int16Array :=
  {| ta_buffer := replicate (N.to_nat 4294967260) x00;
     ta_byteOffset := 0;
     ta_length := N.to_nat 2147483630 |}.

(** A one-sample window at byte offset 2 of a four-byte buffer. *)
Definition offset_pcm : Int16Array :=
  {| ta_buffer := [x01; x02; x03; x04]; ta_byteOffset := 2; ta_length := 1 |}.

(** The 6-bit groups of [base64_encode], without the padding. *)
Fixpoint base64_sextets (bs : list byte) : list Z :=
  match bs with
  | [] => []
  | [a] =>
      let n := byte_to_Z a * 65536 in
      [n / 262144; n / 4096 mod 64]
  | [a; b] =>
      let n := byte_to_Z a * 65536 + byte_to_Z b * 256 in
      [n / 262144; n / 4096 mod 64; n / 64 mod 64]
  | a :: b :: c :: rest =>
      let n := byte_to_Z a * 65536 + byte_to_Z b * 256 + byte_to_Z c in
      n / 262144 :: n / 4096 mod 64 :: n / 64 mod 64 :: n mod 64 ::
      base64_sextets rest
  end.

Fixpoint base64_padding (bs : list byte) : JSString :=
  match bs with
  | [] => []
  | [_] => [61; 61]
  | [_; _] => [61]
  | _ :: _ :: _ :: rest => base64_padding rest
  end.

(** A Unicode scalar value: a code point that is not a surrogate. *)
Definition is_scalar_value (cp : Z) : Prop :=
  0 <= cp <= 0xD7FF \/ 0xE000 <= cp <= 0x10FFFF.

(** The salt and the IV [encryptApiKey] draws from a random source, the
    source it leaves, and the key [deriveKey] derives. *)
Definition drawn_salt (rs : RandomSource) : list byte := rs <$> seq 0 saltLen.

Definition drawn_iv (rs : RandomSource) : list byte :=
  (fun i => rs (saltLen + i)%nat) <$> seq 0 ivLen.

Definition source_after_draws (rs : RandomSource) : RandomSource :=
  fun i => rs (saltLen + (ivLen + i))%nat.

Definition derived_key (password : JSString) (salt : list byte) : list byte :=
  pbkdf2_hmac_sha256 (TextEncoder_encode password) salt pbkdf2Iterations 32.

(** The decoded blob [encryptApiKey] builds: salt, IV, ciphertext, tag. *)
Definition sealed_bytes (apiKey password : JSString) (rs : RandomSource) : list byte :=
  let salt := drawn_salt rs in
  let iv := drawn_iv rs in
  let ct := GCM.encrypt (derived_key password salt) iv (TextEncoder_encode apiKey) in
  salt ++ iv ++ ct.1 ++ ct.2.

(** The blobs the specification calls malformed: the base64 decoding
    fails, or the decoded length is less than [saltLen + ivLen]. *)
Definition malformed_blob (blob : JSString) : Prop :=
  match base64ToBuf blob with
  | Normal d => (length d < saltLen + ivLen)%nat
  | Throw _ => True
  end.

(** The integrity check of a decoded blob fails under a password: the tag
    recomputed over the ciphertext, with the key derived from the password
    and the blob's salt, is not the blob's last 16 bytes. *)
Definition integrity_check_fails (d : list byte) (password : JSString) : Prop :=
  let ct := drop (saltLen + ivLen) d in
  let n := (length ct - 16)%nat in
  GCM.tag (derived_key password (take saltLen d))
          (take ivLen (drop saltLen d)) (take n ct) <> drop n ct.

(** A decoded blob that is a blob sealed under the password with one byte
    of its 16-byte tag replaced by a different byte. *)
Definition tag_modified (d : list byte) (password : JSString) : Prop :=
  exists apiKey rs i b,
    let v := sealed_bytes apiKey password rs in
    (length v - 16 <= i < length v)%nat /\ v !! i <> Some b /\ d = <[i := b]> v.

(** The blob sealed for "sk-test-123" under "Encc1234" with the last byte of
    its tag changed in one bit. *)
Definition sealed_example : list byte :=
  sealed_bytes (js "sk-test-123") (js "Encc1234") (constant_source x00).

Definition tampered_example : list byte :=
  <[54%nat := byte_xor (default x00 (sealed_example !! 54%nat)) x01]> sealed_example.

(** ** Auxiliary definitions of the further properties *)

(** [String.prototype.toWellFormed]: the string with every unpaired
    surrogate replaced by U+FFFD. *)
Fixpoint toWellFormed (s : JSString) : JSString :=
  match s with
  | [] => []
  | c :: rest =>
      if is_lead_surrogate c then
        match rest with
        | d :: rest' =>
            if is_trail_surrogate d then c :: d :: toWellFormed rest'
            else 0xFFFD :: toWellFormed rest
        | [] => [0xFFFD]
        end
      else if is_trail_surrogate c then 0xFFFD :: toWellFormed rest
      else c :: toWellFormed rest
  end.

(** The states the UTF-8 decoder can be in: no sequence is open, or the
    code point so far and the awaited range leave only scalar values. *)
Definition utf8_decoder_inv (st : utf8_decoder) : Prop :=
  let cp := utf8_code_point st in
  let lo := utf8_lower_boundary st in
  let hi := utf8_upper_boundary st in
  utf8_bytes_needed st = 0%nat \/
  (0x80 <= lo /\ hi <= 0xBF /\
   match utf8_bytes_needed st, utf8_bytes_seen st with
   | 1%nat, 0%nat => 2 <= cp <= 31
   | 2%nat, 0%nat => 0 <= cp <= 15 /\ (cp = 0 -> 0xA0 <= lo) /\ (cp = 13 -> hi <= 0x9F)
   | 2%nat, 1%nat => 0x20 <= cp <= 0x35F \/ 0x380 <= cp <= 0x3FF
   | 3%nat, 0%nat => 0 <= cp <= 4 /\ (cp = 0 -> 0x90 <= lo) /\ (cp = 4 -> hi <= 0x8F)
   | 3%nat, 1%nat => 0x10 <= cp <= 0x10F
   | 3%nat, 2%nat => 0x400 <= cp <= 0x43FF
   | _, _ => False
   end).


(** ** Auxiliary definitions of the page's properties *)

(** The address [fetchWithBackoff] posts to, without the key. *)
Definition api_endpoint : JSString :=
  js "https://generativelanguage.googleapis.com/v1beta/models/gemini-2.5-flash-preview-tts:generateContent?key=".

(** The requests and the awaited delays of a history. *)
Definition fetches (history : list Event) : list (JSString * JSValue) :=
  omap (fun e => match e with ev_fetch url payload => Some (url, payload) | _ => None end)
       history.

Definition waits (history : list Event) : list Z :=
  omap (fun e => match e with ev_setTimeout resolve_promise ms => Some ms | _ => None end)
       history.

(** [delay], [2 * delay], [4 * delay], ...: [n] delays. *)
Definition backoff (delay : Z) (n : nat) : list Z :=
  (fun k => delay * 2 ^ Z.of_nat k) <$> seq 0 n.

(** What decrypting the stored blob gives in a world. *)
Definition stored_key (w : World) : Completion JSString :=
  (decryptApiKey (default (js "null") (localStorage w !! js "apiKey")) (js "Encc1234")
                 (entropy w)).1.

(** Nothing but the request counter and the history differs. *)
Definition same_page (w w' : World) : Prop :=
  document w' = document w /\ localStorage w' = localStorage w /\
  storage_accepts w' = storage_accepts w /\ entropy w' = entropy w /\
  network w' = network w /\ prompt_answer w' = prompt_answer w.

(** A response with a status the loop retries: not ok, and 429 or at least
    500. *)
Definition retry_status (r : Response) : bool :=
  negb (response_ok r) &&
  ((response_status r =? 429)%nat || (500 <=? response_status r)%nat).

(** The message of the rejection a round catches: of [fetch] itself, or of
    [response.json()] when the body is read. *)
Definition caught_rejection (o : FetchOutcome) : option JSString :=
  match o with
  | fetch_rejects message => Some message
  | fetch_fulfils r =>
      if retry_status r then None
      else match response_body r with
           | body_rejects message => Some message
           | body_json _ => None
           end
  end.

(** An outcome after which a round that is not the last one goes on: a
    retried status, or a rejection whose message does not start with
    "API Error". *)
Definition transient (o : FetchOutcome) : bool :=
  match caught_rejection o with
  | Some message => negb (startsWith message (js "API Error"))
  | None =>
      match o with
      | fetch_fulfils r => retry_status r
      | fetch_rejects _ => false
      end
  end.

(** A platform, a document and worlds to run the page in. *)
Definition example_platform : Platform :=
  {| exception_message := fun _ => js "The operation failed.";
     TypeError_message := fun _ => js "not a function";
     ToString_other := fun _ => inr (js "[object Object]") |}.

Definition example_document (text voice : JSString) : Document :=
  {| el_classList := fun _ => [js "hidden"];
     el_textContent := fun _ => [];
     el_value := <[textInput := text]> (fun _ => voice);
     el_disabled := fun _ => false;
     el_src := fun _ => src_string [] |}.

Definition example_world
    (storage : gmap JSString JSString) (text : JSString)
    (net : nat -> FetchOutcome) (answer : option JSString) : World :=
  {| document := example_document text (js "Kore");
     localStorage := storage;
     storage_accepts := fun _ _ => true;
     entropy := constant_source x00;
     network := net;
     requests := 0;
     prompt_answer := answer;
     events := [] |}.

(** A storage that holds the blob sealed for "sk-test-123". *)
Definition example_storage : gmap JSString JSString :=
  {[ js "apiKey" := base64_encode sealed_example ]}.

Definition server_error : FetchOutcome :=
  fetch_fulfils {| response_status := 503; response_statusText := js "Service Unavailable";
                   response_body := body_rejects (js "Unexpected token") |}.

Definition client_error : FetchOutcome :=
  fetch_fulfils
    {| response_status := 400; response_statusText := js "Bad Request";
       response_body :=
         body_json (JSObject [(js "error",
                               JSObject [(js "message", JSStringValue (js "API key not valid"))])]) |}.

(** A response that carries four bytes of PCM at 24000 Hz. *)
Definition audio_response : FetchOutcome :=
  fetch_fulfils
    {| response_status := 200; response_statusText := js "OK";
       response_body :=
         body_json
           (JSObject
              [(js "candidates",
                JSArray
                  [JSObject
                     [(js "content",
                       JSObject
                         [(js "parts",
                           JSArray
                             [JSObject
                                [(js "inlineData",
                                  JSObject
                                    [(js "mimeType",
                                      JSStringValue (js "audio/L16;codec=pcm;rate=24000"));
                                     (js "data", JSStringValue (js "AQIDBA=="))])]])])]])]) |}.

(** How a round of the retry loop goes, by what [fetch] settles with: the
    round returns a value, waits after a retried status, or catches an
    error. *)
Inductive RoundCase : Type :=
  | case_return (v : JSValue)
  | case_retry
  | case_catch (error : JSError).

Section round_cases.
Context `{!Platform}.

(** The message after "API Error: status - ". *)
Definition error_detail (errorData : JSValue) (statusText : JSString) : JSValue :=
  LogicalOr (OptionalGet (Get errorData "error") "message") (JSStringValue statusText).

Definition round_case (o : FetchOutcome) : RoundCase :=
  match o with
  | fetch_rejects message => case_catch (rejection message)
  | fetch_fulfils r =>
      if retry_status r then case_retry
      else
        match response_body r with
        | body_rejects message => case_catch (rejection message)
        | body_json v =>
            if response_ok r then case_return v
            else
              match v with
              | JSNull | JSUndefined => case_catch TypeError_property_of_null
              | _ =>
                  match error_detail v (response_statusText r) with
                  | JSStringValue detail =>
                      case_catch (new_Error (js "API Error: " ++ decimal (response_status r) ++
                                             js " - " ++ detail))
                  | other =>
                      match ToString_other other with
                      | inr detail =>
                          case_catch (new_Error (js "API Error: " ++
                                                 decimal (response_status r) ++
                                                 js " - " ++ detail))
                      | inl message => case_catch (TypeError_conversion message)
                      end
                  end
              end
        end
  end.

End round_cases.

(** The world after a request, and after an event. *)
Definition requested (url : JSString) (payload : JSValue) (w : World) : World :=
  with_requests (S (requests w)) (with_events (events w ++ [ev_fetch url payload]) w).

Definition recorded (e : Event) (w : World) : World := with_events (events w ++ [e]) w.

(** The address the requests of a world go to: the endpoint and the key
    the stored blob decrypts to. *)
Definition request_url (w : World) : JSString :=
  api_endpoint ++ match stored_key w with Normal key => key | Throw _ => [] end.

(** Between [w] and [w'], [n] requests were sent, all to the world's
    address and with the same payload; the storage, the random source and
    the network's answers are as before. *)
Definition sends (payload : JSValue) (n : nat) (w w' : World) : Prop :=
  localStorage w' = localStorage w /\ storage_accepts w' = storage_accepts w /\
  entropy w' = entropy w /\ network w' = network w /\
  prompt_answer w' = prompt_answer w /\
  requests w' = (requests w + n)%nat /\
  exists new, events w' = events w ++ new /\
              fetches new = replicate n (request_url w, payload).

(** A computation that sends no request, whatever the world. *)
Definition quiet {A} (m : App A) : Prop := forall w, sends JSNull 0 w (m w).2.

(** The part of a response the page plays. *)
Definition audio_part (result : JSValue) : JSValue :=
  OptionalGetIndex
    (OptionalGet (OptionalGet (OptionalGetIndex (OptionalGet result "candidates") 0)
                              "content") "parts") 0.

(** The payload of a speech request. *)
Definition speech_payload (stylePrompt voiceName : JSString) : JSValue :=
  JSObject
    [(js "contents",
      JSArray [JSObject [(js "parts",
                          JSArray [JSObject [(js "text", JSStringValue stylePrompt)]])]]);
     (js "generationConfig",
      JSObject
        [(js "responseModalities", JSArray [JSStringValue (js "AUDIO")]);
         (js "speechConfig",
          JSObject
            [(js "voiceConfig",
              JSObject
                [(js "prebuiltVoiceConfig",
                  JSObject [(js "voiceName", JSStringValue voiceName)])])])]);
     (js "model", JSStringValue (js "gemini-2.5-flash-preview-tts"))].

(** The style prompt of a text field's value. *)
Definition style_prompt (value : JSString) : JSString :=
  if includes value (js "?")
  then js "Say excitedly: " ++ trim value
  else js "Say clearly: " ++ trim value.
(* ================================================================== *)
(** * Part II: properties                                              *)
(* ================================================================== *)


(** ** The platform primitives on their published test vectors *)

Example base64_rfc4648 :
  bufToBase64 (ascii_bytes "foobar") = Normal (js "Zm9vYmFy") /\
  bufToBase64 (ascii_bytes "foob") = Normal (js "Zm9vYg==") /\
  base64ToBuf (js "Zm9v YmE=") = Normal (ascii_bytes "fooba") /\
  base64ToBuf (js "Zm9vYmE") = Normal (ascii_bytes "fooba") /\
  base64ToBuf (js "Zm9vY") = Throw InvalidCharacterError /\
  base64ToBuf (js "Zm9v*mFy") = Throw InvalidCharacterError.
Proof. repeat apply conj; vm_compute; reflexivity. Qed.

Example utf8_samples :
  TextEncoder_encode [0x41; 0xE9; 0x20AC; 0xD83D; 0xDE00] =
    [x41; xc3; xa9; xe2; x82; xac; xf0; x9f; x98; x80] /\
  TextEncoder_encode [0xD800; 0x41] = [xef; xbf; xbd; x41] /\
  TextDecoder_decode [x41; xc3; xa9; xe2; x82; xac; xf0; x9f; x98; x80] =
    [0x41; 0xE9; 0x20AC; 0xD83D; 0xDE00] /\
  TextDecoder_decode [xef; xbb; xbf; x41] = [0x41] /\
  TextDecoder_decode [xc0; x80; xed; xa0; x80; x41; xe2; x82] =
    [0xFFFD; 0xFFFD; 0xFFFD; 0xFFFD; 0xFFFD; 0x41; 0xFFFD].
Proof. repeat apply conj; vm_compute; reflexivity. Qed.

(** FIPS 180-4 ("abc", the empty message, a two-block message). *)
Example sha256_vectors :
  be_value (SHA256.sha256 (ascii_bytes "abc")) =
    0xba7816bf8f01cfea414140de5dae2223b00361a396177a9cb410ff61f20015ad /\
  be_value (SHA256.sha256 []) =
    0xe3b0c44298fc1c149afbf4c8996fb92427ae41e4649b934ca495991b7852b855 /\
  be_value (SHA256.sha256
              (ascii_bytes "abcdbcdecdefdefgefghfghighijhijkijkljklmklmnlmnomnopnopq")) =
    0x248d6a61d20638b8e5c026930c3e6039a33ce45964ff2167f6ecedd419db06c1.
Proof. repeat apply conj; vm_compute; reflexivity. Qed.

(** RFC 4231, test cases 1 and 2. *)
Example hmac_sha256_vectors :
  be_value (hmac_sha256 (replicate 20 x0b) (ascii_bytes "Hi There")) =
    0xb0344c61d8db38535ca8afceaf0bf12b881dc200c9833da726e9376c2e32cff7 /\
  be_value (hmac_sha256 (ascii_bytes "Jefe") (ascii_bytes "what do ya want for nothing?")) =
    0x5bdcc146bf60754e6a042426089575c75a003f089d2739839dec58b964ec3843.
Proof. repeat apply conj; vm_compute; reflexivity. Qed.

(** PBKDF2-HMAC-SHA-256 of "password" and "salt", one and two iterations. *)
Example pbkdf2_vectors :
  be_value (pbkdf2_hmac_sha256 (ascii_bytes "password") (ascii_bytes "salt") 1 32) =
    0x120fb6cffcf8b32c43e7225256c4f837a86548c92ccc35480805987cb70be17b /\
  be_value (pbkdf2_hmac_sha256 (ascii_bytes "password") (ascii_bytes "salt") 2 32) =
    0xae4d0c95af6b46d32d0adff928f06dd02a303f8ef3c251dfd6e2d85a95474c43.
Proof. repeat apply conj; vm_compute; reflexivity. Qed.

(** FIPS 197, appendix C.3. *)
Example aes256_vector :
  be_value (AES.encrypt_block
              (be_bytes 32 0x000102030405060708090a0b0c0d0e0f101112131415161718191a1b1c1d1e1f)
              (be_bytes 16 0x00112233445566778899aabbccddeeff)) =
  0x8ea2b7ca516745bfeafc49904b496089.
Proof. vm_compute. reflexivity. Qed.

(** The GCM specification's test cases 13 and 14 (AES-256, zero key). *)
Example gcm_vectors :
  GCM.encrypt (replicate 32 x00) (replicate 12 x00) [] =
    ([], be_bytes 16 0x530f8afbc74536b9a963b4f1c4cb738b) /\
  GCM.encrypt (replicate 32 x00) (replicate 12 x00) (replicate 16 x00) =
    (be_bytes 16 0xcea7403d4d606b6e074ec5d3baf39d18,
     be_bytes 16 0xd0d1c8a799996bf0265b98b5d48ab919) /\
  GCM.decrypt (replicate 32 x00) (replicate 12 x00)
    (be_bytes 16 0xcea7403d4d606b6e074ec5d3baf39d18)
    (be_bytes 16 0xd0d1c8a799996bf0265b98b5d48ab919) = Some (replicate 16 x00) /\
  GCM.decrypt (replicate 32 x00) (replicate 12 x00)
    (be_bytes 16 0xcea7403d4d606b6e074ec5d3baf39d19)
    (be_bytes 16 0xd0d1c8a799996bf0265b98b5d48ab919) = None.
Proof. repeat apply conj; vm_compute; reflexivity. Qed.
(** ** Bytes *)

Lemma byte_to_Z_range b : 0 <= byte_to_Z b < 256.
Proof.
  unfold byte_to_Z. pose proof (Byte.to_N_bounded b). lia.
Qed.

Lemma byte_of_to_Z b : byte_of_Z (byte_to_Z b) = b.
Proof.
  unfold byte_of_Z, byte_to_Z.
  rewrite Z.mod_small by (pose proof (Byte.to_N_bounded b); lia).
  rewrite N2Z.id, Byte.of_to_N. reflexivity.
Qed.

Lemma byte_to_of_Z z : byte_to_Z (byte_of_Z z) = z mod 256.
Proof.
  unfold byte_of_Z, byte_to_Z.
  assert (H : (Z.to_N (z mod 256) < 256)%N) by (pose proof (Z.mod_pos_bound z 256); lia).
  destruct (Byte.of_N (Z.to_N (z mod 256))) as [b|] eqn:E.
  - apply Byte.to_of_N in E. simpl. rewrite E. pose proof (Z.mod_pos_bound z 256). lia.
  - apply Byte.of_N_None_iff in E. lia.
Qed.

Lemma byte_to_of_Z_small z : 0 <= z < 256 -> byte_to_Z (byte_of_Z z) = z.
Proof. intros H. rewrite byte_to_of_Z. by apply Z.mod_small. Qed.

Lemma byte_to_Z_inj a b : byte_to_Z a = byte_to_Z b -> a = b.
Proof. intros H. by rewrite <- (byte_of_to_Z a), <- (byte_of_to_Z b), H. Qed.

Lemma fmap_byte_of_to_Z (bs : list byte) : byte_of_Z <$> (byte_to_Z <$> bs) = bs.
Proof.
  induction bs as [|b bs IH]; [done|]. cbn. by rewrite byte_of_to_Z, IH.
Qed.

(** ** index.js: the PCM framer *)

Lemma set_view_value_app_l (h t bs : list byte) (off : nat) :
  (off + length bs <= length h)%nat ->
  set_view_value (h ++ t) off bs = Normal (splice h off bs ++ t).
Proof.
  intros H. unfold set_view_value, splice.
  rewrite decide_True by (rewrite length_app; lia).
  f_equal. rewrite take_app_le by lia. rewrite drop_app_le by lia.
  by rewrite <- !app_assoc.
Qed.

(** One header write: it lands inside the explicit 44-byte prefix. *)
Ltac write_header_step :=
  rewrite set_view_value_app_l by (cbn [length]; lia);
  match goal with
  | |- context [splice ?h ?o ?b] =>
      let r := eval cbn [splice take drop app length Nat.add] in (splice h o b) in
      change (splice h o b) with r
  end;
  cbn [cbind].

Lemma le_value_uint_bytes_4 v : le_value (uint_bytes 4 v true) = v mod 2 ^ 32.
Proof.
  unfold le_value, uint_bytes. cbn [seq fmap list_fmap foldr].
  rewrite !byte_to_of_Z. change (256 ^ Z.of_nat 0) with 1.
  change (256 ^ Z.of_nat 1) with 256. change (256 ^ Z.of_nat 2) with 65536.
  change (256 ^ Z.of_nat 3) with 16777216. change (2 ^ 32) with 4294967296.
  rewrite Z.div_1_r. Z.div_mod_to_equations; lia.
Qed.

Lemma le_value_uint_bytes_2 v : le_value (uint_bytes 2 v true) = v mod 2 ^ 16.
Proof.
  unfold le_value, uint_bytes. cbn [seq fmap list_fmap foldr].
  rewrite !byte_to_of_Z. change (256 ^ Z.of_nat 0) with 1.
  change (256 ^ Z.of_nat 1) with 256. change (2 ^ 16) with 65536.
  rewrite Z.div_1_r. Z.div_mod_to_equations; lia.
Qed.

(** The thirteen header writes of [pcmToWav] produce the specified header
    and leave the rest of the buffer alone. *)
Lemma header_writes {B} (r : Z) (n : nat) (t : list byte) (K : list byte -> Completion B) :
  (try view <- writeString (replicate 44 x00 ++ t) 0 (js "RIFF");
   try view <- setUint32 view 4 (Z.of_nat (36 + n)) true;
   try view <- writeString view 8 (js "WAVE");
   try view <- writeString view 12 (js "fmt ");
   try view <- setUint32 view 16 16 true;
   try view <- setUint16 view 20 1 true;
   try view <- setUint16 view 22 1 true;
   try view <- setUint32 view 24 r true;
   try view <- setUint32 view 28 (r * 1 * (16 / 8)) true;
   try view <- setUint16 view 32 (1 * (16 / 8)) true;
   try view <- setUint16 view 34 16 true;
   try view <- writeString view 36 (js "data");
   try view <- setUint32 view 40 (Z.of_nat n) true;
   K view)%completion
  = K (wav_header r (Z.of_nat n) ++ t).
Proof.
  rewrite Nat2Z.inj_add. change (Z.of_nat 36) with 36.
  generalize (Z.of_nat n). intros L.
  let l := eval cbv in (replicate 44 x00) in change (replicate 44 x00) with l.
  unfold writeString, setUint32, setUint16. cbn [js writeString_loop]. unfold setUint8.
  unfold uint_bytes. cbn [seq fmap list_fmap].
  repeat write_header_step.
  reflexivity.
Qed.

Lemma getUint8_lookup (view : list byte) i b :
  view !! i = Some b -> getUint8 view i = Normal (byte_to_Z b).
Proof. unfold getUint8. by intros ->. Qed.

(** The copy loop, by induction on the iterations left: after [i] rounds the
    view holds the header, the first [i] source bytes and zeros. *)
Lemma copy_loop_spec (hdr src : list byte) (todo i : nat) :
  length hdr = 44%nat -> (i + todo <= length src)%nat ->
  copy_loop (hdr ++ take i src ++ replicate todo x00) src i todo =
  Normal (hdr ++ take (i + todo) src).
Proof.
  intros Hh. revert i. induction todo as [|todo IH]; intros i Hi.
  - cbn. by rewrite Nat.add_0_r, app_nil_r.
  - cbn [copy_loop].
    destruct (lookup_lt_is_Some_2 src i ltac:(lia)) as [b Hb].
    rewrite (getUint8_lookup _ _ _ Hb). cbn [cbind].
    unfold setUint8, set_view_value, uint_bytes. cbn [seq fmap list_fmap length].
    rewrite decide_True.
    2:{ rewrite !length_app, length_take, length_replicate; cbn [length].
        rewrite Nat.min_l by lia. lia. }
    cbn [cbind]. rewrite Z.div_1_r, byte_of_to_Z.
    replace (hdr ++ take i src ++ replicate (S todo) x00)
      with ((hdr ++ take i src) ++ x00 :: replicate todo x00) by (by rewrite <- app_assoc).
    assert (Hl : length (hdr ++ take i src) = (44 + i)%nat)
      by (rewrite length_app, length_take, Nat.min_l; lia).
    rewrite take_app_length' by done.
    rewrite (drop_app_add' _ _ _ 1) by (cbn [length]; lia). cbn [drop]. rewrite drop_0.
    replace ((hdr ++ take i src) ++ [b] ++ replicate todo x00)
      with (hdr ++ take (S i) src ++ replicate todo x00).
    + rewrite IH by lia. by replace (S i + todo)%nat with (i + S todo)%nat by lia.
    + rewrite (take_S_r _ _ _ Hb). by rewrite <- !app_assoc.
Qed.

Lemma wav_header_length r L : length (wav_header r L) = 44%nat.
Proof. reflexivity. Qed.

(** What [pcmToWav] returns whenever the copy loop stays inside the source
    buffer: the header followed by the first [byteLength] bytes of the
    array's underlying buffer. *)
Lemma pcmToWav_spec (pcm16 : Int16Array) (r : Z) :
  (byteLength pcm16 <= length (ta_buffer pcm16))%nat ->
  pcmToWav pcm16 r =
  Normal {| blob_bytes := wav_header r (Z.of_nat (byteLength pcm16))
                          ++ take (byteLength pcm16) (ta_buffer pcm16);
            blob_type := "audio/wav" |}.
Proof.
  intros H. unfold pcmToWav. cbv zeta.
  rewrite replicate_add, header_writes.
  change (replicate (byteLength pcm16) x00)
    with (take 0 (ta_buffer pcm16) ++ replicate (byteLength pcm16) x00).
  rewrite copy_loop_spec by (apply wav_header_length || (cbn [Nat.add]; lia)).
  reflexivity.
Qed.

Lemma field_app_l (first n : nat) (h t : list byte) :
  (first + n <= length h)%nat -> field first n (h ++ t) = field first n h.
Proof.
  intros H. unfold field. rewrite drop_app_le by lia.
  rewrite take_app_le; [done|]. rewrite length_drop. lia.
Qed.

Lemma huge_pcm_byteLength : Z.of_nat (byteLength huge_pcm) = 4294967260.
Proof.
  unfold byteLength, huge_pcm. cbn [ta_length].
  rewrite Nat2Z.inj_mul, N_nat_Z. reflexivity.
Qed.

(** C6, as stated, fails where the 32-bit size fields wrap: for a payload of
    4294967260 bytes the chunk-size field holds 0, not 36 + L = 4294967296. *)
Lemma pcmToWav_chunk_size_wraps :
  exists bytes,
    pcmToWav huge_pcm 24000 = Normal {| blob_bytes := bytes; blob_type := "audio/wav" |} /\
    le_value (field 4 4 bytes) = 0 /\
    le_value (field 4 4 bytes) <> 36 + Z.of_nat (byteLength huge_pcm).
Proof.
  eexists. split.
  { apply pcmToWav_spec.
    change (ta_buffer huge_pcm) with (replicate (N.to_nat 4294967260) x00).
    rewrite length_replicate. apply Nat2Z.inj_le.
    rewrite huge_pcm_byteLength, N_nat_Z. done. }
  rewrite field_app_l by (rewrite wav_header_length; lia).
  change (field 4 4 (wav_header 24000 (Z.of_nat (byteLength huge_pcm))))
    with (uint_bytes 4 (36 + Z.of_nat (byteLength huge_pcm)) true).
  rewrite le_value_uint_bytes_4, huge_pcm_byteLength. split; [reflexivity | discriminate].
Qed.

(** C6 (amended): for every sample array of byte length L with 36 + L < 2^32
    and every sample rate, [pcmToWav] returns one buffer of exactly 44 + L
    bytes whose bytes 4-7 hold 36 + L and whose bytes 40-43 hold L, both
    little-endian. *)
Theorem pcmToWav_size_fields (pcm16 : Int16Array) (sampleRate : Z) :
  Int16Array_wf pcm16 ->
  36 + Z.of_nat (byteLength pcm16) < 2 ^ 32 ->
  exists bytes,
    pcmToWav pcm16 sampleRate = Normal {| blob_bytes := bytes; blob_type := "audio/wav" |} /\
    length bytes = (44 + byteLength pcm16)%nat /\
    le_value (field 4 4 bytes) = 36 + Z.of_nat (byteLength pcm16) /\
    le_value (field 40 4 bytes) = Z.of_nat (byteLength pcm16).
Proof.
  intros Hwf Hsz. unfold Int16Array_wf in Hwf.
  eexists. split; [apply pcmToWav_spec; lia|].
  split.
  { rewrite length_app, wav_header_length, length_take. lia. }
  rewrite !field_app_l by (rewrite wav_header_length; lia).
  split.
  - change (field 4 4 (wav_header sampleRate (Z.of_nat (byteLength pcm16))))
      with (uint_bytes 4 (36 + Z.of_nat (byteLength pcm16)) true).
    rewrite le_value_uint_bytes_4. apply Z.mod_small. lia.
  - change (field 40 4 (wav_header sampleRate (Z.of_nat (byteLength pcm16))))
      with (uint_bytes 4 (Z.of_nat (byteLength pcm16)) true).
    rewrite le_value_uint_bytes_4. apply Z.mod_small. lia.
Qed.

Lemma pcmToWav_size_fields_witness :
  exists bytes,
    pcmToWav (Int16Array_of_buffer [x01; x02; x03; x04]) 24000 =
      Normal {| blob_bytes := bytes; blob_type := "audio/wav" |} /\
    length bytes = 48%nat /\
    le_value (field 4 4 bytes) = 40 /\
    le_value (field 40 4 bytes) = 4.
Proof.
  apply (pcmToWav_size_fields (Int16Array_of_buffer [x01; x02; x03; x04]) 24000).
  - unfold Int16Array_wf. cbn. lia.
  - cbn. lia.
Defined.

(** C7, as stated, fails in two places.  By the format: the byte-rate field
    is 32 bits wide, so for the rate 2^31 it holds 0 and not 2r.  And for an
    array that is a window at a non-zero offset of its buffer the payload is
    read from the start of the buffer, not from the window. *)
Lemma pcmToWav_byte_rate_wraps :
  (exists bytes,
     pcmToWav (Int16Array_of_buffer []) 2147483648 =
       Normal {| blob_bytes := bytes; blob_type := "audio/wav" |} /\
     le_value (field 28 4 bytes) <> 2 * 2147483648) /\
  (exists bytes,
     pcmToWav offset_pcm 24000 =
       Normal {| blob_bytes := bytes; blob_type := "audio/wav" |} /\
     sample_bytes offset_pcm = [x03; x04] /\
     drop 44 bytes = [x01; x02]).
Proof.
  split; eexists; (split; [vm_compute; reflexivity|]).
  - vm_compute. discriminate.
  - split; reflexivity.
Qed.

(** C7 (amended): for every sample rate 0 <= r < 2^31 and every sample array
    that starts at byte offset 0 of its buffer, the header's byte-rate field
    is 2r, its block-align field 2, its channel count 1, its bits per sample
    16, its audio format code 1, and the bytes from offset 44 on are the
    array's sample bytes, unchanged. *)
Theorem pcmToWav_derived_fields (pcm16 : Int16Array) (r : Z) :
  Int16Array_wf pcm16 ->
  ta_byteOffset pcm16 = 0%nat ->
  0 <= r < 2 ^ 31 ->
  exists bytes,
    pcmToWav pcm16 r = Normal {| blob_bytes := bytes; blob_type := "audio/wav" |} /\
    le_value (field 28 4 bytes) = 2 * r /\
    le_value (field 32 2 bytes) = 2 /\
    le_value (field 22 2 bytes) = 1 /\
    le_value (field 34 2 bytes) = 16 /\
    le_value (field 20 2 bytes) = 1 /\
    drop 44 bytes = sample_bytes pcm16.
Proof.
  intros Hwf Hoff Hr. unfold Int16Array_wf in Hwf.
  eexists. split; [apply pcmToWav_spec; lia|].
  rewrite !field_app_l by (rewrite wav_header_length; lia).
  repeat split; try reflexivity.
  - change (field 28 4 (wav_header r (Z.of_nat (byteLength pcm16))))
      with (uint_bytes 4 (r * 1 * 2) true).
    rewrite le_value_uint_bytes_4. rewrite Z.mod_small; lia.
  - rewrite drop_app_length' by done.
    unfold sample_bytes. by rewrite Hoff, drop_0.
Qed.

Lemma pcmToWav_derived_fields_witness :
  exists bytes,
    pcmToWav (Int16Array_of_buffer [x01; x02; x03; x04]) 24000 =
      Normal {| blob_bytes := bytes; blob_type := "audio/wav" |} /\
    le_value (field 28 4 bytes) = 2 * 24000 /\
    le_value (field 32 2 bytes) = 2 /\
    le_value (field 22 2 bytes) = 1 /\
    le_value (field 34 2 bytes) = 16 /\
    le_value (field 20 2 bytes) = 1 /\
    drop 44 bytes = sample_bytes (Int16Array_of_buffer [x01; x02; x03; x04]).
Proof.
  apply (pcmToWav_derived_fields (Int16Array_of_buffer [x01; x02; x03; x04]) 24000).
  - unfold Int16Array_wf. cbn. lia.
  - reflexivity.
  - lia.
Defined.

(** C8: framing an empty sample sequence at 24000 Hz does not fail; it
    returns exactly the 44 header bytes, with data length 0 and chunk size
    36. *)
Theorem pcmToWav_empty (pcm16 : Int16Array) :
  ta_length pcm16 = 0%nat ->
  exists bytes,
    pcmToWav pcm16 24000 = Normal {| blob_bytes := bytes; blob_type := "audio/wav" |} /\
    bytes = [x52; x49; x46; x46; x24; x00; x00; x00; x57; x41; x56; x45;
             x66; x6d; x74; x20; x10; x00; x00; x00; x01; x00; x01; x00;
             xc0; x5d; x00; x00; x80; xbb; x00; x00; x02; x00; x10; x00;
             x64; x61; x74; x61; x00; x00; x00; x00] /\
    length bytes = 44%nat /\
    le_value (field 40 4 bytes) = 0 /\
    le_value (field 4 4 bytes) = 36.
Proof.
  intros Hlen.
  assert (HL : byteLength pcm16 = 0%nat) by (unfold byteLength; lia).
  eexists. split; [apply pcmToWav_spec; lia|].
  rewrite HL, take_0, app_nil_r.
  repeat split; reflexivity.
Qed.

Lemma pcmToWav_empty_witness :
  exists bytes,
    pcmToWav (Int16Array_of_buffer []) 24000 =
      Normal {| blob_bytes := bytes; blob_type := "audio/wav" |} /\
    bytes = [x52; x49; x46; x46; x24; x00; x00; x00; x57; x41; x56; x45;
             x66; x6d; x74; x20; x10; x00; x00; x00; x01; x00; x01; x00;
             xc0; x5d; x00; x00; x80; xbb; x00; x00; x02; x00; x10; x00;
             x64; x61; x74; x61; x00; x00; x00; x00] /\
    length bytes = 44%nat /\
    le_value (field 40 4 bytes) = 0 /\
    le_value (field 4 4 bytes) = 36.
Proof.
  apply (pcmToWav_empty (Int16Array_of_buffer [])). reflexivity.
Defined.

(** ** enc.js: the base64 helpers *)

(** Induction over a byte sequence three bytes at a time, as base64 reads it. *)
Lemma list_ind3 {A} (P : list A -> Prop) :
  P [] -> (forall a, P [a]) -> (forall a b, P [a; b]) ->
  (forall a b c rest, P rest -> P (a :: b :: c :: rest)) ->
  forall l, P l.
Proof.
  intros H0 H1 H2 H3.
  fix IH 1. intros [|a [|b [|c rest]]]; [apply H0 | apply H1 | apply H2 |].
  apply H3, IH.
Qed.

Lemma base64_index_char (s : Z) :
  0 <= s < 64 -> base64_index (base64_char s) = Some s.
Proof.
  intros H. rewrite <- (Z2Nat.id s) by lia.
  assert (Hn : (Z.to_nat s < 64)%nat) by lia.
  generalize dependent (Z.to_nat s). clear. intros n Hn.
  do 64 (destruct n as [|n]; [reflexivity|]). lia.
Qed.

Lemma base64_index_not_whitespace c s :
  base64_index c = Some s -> is_ascii_whitespace c = false /\ c <> 61.
Proof.
  intros H. split.
  - destruct (is_ascii_whitespace c) eqn:E; [|done]. exfalso.
    unfold is_ascii_whitespace in E.
    repeat (apply orb_prop in E as [E|E]);
      apply Z.eqb_eq in E; subst c; discriminate H.
  - intros ->. discriminate.
Qed.

Lemma base64_encode_split (bs : list byte) :
  base64_encode bs = (base64_char <$> base64_sextets bs) ++ base64_padding bs.
Proof.
  induction bs as [|a|a b|a b c rest IH] using list_ind3; try reflexivity.
  cbn [base64_encode base64_sextets base64_padding fmap list_fmap app].
  by rewrite IH.
Qed.

Lemma base64_sextets_range (bs : list byte) :
  Forall (fun s => 0 <= s < 64) (base64_sextets bs).
Proof.
  induction bs as [|a|a b|a b c rest IH] using list_ind3; cbn [base64_sextets].
  - constructor.
  - pose proof (byte_to_Z_range a).
    repeat constructor; Z.div_mod_to_equations; lia.
  - pose proof (byte_to_Z_range a). pose proof (byte_to_Z_range b).
    repeat constructor; Z.div_mod_to_equations; lia.
  - pose proof (byte_to_Z_range a). pose proof (byte_to_Z_range b).
    pose proof (byte_to_Z_range c).
    repeat (constructor; [Z.div_mod_to_equations; lia|]). exact IH.
Qed.

Lemma byte_of_Z_eq z b : z mod 256 = byte_to_Z b -> byte_of_Z z = b.
Proof. intros H. apply byte_to_Z_inj. by rewrite byte_to_of_Z. Qed.

Lemma decode_sextets_sextets (bs : list byte) :
  decode_sextets (base64_sextets bs) = bs.
Proof.
  induction bs as [|a|a b|a b c rest IH] using list_ind3;
    cbn [base64_sextets decode_sextets]; [done|..].
  - pose proof (byte_to_Z_range a). f_equal.
    apply byte_of_Z_eq. Z.div_mod_to_equations; lia.
  - pose proof (byte_to_Z_range a). pose proof (byte_to_Z_range b).
    f_equal; [|f_equal]; apply byte_of_Z_eq; Z.div_mod_to_equations; lia.
  - pose proof (byte_to_Z_range a). pose proof (byte_to_Z_range b).
    pose proof (byte_to_Z_range c). rewrite IH.
    f_equal; [|f_equal; [|f_equal]]; apply byte_of_Z_eq; Z.div_mod_to_equations; lia.
Qed.

Lemma mapM_base64_index_char (ss : list Z) :
  Forall (fun s => 0 <= s < 64) ss ->
  mapM base64_index (base64_char <$> ss) = Some ss.
Proof.
  induction 1 as [|s ss Hs _ IH]; [done|].
  cbn. rewrite base64_index_char by done. cbn. by rewrite IH.
Qed.

Lemma base64_chars_plain (ss : list Z) :
  Forall (fun s => 0 <= s < 64) ss ->
  Forall (fun c => is_ascii_whitespace c = false /\ c <> 61) (base64_char <$> ss).
Proof.
  intros H. apply Forall_fmap. eapply Forall_impl; [exact H|].
  intros s Hs. cbn. eapply base64_index_not_whitespace, base64_index_char, Hs.
Qed.

Lemma base64_padding_cases (bs : list byte) :
  base64_padding bs = [] \/ base64_padding bs = [61] \/ base64_padding bs = [61; 61].
Proof.
  induction bs as [|a|a b|a b c rest IH] using list_ind3; cbn; auto.
Qed.

Lemma base64_encode_length (bs : list byte) :
  ((length (base64_char <$> base64_sextets bs) + length (base64_padding bs)) mod 4 = 0)%nat /\
  (length (base64_char <$> base64_sextets bs) mod 4)%nat <> 1%nat.
Proof.
  rewrite length_fmap.
  induction bs as [|a|a b|a b c rest IH] using list_ind3; [by cbn..|].
  cbn [base64_sextets base64_padding length].
  destruct IH as [IH1 IH2]. split.
  - replace (S (S (S (S (length (base64_sextets rest))))) + length (base64_padding rest))%nat
      with ((length (base64_sextets rest) + length (base64_padding rest)) + 1 * 4)%nat by lia.
    by rewrite Nat.Div0.mod_add.
  - replace (S (S (S (S (length (base64_sextets rest))))))
      with (length (base64_sextets rest) + 1 * 4)%nat by lia.
    by rewrite Nat.Div0.mod_add.
Qed.

Lemma filter_whitespace_id (l : JSString) :
  Forall (fun c => is_ascii_whitespace c = false) l ->
  filter (fun c => is_ascii_whitespace c = false) l = l.
Proof.
  induction 1 as [|c l Hc _ IH]; [done|].
  rewrite filter_cons_True by done. by rewrite IH.
Qed.

(** Stripping the padding of an encoding leaves its characters. *)
Lemma strip_padding_app (l pad : JSString) :
  Forall (fun c => c <> 61) l ->
  pad = [] \/ pad = [61] \/ pad = [61; 61] ->
  strip_padding (l ++ pad) = l.
Proof.
  intros Hl Hpad. unfold strip_padding.
  assert (Hrev : match reverse l with
                 | 61 :: _ => False
                 | _ => True
                 end).
  { destruct (reverse l) as [|c r] eqn:E; [done|].
    assert (Hc : c ∈ l) by (apply elem_of_reverse; rewrite E; left).
    rewrite Forall_forall in Hl. specialize (Hl c Hc).
    destruct c as [|p|p]; try done.
    do 7 (destruct p as [p|p|]; try done). }
  destruct Hpad as [-> | [-> | ->]].
  - rewrite app_nil_r.
    destruct (reverse l) as [|c r]; [done|].
    destruct c as [|p|p]; try done.
    do 7 (destruct p as [p|p|]; try done).
  - rewrite reverse_app. change (reverse [61]) with [61]. cbn [app].
    destruct (reverse l) as [|c r] eqn:E.
    + apply (f_equal reverse) in E. rewrite reverse_involutive in E. by subst.
    + lazy beta iota.
      assert (Hl' : reverse (c :: r) = l) by (by rewrite <- E, reverse_involutive).
      destruct c as [|p|p]; try done.
      do 7 (destruct p as [p|p|]; try done).
  - rewrite reverse_app. change (reverse [61; 61]) with [61; 61]. cbn [app].
    lazy beta iota. apply reverse_involutive.
Qed.

Lemma forgiving_base64_decode_encode (bs : list byte) :
  forgiving_base64_decode (base64_encode bs) = Some bs.
Proof.
  unfold forgiving_base64_decode. rewrite base64_encode_split.
  pose proof (base64_chars_plain _ (base64_sextets_range bs)) as Hplain.
  pose proof (base64_encode_length bs) as [Hlen1 Hlen2].
  rewrite filter_whitespace_id.
  2:{ apply Forall_app. split.
      - eapply Forall_impl; [exact Hplain|]. by intros c [? _].
      - destruct (base64_padding_cases bs) as [-> | [-> | ->]]; repeat constructor. }
  rewrite length_app, Hlen1. cbn [Nat.eqb].
  rewrite strip_padding_app.
  2:{ eapply Forall_impl; [exact Hplain|]. by intros c [_ ?]. }
  2:{ apply base64_padding_cases. }
  destruct (length (base64_char <$> base64_sextets bs) mod 4 =? 1)%nat eqn:E.
  { apply Nat.eqb_eq in E. done. }
  rewrite mapM_base64_index_char by apply base64_sextets_range.
  cbn. by rewrite decode_sextets_sextets.
Qed.

Lemma String_fromCharCode_bytes (buf : list byte) :
  String_fromCharCode (byte_to_Z <$> buf) = byte_to_Z <$> buf.
Proof.
  unfold String_fromCharCode. rewrite <- list_fmap_compose.
  apply list_fmap_ext. intros _ b _. cbn.
  pose proof (byte_to_Z_range b). apply Z.mod_small. lia.
Qed.

(** [bufToBase64] never throws: every code unit it hands to [btoa] is a byte. *)
Lemma bufToBase64_spec (buf : list byte) :
  bufToBase64 buf = Normal (base64_encode buf).
Proof.
  unfold bufToBase64, btoa. rewrite String_fromCharCode_bytes.
  rewrite (proj2 (forallb_forall _ _)).
  - by rewrite fmap_byte_of_to_Z.
  - intros c Hc. apply list_elem_of_In, list_elem_of_fmap in Hc as [b [-> _]].
    pose proof (byte_to_Z_range b). apply andb_true_intro. split; lia.
Qed.

Lemma base64ToBuf_loop_spec (pre : list byte) (chars : JSString) :
  base64ToBuf_loop (pre ++ replicate (length chars) x00) (length pre) chars =
  pre ++ (byte_of_Z <$> chars).
Proof.
  revert pre. induction chars as [|c rest IH]; intros pre.
  - cbn. done.
  - cbn [base64ToBuf_loop length replicate fmap list_fmap].
    rewrite insert_app_r_alt by lia. rewrite Nat.sub_diag.
    change (<[0%nat:=byte_of_Z c]> (x00 :: replicate (length rest) x00))
      with (byte_of_Z c :: replicate (length rest) x00).
    replace (pre ++ byte_of_Z c :: replicate (length rest) x00)
      with ((pre ++ [byte_of_Z c]) ++ replicate (length rest) x00)
      by (by rewrite <- app_assoc).
    replace (S (length pre)) with (length (pre ++ [byte_of_Z c]))
      by (rewrite length_app; cbn; lia).
    rewrite IH. by rewrite <- app_assoc.
Qed.

Lemma base64ToBuf_spec (b64 : JSString) :
  base64ToBuf b64 =
  match forgiving_base64_decode b64 with
  | Some bs => Normal bs
  | None => Throw InvalidCharacterError
  end.
Proof.
  unfold base64ToBuf, atob.
  destruct (forgiving_base64_decode b64) as [bs|]; [|done].
  cbn [cbind]. f_equal.
  pose proof (base64ToBuf_loop_spec [] (byte_to_Z <$> bs)) as H.
  cbn [app length] in H. rewrite H. apply fmap_byte_of_to_Z.
Qed.


(** ** The text codec: UTF-8 round trip *)

(** Bit operations as arithmetic. *)
Lemma Z_land_mul_pow2_small (a b k : Z) :
  0 <= k -> 0 <= b < 2 ^ k -> Z.land (a * 2 ^ k) b = 0.
Proof.
  intros Hk Hb. apply Z.bits_inj'. intros n Hn.
  rewrite Z.land_spec, Z.bits_0.
  destruct (Z.lt_ge_cases n k) as [Hlt | Hge].
  - by rewrite Z.mul_pow2_bits_low.
  - rewrite <- (Z.mod_small b (2 ^ k)) by lia.
    rewrite Z.mod_pow2_bits_high by lia. apply andb_false_r.
Qed.

Lemma Z_lor_mul_pow2_small (a b k : Z) :
  0 <= k -> 0 <= b < 2 ^ k -> Z.lor (a * 2 ^ k) b = a * 2 ^ k + b.
Proof.
  intros Hk Hb.
  rewrite <- Z.lxor_lor by (by apply Z_land_mul_pow2_small).
  symmetry. by apply Z.add_nocarry_lxor, Z_land_mul_pow2_small.
Qed.

Lemma Z_land_63 x : Z.land x 0x3F = x mod 64.
Proof. change 0x3F with (Z.ones 6). by rewrite Z.land_ones. Qed.

Lemma Z_lor_128 y : 0 <= y < 64 -> Z.lor 0x80 y = 128 + y.
Proof.
  intros H. change 0x80 with (2 * 2 ^ 6).
  rewrite Z_lor_mul_pow2_small; lia.
Qed.

Lemma Z_lor_shiftl_6 x y : 0 <= y < 64 -> Z.lor (Z.shiftl x 6) y = x * 64 + y.
Proof.
  intros H. rewrite Z.shiftl_mul_pow2 by lia.
  rewrite Z_lor_mul_pow2_small; lia.
Qed.

(** Deciding the comparisons of a goal one at a time; a branch whose
    assumptions are contradictory is closed at once. *)
Ltac zbool_step :=
  match goal with
  | |- context [(?a <=? ?b)] => destruct (Z.leb_spec a b)
  | |- context [(?a <? ?b)] => destruct (Z.ltb_spec a b)
  | |- context [(?a =? ?b)] => destruct (Z.eqb_spec a b)
  end;
  try (exfalso; lia); cbn [andb orb negb].

Ltac zbool := repeat zbool_step.

Lemma cont_byte cp k :
  0 <= k ->
  Z.lor 0x80 (Z.land (Z.shiftr cp k) 0x3F) = 128 + (cp / 2 ^ k) mod 64.
Proof.
  intros Hk. rewrite Z.shiftr_div_pow2, Z_land_63 by done.
  apply Z_lor_128. apply Z.mod_pos_bound. lia.
Qed.

Lemma utf8_encode_1 cp : 0 <= cp <= 0x7F -> utf8_encode_code_point cp = [byte_of_Z cp].
Proof. intros H. unfold utf8_encode_code_point. by zbool. Qed.

Lemma utf8_encode_2 cp :
  0x80 <= cp <= 0x7FF ->
  utf8_encode_code_point cp =
  [byte_of_Z (cp / 64 + 192); byte_of_Z (128 + cp mod 64)].
Proof.
  intros H. unfold utf8_encode_code_point. zbool.
  cbn [utf8_continuation_bytes].
  change (6 * Z.of_nat 1) with 6. change (6 * Z.of_nat 0) with 0.
  rewrite !cont_byte by lia. rewrite Z.shiftr_div_pow2 by lia.
  change (2 ^ 6) with 64. change (2 ^ 0) with 1. by rewrite Z.div_1_r.
Qed.

Lemma utf8_encode_3 cp :
  0x800 <= cp <= 0xFFFF ->
  utf8_encode_code_point cp =
  [byte_of_Z (cp / 4096 + 224); byte_of_Z (128 + (cp / 64) mod 64);
   byte_of_Z (128 + cp mod 64)].
Proof.
  intros H. unfold utf8_encode_code_point. zbool.
  cbn [utf8_continuation_bytes].
  change (6 * Z.of_nat 2) with 12.
  change (6 * Z.of_nat 1) with 6. change (6 * Z.of_nat 0) with 0.
  rewrite !cont_byte by lia. rewrite Z.shiftr_div_pow2 by lia.
  change (2 ^ 12) with 4096.
  change (2 ^ 6) with 64. change (2 ^ 0) with 1. by rewrite Z.div_1_r.
Qed.

Lemma utf8_encode_4 cp :
  0x10000 <= cp <= 0x10FFFF ->
  utf8_encode_code_point cp =
  [byte_of_Z (cp / 262144 + 240); byte_of_Z (128 + (cp / 4096) mod 64);
   byte_of_Z (128 + (cp / 64) mod 64); byte_of_Z (128 + cp mod 64)].
Proof.
  intros H. unfold utf8_encode_code_point. zbool.
  cbn [utf8_continuation_bytes].
  change (6 * Z.of_nat 3) with 18. change (6 * Z.of_nat 2) with 12.
  change (6 * Z.of_nat 1) with 6. change (6 * Z.of_nat 0) with 0.
  rewrite !cont_byte by lia. rewrite Z.shiftr_div_pow2 by lia.
  change (2 ^ 18) with 262144. change (2 ^ 12) with 4096.
  change (2 ^ 6) with 64. change (2 ^ 0) with 1. by rewrite Z.div_1_r.
Qed.

(** One decoder step on a byte written as a number. *)
Lemma utf8_decode_from_cons st v rest :
  0 <= v < 256 ->
  utf8_decode_from st (byte_of_Z v :: rest) =
  (utf8_handler st v).1 ++ utf8_decode_from (utf8_handler st v).2 rest.
Proof.
  intros H. cbn [utf8_decode_from]. rewrite byte_to_of_Z_small by done.
  by destruct (utf8_handler st v).
Qed.

(** A continuation byte inside the awaited range shifts six bits in. *)
Lemma utf8_handler_continuation st x :
  utf8_bytes_needed st <> 0%nat ->
  0 <= x < 64 ->
  utf8_lower_boundary st <= 128 + x <= utf8_upper_boundary st ->
  utf8_handler st (128 + x) =
  if (S (utf8_bytes_seen st) =? utf8_bytes_needed st)%nat
  then ([utf8_code_point st * 64 + x], utf8_decoder_init)
  else ([], {| utf8_code_point := utf8_code_point st * 64 + x;
               utf8_bytes_seen := S (utf8_bytes_seen st);
               utf8_bytes_needed := utf8_bytes_needed st;
               utf8_lower_boundary := 0x80; utf8_upper_boundary := 0xBF |}).
Proof.
  intros Hn Hx Hb. unfold utf8_handler.
  destruct (utf8_bytes_needed st =? 0)%nat eqn:E; [apply Nat.eqb_eq in E; done|].
  zbool.
  rewrite Z_land_63, Z_lor_shiftl_6 by (apply Z.mod_pos_bound; lia).
  replace ((128 + x) mod 64) with x by (Z.div_mod_to_equations; lia).
  done.
Qed.

Lemma Z_land_ones_small x k : 0 <= k -> 0 <= x < 2 ^ k -> Z.land x (Z.ones k) = x.
Proof. intros Hk Hx. rewrite Z.land_ones by done. by apply Z.mod_small. Qed.

Lemma utf8_lead_1 cp :
  0 <= cp <= 0x7F -> utf8_lead cp = ([cp], utf8_decoder_init).
Proof.
  intros H. unfold utf8_lead.
  destruct (Z.leb_spec cp 0x7F); [done | lia].
Qed.

Lemma utf8_lead_2 cp :
  0x80 <= cp <= 0x7FF ->
  utf8_lead (cp / 64 + 192) =
  ([], {| utf8_code_point := cp / 64; utf8_bytes_seen := 0; utf8_bytes_needed := 1;
          utf8_lower_boundary := 0x80; utf8_upper_boundary := 0xBF |}).
Proof.
  intros H. unfold utf8_lead.
  assert (Hl : Z.land (cp / 64 + 192) 0x1F = cp / 64).
  { change 0x1F with (Z.ones 5). rewrite Z.land_ones by lia.
    change (2 ^ 5) with 32. Z.div_mod_to_equations; lia. }
  rewrite Hl.
  assert (Hq : 2 <= cp / 64 <= 31) by (Z.div_mod_to_equations; lia).
  generalize dependent (cp / 64). intros q _ Hq.
  zbool; reflexivity.
Qed.

Lemma utf8_lead_3 cp :
  0x800 <= cp <= 0xFFFF ->
  utf8_lead (cp / 4096 + 224) =
  ([], {| utf8_code_point := cp / 4096; utf8_bytes_seen := 0; utf8_bytes_needed := 2;
          utf8_lower_boundary := if cp <? 0x1000 then 0xA0 else 0x80;
          utf8_upper_boundary := if (0xD000 <=? cp) && (cp <=? 0xDFFF) then 0x9F else 0xBF |}).
Proof.
  intros H. unfold utf8_lead.
  assert (Hl : Z.land (cp / 4096 + 224) 0xF = cp / 4096).
  { change 0xF with (Z.ones 4). rewrite Z.land_ones by lia.
    change (2 ^ 4) with 16. Z.div_mod_to_equations; lia. }
  rewrite Hl.
  assert (Hq : 0 <= cp / 4096 <= 15 /\ (cp / 4096 = 0 <-> cp < 0x1000) /\
               (cp / 4096 = 13 <-> 0xD000 <= cp <= 0xDFFF))
    by (Z.div_mod_to_equations; lia).
  generalize dependent (cp / 4096). intros q _ Hq.
  zbool; reflexivity.
Qed.

Lemma utf8_lead_4 cp :
  0x10000 <= cp <= 0x10FFFF ->
  utf8_lead (cp / 262144 + 240) =
  ([], {| utf8_code_point := cp / 262144; utf8_bytes_seen := 0; utf8_bytes_needed := 3;
          utf8_lower_boundary := if cp <? 0x40000 then 0x90 else 0x80;
          utf8_upper_boundary := if 0x100000 <=? cp then 0x8F else 0xBF |}).
Proof.
  intros H. unfold utf8_lead.
  assert (Hl : Z.land (cp / 262144 + 240) 0x7 = cp / 262144).
  { change 0x7 with (Z.ones 3). rewrite Z.land_ones by lia.
    change (2 ^ 3) with 8. Z.div_mod_to_equations; lia. }
  rewrite Hl.
  assert (Hq : 0 <= cp / 262144 <= 4 /\ (cp / 262144 = 0 <-> cp < 0x40000) /\
               (cp / 262144 = 4 <-> 0x100000 <= cp))
    by (Z.div_mod_to_equations; lia).
  generalize dependent (cp / 262144). intros q _ Hq.
  zbool; reflexivity.
Qed.

(** Decoding the encoding of a scalar value emits it and leaves the decoder
    in its initial state. *)
Lemma utf8_decode_encode_code_point cp rest :
  is_scalar_value cp ->
  utf8_decode_from utf8_decoder_init (utf8_encode_code_point cp ++ rest) =
  cp :: utf8_decode_from utf8_decoder_init rest.
Proof.
  intros Hcp.
  assert (0 <= cp <= 0x7F \/ 0x80 <= cp <= 0x7FF \/
          (0x800 <= cp <= 0xFFFF /\ ~ (0xD800 <= cp <= 0xDFFF)) \/
          0x10000 <= cp <= 0x10FFFF) as [H | [H | [[H Hs] | H]]]
    by (unfold is_scalar_value in Hcp; lia).
  - rewrite utf8_encode_1 by done. cbn [app].
    rewrite utf8_decode_from_cons by lia.
    change (utf8_handler utf8_decoder_init cp) with (utf8_lead cp).
    by rewrite utf8_lead_1.
  - rewrite utf8_encode_2 by done. cbn [app].
    rewrite utf8_decode_from_cons by (Z.div_mod_to_equations; lia).
    change (utf8_handler utf8_decoder_init (cp / 64 + 192)) with (utf8_lead (cp / 64 + 192)).
    rewrite utf8_lead_2 by done. cbn [fst snd app].
    rewrite utf8_decode_from_cons by (Z.div_mod_to_equations; lia).
    rewrite utf8_handler_continuation;
      cbn [utf8_bytes_needed utf8_bytes_seen utf8_lower_boundary utf8_upper_boundary
           utf8_code_point Nat.eqb fst snd app];
      [|done|Z.div_mod_to_equations; lia..].
    f_equal. Z.div_mod_to_equations; lia.
  - rewrite utf8_encode_3 by done. cbn [app].
    rewrite utf8_decode_from_cons by (Z.div_mod_to_equations; lia).
    change (utf8_handler utf8_decoder_init (cp / 4096 + 224))
      with (utf8_lead (cp / 4096 + 224)).
    rewrite utf8_lead_3 by done. cbn [fst snd app].
    rewrite utf8_decode_from_cons by (Z.div_mod_to_equations; lia).
    rewrite utf8_handler_continuation;
      cbn [utf8_bytes_needed utf8_bytes_seen utf8_lower_boundary utf8_upper_boundary
           utf8_code_point Nat.eqb fst snd app];
      [|done|Z.div_mod_to_equations; lia|zbool; Z.div_mod_to_equations; lia].
    rewrite utf8_decode_from_cons by (Z.div_mod_to_equations; lia).
    rewrite utf8_handler_continuation;
      cbn [utf8_bytes_needed utf8_bytes_seen utf8_lower_boundary utf8_upper_boundary
           utf8_code_point Nat.eqb fst snd app];
      [|done|Z.div_mod_to_equations; lia..].
    f_equal. Z.div_mod_to_equations; lia.
  - rewrite utf8_encode_4 by done. cbn [app].
    rewrite utf8_decode_from_cons by (Z.div_mod_to_equations; lia).
    change (utf8_handler utf8_decoder_init (cp / 262144 + 240))
      with (utf8_lead (cp / 262144 + 240)).
    rewrite utf8_lead_4 by done. cbn [fst snd app].
    rewrite utf8_decode_from_cons by (Z.div_mod_to_equations; lia).
    rewrite utf8_handler_continuation;
      cbn [utf8_bytes_needed utf8_bytes_seen utf8_lower_boundary utf8_upper_boundary
           utf8_code_point Nat.eqb fst snd app];
      [|done|Z.div_mod_to_equations; lia|zbool; Z.div_mod_to_equations; lia].
    rewrite utf8_decode_from_cons by (Z.div_mod_to_equations; lia).
    rewrite utf8_handler_continuation;
      cbn [utf8_bytes_needed utf8_bytes_seen utf8_lower_boundary utf8_upper_boundary
           utf8_code_point Nat.eqb fst snd app];
      [|done|Z.div_mod_to_equations; lia..].
    rewrite utf8_decode_from_cons by (Z.div_mod_to_equations; lia).
    rewrite utf8_handler_continuation;
      cbn [utf8_bytes_needed utf8_bytes_seen utf8_lower_boundary utf8_upper_boundary
           utf8_code_point Nat.eqb fst snd app];
      [|done|Z.div_mod_to_equations; lia..].
    f_equal. Z.div_mod_to_equations; lia.
Qed.

Lemma utf8_decode_encode (cps : list Z) :
  Forall is_scalar_value cps ->
  utf8_decode_from utf8_decoder_init (concat (utf8_encode_code_point <$> cps)) = cps.
Proof.
  induction 1 as [|cp cps Hcp _ IH]; [done|].
  cbn [fmap list_fmap concat].
  rewrite utf8_decode_encode_code_point by done. by rewrite IH.
Qed.

Lemma strip_bom_cons cp r :
  strip_bom (cp :: r) = if decide (cp = 0xFEFF) then r else cp :: r.
Proof.
  destruct (decide (cp = 0xFEFF)) as [-> | Hne]; [done|].
  unfold strip_bom. destruct cp as [|p|p]; try reflexivity.
  do 16 (destruct p as [p|p|]; try reflexivity). done.
Qed.

Lemma surrogate_pair_value c d :
  is_lead_surrogate c = true -> is_trail_surrogate d = true ->
  0x10000 <= 0x10000 + (c - 0xD800) * 0x400 + (d - 0xDC00) <= 0x10FFFF /\
  utf16_code_units (0x10000 + (c - 0xD800) * 0x400 + (d - 0xDC00)) = [c; d].
Proof.
  unfold is_lead_surrogate, is_trail_surrogate. intros Hc Hd.
  apply andb_prop in Hc as [Hc1 Hc2]. apply andb_prop in Hd as [Hd1 Hd2].
  apply Z.leb_le in Hc1, Hc2, Hd1, Hd2.
  split; [lia|]. unfold utf16_code_units.
  destruct (Z.ltb_spec (0x10000 + (c - 0xD800) * 0x400 + (d - 0xDC00)) 0x10000); [lia|].
  rewrite Z.shiftr_div_pow2 by lia. change 0x3FF with (Z.ones 10).
  rewrite Z.land_ones by lia. change (2 ^ 10) with 1024.
  f_equal; [|f_equal]; Z.div_mod_to_equations; lia.
Qed.

(** A well-formed string is the UTF-16 form of its scalar values. *)
Lemma to_scalar_values_well_formed (n : nat) (s : JSString) :
  (length s <= n)%nat -> isWellFormed s = true ->
  Forall is_scalar_value (to_scalar_values s) /\
  concat (utf16_code_units <$> to_scalar_values s) = s.
Proof.
  revert s. induction n as [|n IH]; intros s Hn Hwf.
  { destruct s; [by split | cbn in Hn; lia]. }
  destruct s as [|c rest]; [by split|].
  cbn [isWellFormed to_scalar_values] in *.
  destruct (is_lead_surrogate c) eqn:Hlead.
  - destruct rest as [|d rest']; [done|].
    apply andb_prop in Hwf as [Hd Hwf]. rewrite Hd.
    destruct (IH rest') as [IH1 IH2]; [cbn in Hn; lia | done |].
    destruct (surrogate_pair_value c d Hlead Hd) as [Hr Hu].
    split.
    + constructor; [right; lia | done].
    + cbn [fmap list_fmap concat]. by rewrite Hu, IH2.
  - apply andb_prop in Hwf as [Hwf Hrest]. apply andb_prop in Hwf as [Hwf Hhi].
    apply andb_prop in Hwf as [Htrail Hlo].
    apply negb_true_iff in Htrail. rewrite Htrail.
    destruct (IH rest) as [IH1 IH2]; [cbn in Hn; lia | done |].
    apply Z.leb_le in Hlo, Hhi.
    unfold is_lead_surrogate in Hlead. unfold is_trail_surrogate in Htrail.
    split.
    + constructor; [|done]. unfold is_scalar_value.
      apply andb_false_iff in Hlead. apply andb_false_iff in Htrail.
      rewrite !Z.leb_gt in Hlead, Htrail. lia.
    + cbn [fmap list_fmap concat]. rewrite IH2. unfold utf16_code_units.
      destruct (Z.ltb_spec c 0x10000); [done | lia].
Qed.

(** The text codec's round trip on well-formed strings: the string comes
    back, without its first code unit when that is U+FEFF. *)
Lemma TextDecoder_TextEncoder (s : JSString) :
  isWellFormed s = true ->
  TextDecoder_decode (TextEncoder_encode s) =
  match s with
  | c :: rest => if decide (c = 0xFEFF) then rest else s
  | [] => []
  end.
Proof.
  intros Hwf. unfold TextDecoder_decode, TextEncoder_encode.
  destruct (to_scalar_values_well_formed (length s) s) as [Hsv Hu]; [done..|].
  rewrite utf8_decode_encode by done.
  destruct s as [|c rest]; [done|].
  cbn [isWellFormed to_scalar_values] in *.
  destruct (is_lead_surrogate c) eqn:Hlead.
  - destruct rest as [|d rest']; [done|].
    apply andb_prop in Hwf as [Hd Hwf]. rewrite Hd in *.
    destruct (surrogate_pair_value c d Hlead Hd) as [Hr _].
    rewrite strip_bom_cons.
    rewrite decide_False by lia. rewrite Hu.
    rewrite decide_False; [done|].
    intros ->. discriminate.
  - apply andb_prop in Hwf as [Hwf Hrest]. apply andb_prop in Hwf as [Hwf Hhi].
    apply andb_prop in Hwf as [Htrail Hlo].
    apply negb_true_iff in Htrail. rewrite Htrail in *.
    rewrite strip_bom_cons.
    destruct (decide (c = 0xFEFF)) as [-> | Hne]; [|done].
    cbn [fmap list_fmap concat] in Hu.
    change (utf16_code_units 0xFEFF) with [0xFEFF] in Hu.
    cbn [app] in Hu. by injection Hu.
Qed.

(** ** The cipher primitives: lengths and the GCM round trip *)

Lemma Z_lxor_byte a b :
  0 <= a < 2 ^ 8 -> 0 <= b < 2 ^ 8 -> Z.lxor a b mod 2 ^ 8 = Z.lxor a b.
Proof.
  intros Ha Hb. apply Z.bits_inj'. intros n Hn.
  destruct (Z.lt_ge_cases n 8) as [Hlt | Hge].
  - by rewrite Z.mod_pow2_bits_low.
  - rewrite Z.mod_pow2_bits_high by lia. rewrite Z.lxor_spec.
    rewrite <- (Z.mod_small a (2 ^ 8)), <- (Z.mod_small b (2 ^ 8)) by lia.
    by rewrite !Z.mod_pow2_bits_high by lia.
Qed.

Lemma byte_to_Z_xor a b :
  byte_to_Z (byte_xor a b) = Z.lxor (byte_to_Z a) (byte_to_Z b).
Proof.
  unfold byte_xor. rewrite byte_to_of_Z.
  apply (Z_lxor_byte _ _ (byte_to_Z_range a) (byte_to_Z_range b)).
Qed.

Lemma byte_xor_involutive a k : byte_xor (byte_xor a k) k = a.
Proof.
  apply byte_to_Z_inj. rewrite !byte_to_Z_xor.
  by rewrite Z.lxor_assoc, Z.lxor_nilpotent, Z.lxor_0_r.
Qed.

Lemma xor_bytes_length (a b : list byte) :
  length (xor_bytes a b) = (length a `min` length b)%nat.
Proof. apply length_zip_with. Qed.

Lemma xor_bytes_involutive (X ks : list byte) :
  (length X <= length ks)%nat -> xor_bytes (xor_bytes X ks) ks = X.
Proof.
  revert ks. induction X as [|x X IH]; intros [|k ks] Hlen; cbn in *; try done; [lia|].
  rewrite byte_xor_involutive, IH; [done | lia].
Qed.

Lemma uint_bytes_length n v e : length (uint_bytes n v e) = n.
Proof.
  unfold uint_bytes. destruct e.
  - by rewrite length_fmap, length_seq.
  - by rewrite length_reverse, length_fmap, length_seq.
Qed.

Lemma AES_encrypt_block_length key block :
  length (AES.encrypt_block key block) = 16%nat.
Proof. unfold AES.encrypt_block. by rewrite length_fmap, length_seq. Qed.

Lemma concat_blocks_length {A} (f : A -> list byte) (l : list A) (n : nat) :
  (forall x, length (f x) = n) -> length (concat (f <$> l)) = (n * length l)%nat.
Proof.
  intros Hf. induction l as [|x l IH]; cbn; [lia|].
  rewrite length_app, Hf, IH. lia.
Qed.

Lemma keystream_length key icb n : length (GCM.keystream key icb n) = n.
Proof.
  unfold GCM.keystream. rewrite length_take.
  rewrite (concat_blocks_length _ _ 16) by (intros; apply AES_encrypt_block_length).
  rewrite length_seq.
  pose proof (Nat.div_mod_eq (n + 15) 16).
  pose proof (Nat.mod_upper_bound (n + 15) 16). lia.
Qed.

Lemma gctr_length key icb X : length (GCM.gctr key icb X) = length X.
Proof.
  unfold GCM.gctr. rewrite xor_bytes_length, keystream_length. lia.
Qed.

(** GCTR is its own inverse. *)
Lemma gctr_involutive key icb X : GCM.gctr key icb (GCM.gctr key icb X) = X.
Proof.
  unfold GCM.gctr at 1. rewrite gctr_length. unfold GCM.gctr.
  apply xor_bytes_involutive. rewrite keystream_length. lia.
Qed.

Lemma tag_length key iv C : length (GCM.tag key iv C) = 16%nat.
Proof.
  unfold GCM.tag. cbv zeta. rewrite gctr_length. apply uint_bytes_length.
Qed.

Lemma GCM_decrypt_encrypt key iv P :
  GCM.decrypt key iv (GCM.encrypt key iv P).1 (GCM.encrypt key iv P).2 = Some P.
Proof.
  unfold GCM.encrypt, GCM.decrypt. cbn [fst snd].
  rewrite decide_True by done. by rewrite gctr_involutive.
Qed.

(** What [decrypt] does on the ciphertext-and-tag of a buffer. *)
Lemma subtle_decrypt_AES_GCM_app iv key C T rs :
  length T = 16%nat ->
  subtle_decrypt_AES_GCM iv key (C ++ T) rs =
  match GCM.decrypt key iv C T with
  | Some P => (Normal P, rs)
  | None => (Throw OperationError, rs)
  end.
Proof.
  intros HT. unfold subtle_decrypt_AES_GCM.
  rewrite decide_False by (rewrite length_app; lia).
  replace (length (C ++ T) - 16)%nat with (length C) by (rewrite length_app; lia).
  rewrite take_app_length, drop_app_length.
  by destruct (GCM.decrypt key iv C T).
Qed.

Lemma subtle_encrypt_AES_GCM_spec iv key P rs :
  subtle_encrypt_AES_GCM iv key P rs =
  (Normal ((GCM.encrypt key iv P).1 ++ (GCM.encrypt key iv P).2), rs).
Proof. reflexivity. Qed.

Lemma subtle_decrypt_short iv key data rs :
  (length data < 16)%nat ->
  subtle_decrypt_AES_GCM iv key data rs = (Throw OperationError, rs).
Proof.
  intros H. unfold subtle_decrypt_AES_GCM. by rewrite decide_True.
Qed.

(** The key block of HMAC determines HMAC, and so the PBKDF2 output. *)
Lemma hmac_sha256_key_block k1 k2 msg :
  hmac_key_block k1 = hmac_key_block k2 -> hmac_sha256 k1 msg = hmac_sha256 k2 msg.
Proof. intros H. unfold hmac_sha256. by rewrite H. Qed.

Lemma N_iter_ext {A} (f g : A -> A) (n : N) (x : A) :
  (forall y, f y = g y) -> N.iter n f x = N.iter n g x.
Proof.
  intros Hfg. induction n as [|n IH] using N.peano_ind; [done|].
  by rewrite !N.iter_succ, IH, Hfg.
Qed.

Lemma pbkdf2_key_block P1 P2 salt c dkLen :
  hmac_key_block P1 = hmac_key_block P2 ->
  pbkdf2_hmac_sha256 P1 salt c dkLen = pbkdf2_hmac_sha256 P2 salt c dkLen.
Proof.
  intros H. unfold pbkdf2_hmac_sha256. do 2 f_equal.
  apply list_fmap_ext. intros _ i _. unfold pbkdf2_F.
  rewrite (hmac_sha256_key_block P1 P2) by done. f_equal.
  apply N_iter_ext. intros [u t]. unfold pbkdf2_step.
  by rewrite (hmac_sha256_key_block P1 P2).
Qed.

Lemma byte_xor_1_ne b : byte_xor b x01 <> b.
Proof.
  intros H. apply (f_equal byte_to_Z) in H. rewrite byte_to_Z_xor in H.
  apply (f_equal (Z.lxor (byte_to_Z b))) in H.
  rewrite <- Z.lxor_assoc, Z.lxor_nilpotent, Z.lxor_0_l in H. discriminate H.
Qed.

(** A failed tag comparison is an OperationError. *)
Lemma subtle_decrypt_tag_mismatch iv key data rs :
  GCM.tag key iv (take (length data - 16) data) <> drop (length data - 16) data ->
  subtle_decrypt_AES_GCM iv key data rs = (Throw OperationError, rs).
Proof.
  intros H. unfold subtle_decrypt_AES_GCM.
  destruct (decide (length data < 16)%nat); [done|].
  cbv zeta. unfold GCM.decrypt. by rewrite decide_False.
Qed.

(** ** enc.js: the credential cipher *)

(** The derived key and the block cipher are never unfolded below. *)
Opaque pbkdf2_hmac_sha256 AES.encrypt_block.

Lemma abind_Normal {A B} (m : Async A) (k : A -> Async B) rs a rs' :
  m rs = (Normal a, rs') -> abind m k rs = k a rs'.
Proof. unfold abind. by intros ->. Qed.

Lemma abind_Throw {A B} (m : Async A) (k : A -> Async B) rs e rs' :
  m rs = (Throw e, rs') -> abind m k rs = (Throw e, rs').
Proof. unfold abind. by intros ->. Qed.

Lemma getRandomValues_spec n rs :
  Z.of_nat n <= 65536 ->
  getRandomValues n rs = (Normal (rs <$> seq 0 n), fun i => rs (n + i)%nat).
Proof. intros H. unfold getRandomValues. by rewrite decide_True. Qed.

Lemma total_length_acc (acc : nat) (bs : list (list byte)) :
  foldl (fun sum b => (sum + length b)%nat) acc bs =
  (acc + foldl (fun sum b => (sum + length b)%nat) 0%nat bs)%nat.
Proof.
  revert acc. induction bs as [|b bs IH]; intros acc; cbn [foldl]; [lia|].
  rewrite (IH (acc + length b)%nat), (IH (0 + length b)%nat). lia.
Qed.

Lemma concatBuffers_loop_spec (pre : list byte) (bs : list (list byte)) :
  concatBuffers_loop
    (pre ++ replicate (foldl (fun sum b => (sum + length b)%nat) 0%nat bs) x00)
    (length pre) bs =
  Normal (pre ++ concat bs).
Proof.
  revert pre. induction bs as [|b bs IH]; intros pre.
  - cbn. by rewrite !app_nil_r.
  - cbn [concatBuffers_loop foldl concat]. rewrite total_length_acc.
    cbn [Nat.add]. rewrite replicate_add.
    unfold set_view_value.
    rewrite decide_True by (rewrite !length_app, !length_replicate; lia).
    cbn [cbind].
    rewrite take_app_length.
    rewrite (drop_app_add' _ _ _ (length b)) by lia.
    rewrite drop_app_length' by (by rewrite length_replicate).
    replace (pre ++ b ++ replicate (foldl (fun sum b0 => (sum + length b0)%nat) 0%nat bs) x00)
      with ((pre ++ b) ++ replicate (foldl (fun sum b0 => (sum + length b0)%nat) 0%nat bs) x00)
      by (by rewrite <- app_assoc).
    replace (length pre + length b)%nat with (length (pre ++ b)) by (by rewrite length_app).
    rewrite IH. by rewrite <- app_assoc.
Qed.

(** [concatBuffers] never throws and returns the buffers one after another. *)
Lemma concatBuffers_spec (bs : list (list byte)) :
  concatBuffers bs = Normal (concat bs).
Proof.
  unfold concatBuffers. apply (concatBuffers_loop_spec [] bs).
Qed.

Lemma deriveKey_spec password salt rs :
  deriveKey password salt rs = (Normal (derived_key password salt), rs).
Proof.
  unfold deriveKey, subtle_importKey_raw, subtle_deriveKey_PBKDF2_SHA256, derived_key.
  unfold abind, aret. rewrite decide_False by done.
  change (256 / 8)%nat with 32%nat. reflexivity.
Qed.

Lemma drawn_salt_length rs : length (drawn_salt rs) = 16%nat.
Proof. unfold drawn_salt. by rewrite length_fmap, length_seq. Qed.

Lemma drawn_iv_length rs : length (drawn_iv rs) = 12%nat.
Proof. unfold drawn_iv. by rewrite length_fmap, length_seq. Qed.

(** [encryptApiKey] always fulfils, with the base64 text of salt, IV,
    ciphertext and tag, in this order. *)
Lemma encryptApiKey_spec apiKey password rs :
  encryptApiKey apiKey password rs =
  (Normal (base64_encode (sealed_bytes apiKey password rs)), source_after_draws rs).
Proof.
  unfold encryptApiKey.
  rewrite (abind_Normal _ _ _ _ _ (getRandomValues_spec saltLen rs ltac:(done))).
  rewrite (abind_Normal _ _ _ _ _ (getRandomValues_spec ivLen _ ltac:(done))).
  rewrite (abind_Normal _ _ _ _ _ (deriveKey_spec _ _ _)).
  rewrite (abind_Normal _ _ _ _ _ (subtle_encrypt_AES_GCM_spec _ _ _ _)).
  unfold lift. rewrite concatBuffers_spec. unfold abind.
  rewrite bufToBase64_spec. cbn [concat]. rewrite app_nil_r.
  unfold sealed_bytes. reflexivity.
Qed.

(** [decryptApiKey] step by step: the base64 decoding, the positional split
    and the authenticated decryption. *)
Lemma decryptApiKey_spec blob password rs :
  decryptApiKey blob password rs =
  match forgiving_base64_decode blob with
  | None => (Throw InvalidCharacterError, rs)
  | Some d =>
      match subtle_decrypt_AES_GCM (take 12 (drop 16 d))
              (derived_key password (take 16 d)) (drop 28 d) rs with
      | (Normal plainBuf, rs') => (Normal (TextDecoder_decode plainBuf), rs')
      | (Throw e, rs') => (Throw e, rs')
      end
  end.
Proof.
  unfold decryptApiKey, lift. rewrite base64ToBuf_spec.
  destruct (forgiving_base64_decode blob) as [d|]; [|done].
  unfold abind at 1. cbv zeta.
  rewrite (abind_Normal _ _ _ _ _ (deriveKey_spec _ _ _)).
  unfold slice, slice_from, saltLen, ivLen. cbn [Nat.sub Nat.add]. rewrite drop_0.
  unfold abind, aret.
  by destruct (subtle_decrypt_AES_GCM _ _ _ rs) as [[plainBuf | e] rs'].
Qed.

(** Decrypting the base64 text of salt, IV, ciphertext and tag. *)
Lemma decryptApiKey_sealed salt iv C T password rs :
  length salt = 16%nat -> length iv = 12%nat -> length T = 16%nat ->
  decryptApiKey (base64_encode (salt ++ iv ++ C ++ T)) password rs =
  match GCM.decrypt (derived_key password salt) iv C T with
  | Some P => (Normal (TextDecoder_decode P), rs)
  | None => (Throw OperationError, rs)
  end.
Proof.
  intros Hs Hi HT. rewrite decryptApiKey_spec, forgiving_base64_decode_encode.
  rewrite take_app_length' by done.
  rewrite (drop_app_length' salt) by done.
  rewrite take_app_length' by done.
  replace (drop 28 (salt ++ iv ++ C ++ T)) with (C ++ T).
  2:{ change 28%nat with (16 + 12)%nat.
      rewrite (drop_app_add' salt _ 16 12) by done. by rewrite drop_app_length'. }
  rewrite subtle_decrypt_AES_GCM_app by done.
  by destruct (GCM.decrypt _ _ _ _).
Qed.

(** Encrypting under one password and decrypting under a password that
    derives the same key returns the text codec's image of the plaintext. *)
Lemma decryptApiKey_encryptApiKey_same_key apiKey p1 p2 rs rs2 :
  derived_key p1 (drawn_salt rs) = derived_key p2 (drawn_salt rs) ->
  decryptApiKey (base64_encode (sealed_bytes apiKey p1 rs)) p2 rs2 =
  (Normal (TextDecoder_decode (TextEncoder_encode apiKey)), rs2).
Proof.
  intros Hkey. unfold sealed_bytes. cbv zeta.
  rewrite decryptApiKey_sealed
    by (apply drawn_salt_length || apply drawn_iv_length || apply tag_length).
  rewrite <- Hkey. by rewrite GCM_decrypt_encrypt.
Qed.




Lemma sealed_bytes_length apiKey password rs :
  length (sealed_bytes apiKey password rs) =
  (28 + length (TextEncoder_encode apiKey) + 16)%nat.
Proof.
  unfold sealed_bytes, GCM.encrypt. cbn [fst snd].
  rewrite !length_app, drawn_salt_length, drawn_iv_length, gctr_length, tag_length. lia.
Qed.

(** Replacing a byte of the tag of a sealed blob makes the integrity check
    fail: the recomputed tag is the original one. *)
Lemma tag_modified_fails d password :
  tag_modified d password -> integrity_check_fails d password.
Proof.
  intros (apiKey & rs & i & b & Hi & Hb & ->).
  pose proof (sealed_bytes_length apiKey password rs) as Hlen.
  unfold integrity_check_fails, sealed_bytes in *. cbv zeta in *.
  set (salt := drawn_salt rs) in *. set (iv := drawn_iv rs) in *.
  set (ct := GCM.encrypt (derived_key password salt) iv (TextEncoder_encode apiKey)) in *.
  assert (Hs : length salt = 16%nat) by apply drawn_salt_length.
  assert (Hv : length iv = 12%nat) by apply drawn_iv_length.
  assert (HC : length ct.1 = length (TextEncoder_encode apiKey))
    by apply gctr_length.
  assert (HT : length ct.2 = 16%nat) by apply tag_length.
  replace (salt ++ iv ++ ct.1 ++ ct.2) with ((salt ++ iv ++ ct.1) ++ ct.2) in *
    by (by rewrite <- !app_assoc).
  assert (Hpre : length (salt ++ iv ++ ct.1) = (28 + length ct.1)%nat)
    by (rewrite !length_app; lia).
  rewrite insert_app_r_alt by lia.
  rewrite lookup_app_r in Hb by lia.
  set (j := (i - length (salt ++ iv ++ ct.1))%nat) in *.
  rewrite <- !app_assoc. unfold saltLen, ivLen.
  rewrite take_app_length' by done.
  rewrite (drop_app_length' salt) by done.
  rewrite take_app_length' by done.
  replace (drop (16 + 12) (salt ++ iv ++ ct.1 ++ <[j:=b]> ct.2))
    with (ct.1 ++ <[j:=b]> ct.2).
  2:{ rewrite (drop_app_add' salt _ 16 12) by done. by rewrite drop_app_length'. }
  replace (length (ct.1 ++ <[j:=b]> ct.2) - 16)%nat with (length ct.1)
    by (rewrite length_app, length_insert; lia).
  rewrite take_app_length, drop_app_length.
  change (GCM.tag (derived_key password salt) iv ct.1) with ct.2.
  intros Heq. apply Hb. rewrite Heq at 1.
  apply list_lookup_insert_eq. lia.
Qed.

Lemma tampered_example_modified : tag_modified tampered_example (js "Encc1234").
Proof.
  exists (js "sk-test-123"), (constant_source x00), 54%nat,
    (byte_xor (default x00 (sealed_example !! 54%nat)) x01).
  cbv zeta. fold sealed_example.
  assert (Hlen : length sealed_example = 55%nat) by apply sealed_bytes_length.
  split; [lia|]. split; [|done].
  destruct (sealed_example !! 54%nat) as [t|] eqn:E.
  - cbn [default]. intros [= H]. symmetry in H. by apply byte_xor_1_ne in H.
  - apply lookup_ge_None in E. lia.
Qed.

(** C2, as stated, fails: for a blob that decodes to fewer than 28 bytes
    the error is the cipher's OperationError, the very error of a failed
    integrity check (here: of a sealed blob with a modified tag), so it is
    not a distinguishable error of its own. *)
Lemma short_blob_error_is_cipher_error :
  decryptApiKey (js "") (js "Encc1234") (constant_source x00) =
    (Throw OperationError, constant_source x00) /\
  decryptApiKey (js "AAAAAAAAAAAAAA==") (js "Encc1234") (constant_source x00) =
    (Throw OperationError, constant_source x00) /\
  base64ToBuf (js "AAAAAAAAAAAAAA==") = Normal (replicate 10 x00) /\
  tag_modified tampered_example (js "Encc1234") /\
  decryptApiKey (base64_encode tampered_example) (js "Encc1234") (constant_source x00) =
    (Throw OperationError, constant_source x00).
Proof.
  split; [|split; [|split; [|split; [apply tampered_example_modified|]]]].
  - rewrite decryptApiKey_spec.
    change (forgiving_base64_decode (js "")) with (Some (@nil byte)).
    cbv beta iota. by rewrite subtle_decrypt_short by (cbn; lia).
  - rewrite decryptApiKey_spec.
    change (forgiving_base64_decode (js "AAAAAAAAAAAAAA==")) with (Some (replicate 10 x00)).
    cbv beta iota. by rewrite subtle_decrypt_short by (cbn; lia).
  - reflexivity.
  - rewrite decryptApiKey_spec, forgiving_base64_decode_encode.
    pose proof (tag_modified_fails _ _ tampered_example_modified) as Htamper.
    unfold integrity_check_fails in Htamper. cbv zeta in Htamper.
    by rewrite subtle_decrypt_tag_mismatch.
Qed.

(** C2 (amended): for every password and every blob, [decryptApiKey] fails
    whenever the base64 decoding of the blob fails, with the
    InvalidCharacterError of [atob], or the decoded length is below 28, with
    the cipher's OperationError; it never fulfils on such a blob. *)
Theorem decrypt_rejects_malformed (password blob : JSString) (rs : RandomSource) :
  malformed_blob blob ->
  (base64ToBuf blob = Throw InvalidCharacterError /\
   decryptApiKey blob password rs = (Throw InvalidCharacterError, rs)) \/
  ((exists d, base64ToBuf blob = Normal d /\ (length d < 28)%nat) /\
   decryptApiKey blob password rs = (Throw OperationError, rs)).
Proof.
  unfold malformed_blob. rewrite decryptApiKey_spec, base64ToBuf_spec.
  destruct (forgiving_base64_decode blob) as [d|]; [|by left].
  unfold saltLen, ivLen. cbn [Nat.add]. intros Hd. right. split; [by exists d|].
  rewrite subtle_decrypt_short; [done|].
  rewrite length_drop. lia.
Qed.

Lemma decrypt_rejects_malformed_witness :
  (base64ToBuf (js "") = Throw InvalidCharacterError /\
   decryptApiKey (js "") (js "Encc1234") (constant_source x00) =
     (Throw InvalidCharacterError, constant_source x00)) \/
  ((exists d, base64ToBuf (js "") = Normal d /\ (length d < 28)%nat) /\
   decryptApiKey (js "") (js "Encc1234") (constant_source x00) =
     (Throw OperationError, constant_source x00)).
Proof.
  apply (decrypt_rejects_malformed (js "Encc1234") (js "") (constant_source x00)).
  unfold malformed_blob. cbn. lia.
Defined.











(* ================================================================== *)
(** * Part III: further properties of the code                         *)
(* ================================================================== *)

(** ** enc.js: the codec helpers *)

(** [concatBuffers] never throws: whatever the buffers, the result is
    their concatenation, of the summed length. *)
Theorem concatBuffers_concat (buffers : list (list byte)) :
  concatBuffers buffers = Normal (concat buffers) /\
  length (concat buffers) = foldr (fun b sum => (length b + sum)%nat) 0%nat buffers.
Proof.
  split; [apply concatBuffers_spec|].
  induction buffers as [|b bs IH]; [done|].
  cbn [concat foldr]. by rewrite length_app, IH.
Qed.

Lemma base64_encode_length_exact (bs : list byte) :
  length (base64_encode bs) = (4 * ((length bs + 2) / 3))%nat.
Proof.
  induction bs as [|a|a b|a b c rest IH] using list_ind3; [done..|].
  cbn [base64_encode length]. rewrite IH.
  replace (S (S (S (length rest))) + 2)%nat with (length rest + 2 + 1 * 3)%nat by lia.
  rewrite Nat.div_add by done. lia.
Qed.

(** [bufToBase64] never throws; its text has four characters for every
    three bytes started, all of them from the base64 alphabet or the
    padding character. *)
Theorem bufToBase64_shape (buf : list byte) :
  exists text,
    bufToBase64 buf = Normal text /\
    length text = (4 * ((length buf + 2) / 3))%nat /\
    Forall (fun c => c = 61 \/ is_Some (base64_index c)) text.
Proof.
  exists (base64_encode buf).
  split; [apply bufToBase64_spec|]. split; [apply base64_encode_length_exact|].
  rewrite base64_encode_split. apply Forall_app. split.
  - apply Forall_fmap. eapply Forall_impl; [apply base64_sextets_range|].
    intros s Hs. cbn. right. rewrite base64_index_char by done. by eexists.
  - destruct (base64_padding_cases buf) as [-> | [-> | ->]]; repeat constructor.
Qed.

Lemma filter_whitespace_idemp (s : list Z) :
  filter (fun c => is_ascii_whitespace c = false)
         (filter (fun c => is_ascii_whitespace c = false) s) =
  filter (fun c => is_ascii_whitespace c = false) s.
Proof.
  apply filter_whitespace_id. apply Forall_forall. intros c Hc.
  by apply list_elem_of_filter in Hc as [Hc _].
Qed.

(** [base64ToBuf] ignores ASCII whitespace (tab, line feed, form feed,
    carriage return, space) anywhere in its input: a text and the text
    without its whitespace decode alike, or fail alike. *)
Theorem base64ToBuf_ignores_whitespace (b64 : JSString) :
  base64ToBuf b64 = base64ToBuf (filter (fun c => is_ascii_whitespace c = false) b64).
Proof.
  rewrite !base64ToBuf_spec. unfold forgiving_base64_decode.
  by rewrite filter_whitespace_idemp.
Qed.

Lemma list_ind4 {A} (P : list A -> Prop) :
  P [] -> (forall a, P [a]) -> (forall a b, P [a; b]) -> (forall a b c, P [a; b; c]) ->
  (forall a b c d rest, P rest -> P (a :: b :: c :: d :: rest)) ->
  forall l, P l.
Proof.
  intros H0 H1 H2 H3 H4.
  fix IH 1. intros [|a [|b [|c [|d rest]]]];
    [apply H0 | apply H1 | apply H2 | apply H3 |]. apply H4, IH.
Qed.

Lemma decode_sextets_length (ss : list Z) :
  length (decode_sextets ss) = (3 * length ss / 4)%nat.
Proof.
  induction ss as [|a|a b|a b c|a b c d rest IH] using list_ind4; [done..|].
  cbn [decode_sextets length]. rewrite IH.
  replace (3 * S (S (S (S (length rest)))))%nat with (3 * length rest + 3 * 4)%nat by lia.
  rewrite Nat.div_add by done. lia.
Qed.

Lemma strip_padding_elem (data : list Z) (c : Z) :
  c ∈ data -> c ∈ strip_padding data \/ c = 61.
Proof.
  intros Hc. unfold strip_padding.
  destruct (reverse data) as [|x r] eqn:E; [by left|].
  assert (Hdata : data = reverse r ++ [x]).
  { apply (f_equal reverse) in E. rewrite reverse_involutive in E.
    by rewrite E, reverse_cons. }
  destruct (decide (x = 61)) as [-> | Hx].
  - assert (Hc' : c ∈ reverse r \/ c = 61).
    { rewrite Hdata in Hc. apply elem_of_app in Hc as [Hc | Hc]; [by left|].
      apply list_elem_of_singleton in Hc. by right. }
    destruct Hc' as [Hc' | ->]; [|by right].
    destruct r as [|y r']; [by apply elem_of_nil in Hc'|].
    destruct (decide (y = 61)) as [-> | Hy].
    + rewrite reverse_cons in Hc'. apply elem_of_app in Hc' as [Hc' | Hc'].
      * by left.
      * apply list_elem_of_singleton in Hc'. by right.
    + left. destruct y as [|p|p]; try done.
      do 7 (destruct p as [p|p|]; try done).
  - left. destruct x as [|p|p]; try done.
    do 7 (destruct p as [p|p|]; try done).
Qed.

(** When [base64ToBuf] succeeds, the text holds nothing but base64
    characters, ASCII whitespace and the padding character, and the buffer
    has three bytes for every four base64 characters (rounded down). *)
Theorem base64ToBuf_accepts_only_base64 (b64 : JSString) (buf : list byte) :
  base64ToBuf b64 = Normal buf ->
  Forall (fun c => is_ascii_whitespace c = true \/ c = 61 \/ is_Some (base64_index c)) b64 /\
  length buf = (3 * length (filter (fun c => is_Some (base64_index c)) b64) / 4)%nat.
Proof.
  rewrite base64ToBuf_spec. unfold forgiving_base64_decode.
  set (data := filter (fun c => is_ascii_whitespace c = false) b64).
  set (data' := if (length data mod 4 =? 0)%nat then strip_padding data else data).
  cbv zeta. destruct (length data' mod 4 =? 1)%nat; [done|].
  destruct (mapM base64_index data') as [ss|] eqn:Hm; [|done].
  cbn [fmap option_fmap option_map]. intros [= <-].
  apply mapM_Some in Hm.
  assert (Hdata' : Forall (fun c => is_Some (base64_index c)) data').
  { apply Forall_forall. intros c Hc.
    apply list_elem_of_lookup in Hc as [i Hi].
    destruct (Forall2_lookup_l _ _ _ _ _ Hm Hi) as (s & _ & Hs). by eexists. }
  assert (Hdata : Forall (fun c => c = 61 \/ is_Some (base64_index c)) data).
  { apply Forall_forall. intros c Hc. subst data'.
    destruct (length data mod 4 =? 0)%nat.
    - destruct (strip_padding_elem _ _ Hc) as [Hc' | ->]; [|by left].
      right. by apply (proj1 (Forall_forall _ _) Hdata').
    - right. by apply (proj1 (Forall_forall _ _) Hdata'). }
  split.
  - apply Forall_forall. intros c Hc.
    destruct (is_ascii_whitespace c) eqn:Hws; [by left|]. right.
    apply (proj1 (Forall_forall _ _) Hdata). by apply list_elem_of_filter.
  - rewrite decode_sextets_length. do 2 f_equal.
    rewrite <- (Forall2_length _ _ _ Hm).
    (* the base64 characters of the text are those of [data'] *)
    assert (Hfilter : filter (fun c => is_Some (base64_index c)) b64 =
                      filter (fun c => is_Some (base64_index c)) data).
    { subst data. clear. induction b64 as [|c rest IH]; [done|].
      destruct (is_ascii_whitespace c) eqn:Hws.
      - rewrite (filter_cons_False (fun c => is_ascii_whitespace c = false)) by congruence.
        rewrite filter_cons_False; [done|].
        intros [s Hs]. apply base64_index_not_whitespace in Hs as [Hs _]. congruence.
      - rewrite (filter_cons_True (fun c => is_ascii_whitespace c = false)) by done.
        destruct (decide (is_Some (base64_index c))).
        + rewrite !filter_cons_True by done. by rewrite IH.
        + rewrite !filter_cons_False by done. done. }
    rewrite Hfilter.
    assert (Hstrip : filter (fun c => is_Some (base64_index c)) data =
                     filter (fun c => is_Some (base64_index c)) data').
    { subst data'. destruct (length data mod 4 =? 0)%nat; [|done].
      unfold strip_padding.
      destruct (reverse data) as [|x r] eqn:E; [done|].
      assert (Hd : data = reverse r ++ [x]).
      { apply (f_equal reverse) in E. rewrite reverse_involutive in E.
        by rewrite E, reverse_cons. }
      assert (H61 : filter (fun c => is_Some (base64_index c)) [61] = []) by done.
      destruct (decide (x = 61)) as [-> | Hx].
      - destruct r as [|y r'].
        + rewrite Hd. done.
        + destruct (decide (y = 61)) as [-> | Hy].
          * rewrite Hd, reverse_cons, !filter_app, H61. by rewrite !app_nil_r.
          * assert (Hgoal : filter (fun c => is_Some (base64_index c)) data =
                            filter (fun c => is_Some (base64_index c)) (reverse (y :: r'))).
            { rewrite Hd, filter_app, H61. by rewrite app_nil_r. }
            destruct y as [|p|p]; try done.
            do 7 (destruct p as [p|p|]; try done).
      - destruct x as [|p|p]; try done.
        do 7 (destruct p as [p|p|]; try done). }
    rewrite Hstrip. f_equal. symmetry.
    clear -Hdata'. induction Hdata' as [|c l Hc _ IH]; [done|].
    rewrite filter_cons_True by done. by rewrite IH.
Qed.

Lemma base64ToBuf_accepts_only_base64_witness :
  Forall (fun c => is_ascii_whitespace c = true \/ c = 61 \/ is_Some (base64_index c))
         (js "Zm9v YmE=") /\
  length (ascii_bytes "fooba") =
    (3 * length (filter (fun c => is_Some (base64_index c)) (js "Zm9v YmE=")) / 4)%nat.
Proof.
  apply (base64ToBuf_accepts_only_base64 (js "Zm9v YmE=") (ascii_bytes "fooba")).
  reflexivity.
Defined.

Lemma filter_padding_encode (buf : list byte) :
  filter (fun c => c <> 61) (base64_encode buf) = base64_char <$> base64_sextets buf.
Proof.
  rewrite base64_encode_split, filter_app.
  replace (filter (fun c => c <> 61) (base64_padding buf)) with (@nil Z)
    by (by destruct (base64_padding_cases buf) as [-> | [-> | ->]]).
  rewrite app_nil_r.
  pose proof (base64_chars_plain _ (base64_sextets_range buf)) as H.
  induction H as [|c l [_ Hc] _ IH]; [done|].
  rewrite filter_cons_True by done. by rewrite IH.
Qed.

(** The padding is optional for [base64ToBuf]: the text of [bufToBase64]
    with its "=" characters removed still decodes to the buffer. *)
Theorem base64ToBuf_without_padding (buf : list byte) :
  exists text,
    bufToBase64 buf = Normal text /\
    base64ToBuf (filter (fun c => c <> 61) text) = Normal buf.
Proof.
  exists (base64_encode buf). split; [apply bufToBase64_spec|].
  rewrite filter_padding_encode, base64ToBuf_spec. unfold forgiving_base64_decode.
  pose proof (base64_chars_plain _ (base64_sextets_range buf)) as Hplain.
  pose proof (base64_encode_length buf) as [_ Hlen].
  rewrite filter_whitespace_id
    by (eapply Forall_impl; [exact Hplain|]; by intros c [? _]).
  assert (Hstrip : strip_padding (base64_char <$> base64_sextets buf) =
                   base64_char <$> base64_sextets buf).
  { rewrite <- (app_nil_r (base64_char <$> base64_sextets buf)) at 1.
    apply strip_padding_app; [|by left].
    eapply Forall_impl; [exact Hplain|]. by intros c [_ ?]. }
  destruct (length (base64_char <$> base64_sextets buf) mod 4 =? 0)%nat;
    rewrite ?Hstrip;
    (destruct (length (base64_char <$> base64_sextets buf) mod 4 =? 1)%nat eqn:E;
     [by apply Nat.eqb_eq in E|]);
    rewrite mapM_base64_index_char by apply base64_sextets_range;
    cbn; by rewrite decode_sextets_sextets.
Qed.

(** ** enc.js: the credential cipher *)

Lemma utf8_encode_ascii_length (s : JSString) :
  Forall (fun c => 0 <= c < 128) s -> length (TextEncoder_encode s) = length s.
Proof.
  unfold TextEncoder_encode. induction 1 as [|c s Hc _ IH]; [done|].
  cbn [to_scalar_values].
  replace (is_lead_surrogate c) with false
    by (unfold is_lead_surrogate; symmetry; apply andb_false_iff; left; apply Z.leb_gt; lia).
  replace (is_trail_surrogate c) with false
    by (unfold is_trail_surrogate; symmetry; apply andb_false_iff; left; apply Z.leb_gt; lia).
  cbn [fmap list_fmap concat]. rewrite length_app, IH.
  by rewrite utf8_encode_1 by lia.
Qed.

(** The size of a stored credential: for an API key of [n] ASCII characters
    the blob decodes to exactly 44 + n bytes (salt, IV, ciphertext of the
    key's length, 16-byte tag) and has 4 * ceil((44 + n) / 3) characters. *)
Theorem encryptApiKey_blob_size (apiKey password : JSString) (rs : RandomSource) :
  Forall (fun c => 0 <= c < 128) apiKey ->
  exists blob rs' d,
    encryptApiKey apiKey password rs = (Normal blob, rs') /\
    base64ToBuf blob = Normal d /\
    length d = (44 + length apiKey)%nat /\
    length blob = (4 * ((44 + length apiKey + 2) / 3))%nat.
Proof.
  intros Hascii. do 3 eexists.
  split; [apply encryptApiKey_spec|].
  split; [rewrite base64ToBuf_spec; by rewrite forgiving_base64_decode_encode|].
  rewrite base64_encode_length_exact, sealed_bytes_length.
  rewrite utf8_encode_ascii_length by done.
  split; [lia|]. do 3 f_equal. lia.
Qed.

Lemma encryptApiKey_blob_size_witness :
  exists blob rs' d,
    encryptApiKey (js "sk-test-123") (js "Encc1234") (constant_source x00) = (Normal blob, rs') /\
    base64ToBuf blob = Normal d /\
    length d = (44 + length (js "sk-test-123"))%nat /\
    length blob = (4 * ((44 + length (js "sk-test-123") + 2) / 3))%nat.
Proof.
  apply (encryptApiKey_blob_size (js "sk-test-123") (js "Encc1234") (constant_source x00)).
  cbn. repeat (constructor; [lia|]). constructor.
Defined.

Lemma drawn_bytes_agree (rs1 rs2 : RandomSource) :
  (forall i, (i < 28)%nat -> rs1 i = rs2 i) ->
  drawn_salt rs1 = drawn_salt rs2 /\ drawn_iv rs1 = drawn_iv rs2.
Proof.
  intros H. unfold drawn_salt, drawn_iv, saltLen, ivLen. split.
  - apply list_fmap_ext. intros k i Hi. apply H.
    apply lookup_seq in Hi. lia.
  - apply list_fmap_ext. intros k i Hi. apply H.
    apply lookup_seq in Hi. lia.
Qed.

(** [encryptApiKey] draws exactly 28 random bytes: it leaves the random
    source 28 bytes further, and its blob depends on no other byte of the
    source. *)
Theorem encryptApiKey_draws_28_bytes (apiKey password : JSString) (rs1 rs2 : RandomSource) :
  (forall i, (i < 28)%nat -> rs1 i = rs2 i) ->
  (encryptApiKey apiKey password rs1).1 = (encryptApiKey apiKey password rs2).1 /\
  forall i, (encryptApiKey apiKey password rs1).2 i = rs1 (28 + i)%nat.
Proof.
  intros H. rewrite !encryptApiKey_spec. cbn [fst snd]. split; [|done].
  destruct (drawn_bytes_agree rs1 rs2 H) as [Hs Hi].
  unfold sealed_bytes. by rewrite Hs, Hi.
Qed.

Lemma encryptApiKey_draws_28_bytes_witness :
  (encryptApiKey (js "k") (js "p") (constant_source x00)).1 =
    (encryptApiKey (js "k") (js "p")
       (fun i => if decide (i < 28)%nat then x00 else x01)).1 /\
  forall i, (encryptApiKey (js "k") (js "p") (constant_source x00)).2 i =
            constant_source x00 (28 + i)%nat.
Proof.
  apply (encryptApiKey_draws_28_bytes (js "k") (js "p") (constant_source x00)
           (fun i => if decide (i < 28)%nat then x00 else x01)).
  intros i Hi. by rewrite decide_True.
Defined.

(** The shortest blob that can decrypt has 44 decoded bytes: the blob of the
    empty plaintext has exactly 44 and decrypts to the empty string, and
    every blob that decodes to fewer than 44 bytes is rejected with the
    cipher's OperationError, whatever the password. *)
Theorem shortest_blob (password blob : JSString) (d : list byte) (rs rs2 : RandomSource) :
  base64ToBuf blob = Normal d ->
  (length d < 44)%nat ->
  decryptApiKey blob password rs = (Throw OperationError, rs) /\
  exists blob0 rs' d0,
    encryptApiKey [] password rs2 = (Normal blob0, rs') /\
    base64ToBuf blob0 = Normal d0 /\ length d0 = 44%nat /\
    decryptApiKey blob0 password rs = (Normal [], rs).
Proof.
  intros Hd Hlen. split.
  - rewrite base64ToBuf_spec in Hd. rewrite decryptApiKey_spec.
    destruct (forgiving_base64_decode blob) as [d'|]; [|done].
    injection Hd as ->.
    rewrite subtle_decrypt_short; [done|]. rewrite length_drop. lia.
  - do 3 eexists. split; [apply encryptApiKey_spec|].
    split; [rewrite base64ToBuf_spec; by rewrite forgiving_base64_decode_encode|].
    split; [by rewrite sealed_bytes_length|].
    by rewrite decryptApiKey_encryptApiKey_same_key.
Qed.

Lemma shortest_blob_witness :
  decryptApiKey (js "AAAA") (js "Encc1234") (constant_source x00) =
    (Throw OperationError, constant_source x00) /\
  exists blob0 rs' d0,
    encryptApiKey [] (js "Encc1234") (constant_source x01) = (Normal blob0, rs') /\
    base64ToBuf blob0 = Normal d0 /\ length d0 = 44%nat /\
    decryptApiKey blob0 (js "Encc1234") (constant_source x00) = (Normal [], constant_source x00).
Proof.
  apply (shortest_blob (js "Encc1234") (js "AAAA") [x00; x00; x00]
           (constant_source x00) (constant_source x01)).
  - reflexivity.
  - cbn. lia.
Defined.

(** Passwords are told apart by their HMAC key block only: when the UTF-8
    bytes of two passwords pad (or hash) to the same 64-byte block, a blob
    sealed under one opens under the other. *)
Theorem interchangeable_passwords (apiKey p1 p2 : JSString) (rs rs2 : RandomSource) :
  hmac_key_block (TextEncoder_encode p1) = hmac_key_block (TextEncoder_encode p2) ->
  exists blob rs',
    encryptApiKey apiKey p1 rs = (Normal blob, rs') /\
    decryptApiKey blob p2 rs2 =
      (Normal (TextDecoder_decode (TextEncoder_encode apiKey)), rs2).
Proof.
  intros Hblock. do 2 eexists. split; [apply encryptApiKey_spec|].
  apply decryptApiKey_encryptApiKey_same_key.
  unfold derived_key. by apply pbkdf2_key_block.
Qed.

Lemma interchangeable_passwords_witness :
  exists blob rs',
    encryptApiKey (js "sk-test-123") [0xD800] (constant_source x00) = (Normal blob, rs') /\
    decryptApiKey blob [0xDFFF; 0; 0] (constant_source x01) =
      (Normal (TextDecoder_decode (TextEncoder_encode (js "sk-test-123"))),
       constant_source x01).
Proof.
  apply (interchangeable_passwords (js "sk-test-123") [0xD800] [0xDFFF; 0; 0]
           (constant_source x00) (constant_source x01)).
  vm_compute. reflexivity.
Defined.

(** ** The text codec on arbitrary strings and bytes *)

Lemma is_scalar_FFFD : is_scalar_value 0xFFFD.
Proof. right. lia. Qed.

Lemma Z_land_low (b k base : Z) :
  0 <= k -> base mod 2 ^ k = 0 -> base <= b < base + 2 ^ k ->
  Z.land b (Z.ones k) = b - base.
Proof.
  intros Hk Hbase Hb. rewrite Z.land_ones by done.
  assert (H2 : 0 < 2 ^ k) by (apply Z.pow_pos_nonneg; lia).
  replace b with ((b - base) + base / 2 ^ k * 2 ^ k) at 1.
  - rewrite Z.mod_add by lia. apply Z.mod_small. lia.
  - pose proof (Z.div_mod base (2 ^ k) ltac:(lia)). lia.
Qed.

(** A lead byte opens only sequences that can end in a scalar value. *)
Lemma utf8_lead_inv (b : Z) :
  0 <= b < 256 ->
  Forall is_scalar_value (utf8_lead b).1 /\ utf8_decoder_inv (utf8_lead b).2.
Proof.
  intros Hb.
  assert (H5 : 0xC2 <= b <= 0xDF -> Z.land b 0x1F = b - 192).
  { intros ?. change 0x1F with (Z.ones 5). apply Z_land_low; done || lia. }
  assert (H4 : 0xE0 <= b <= 0xEF -> Z.land b 0xF = b - 224).
  { intros ?. change 0xF with (Z.ones 4). apply Z_land_low; done || lia. }
  assert (H3 : 0xF0 <= b <= 0xF4 -> Z.land b 0x7 = b - 240).
  { intros ?. change 0x7 with (Z.ones 3). apply Z_land_low; done || lia. }
  unfold utf8_lead.
  repeat (match goal with
          | |- context [?x <=? ?y] => destruct (Z.leb_spec x y)
          end; cbn [andb]);
    try (exfalso; lia); cbn [fst snd];
    (split;
     [ first [ apply Forall_nil_2
             | apply Forall_singleton; unfold is_scalar_value; lia ]
     | first [ by left
             | right; cbn; rewrite ?H5, ?H4, ?H3 by lia;
               repeat match goal with
                      | |- context [?x =? ?y] => destruct (Z.eqb_spec x y)
                      end; lia ] ]).
Qed.

(** The handler keeps the invariant and emits scalar values only. *)
Lemma utf8_handler_inv (st : utf8_decoder) (b : Z) :
  utf8_decoder_inv st -> 0 <= b < 256 ->
  Forall is_scalar_value (utf8_handler st b).1 /\ utf8_decoder_inv (utf8_handler st b).2.
Proof.
  intros Hinv Hb. unfold utf8_handler.
  destruct (utf8_bytes_needed st =? 0)%nat eqn:Hn; [by apply utf8_lead_inv|].
  apply Nat.eqb_neq in Hn.
  destruct (utf8_lead_inv b Hb) as [Hl1 Hl2].
  destruct (Z.leb_spec (utf8_lower_boundary st) b); cbn [andb negb].
  2:{ destruct (utf8_lead b). cbn in *. split; [|done].
      constructor; [apply is_scalar_FFFD | done]. }
  destruct (Z.leb_spec b (utf8_upper_boundary st)); cbn [andb negb].
  2:{ destruct (utf8_lead b). cbn in *. split; [|done].
      constructor; [apply is_scalar_FFFD | done]. }
  destruct Hinv as [Hinv | (Hlo & Hhi & Hinv)]; [done|]. cbv zeta in *.
  rewrite Z_land_63, Z_lor_shiftl_6 by (apply Z.mod_pos_bound; lia).
  replace (b mod 64) with (b - 128) by (Z.div_mod_to_equations; lia).
  destruct (utf8_bytes_needed st) as [|[|[|[|n]]]] eqn:En; try done;
    destruct (utf8_bytes_seen st) as [|[|[|s]]] eqn:Es; try done; cbn.
  - split; [|by left]. apply Forall_singleton. left. lia.
  - split; [constructor|]. right. cbn. lia.
  - split; [|by left]. apply Forall_singleton. unfold is_scalar_value. lia.
  - split; [constructor|]. right. cbn. lia.
  - split; [constructor|]. right. cbn. lia.
  - split; [|by left]. apply Forall_singleton. right. lia.
Qed.

Lemma utf8_decode_from_scalar (bytes : list byte) (st : utf8_decoder) :
  utf8_decoder_inv st -> Forall is_scalar_value (utf8_decode_from st bytes).
Proof.
  revert st. induction bytes as [|b rest IH]; intros st Hinv; cbn [utf8_decode_from].
  - destruct (utf8_bytes_needed st =? 0)%nat; [constructor|]. apply Forall_singleton, is_scalar_FFFD.
  - destruct (utf8_handler_inv st (byte_to_Z b) Hinv (byte_to_Z_range b)) as [H1 H2].
    destruct (utf8_handler st (byte_to_Z b)) as [out st']. cbn in *.
    apply Forall_app. split; [done | by apply IH].
Qed.

Lemma strip_bom_Forall (P : Z -> Prop) (l : list Z) : Forall P l -> Forall P (strip_bom l).
Proof.
  intros H. destruct l as [|c r]; [done|]. rewrite strip_bom_cons.
  destruct (decide (c = 0xFEFF)); [by inversion H | done].
Qed.

Lemma utf16_code_units_cases (cp : Z) :
  is_scalar_value cp ->
  (utf16_code_units cp = [cp] /\ is_lead_surrogate cp = false /\
   is_trail_surrogate cp = false /\ 0 <= cp <= 0xFFFF) \/
  (exists c d, utf16_code_units cp = [c; d] /\
               is_lead_surrogate c = true /\ is_trail_surrogate d = true).
Proof.
  intros Hcp. unfold utf16_code_units, is_scalar_value in *.
  destruct (Z.ltb_spec cp 0x10000).
  - left. unfold is_lead_surrogate, is_trail_surrogate.
    split; [done|]. split; [|split; [|lia]]; apply andb_false_iff;
      rewrite !Z.leb_gt; lia.
  - right. do 2 eexists. split; [done|].
    rewrite Z.shiftr_div_pow2 by lia. change 0x3FF with (Z.ones 10).
    rewrite Z.land_ones by lia. change (2 ^ 10) with 1024.
    unfold is_lead_surrogate, is_trail_surrogate.
    split; apply andb_true_intro; rewrite !Z.leb_le; Z.div_mod_to_equations; lia.
Qed.

Lemma utf16_well_formed (cps : list Z) :
  Forall is_scalar_value cps -> isWellFormed (concat (utf16_code_units <$> cps)) = true.
Proof.
  induction 1 as [|cp cps Hcp _ IH]; [done|].
  cbn [fmap list_fmap concat].
  destruct (utf16_code_units_cases cp Hcp) as [(-> & Hl & Ht & Hr) | (c & d & -> & Hl & Ht)];
    cbn [app isWellFormed].
  - rewrite Hl, Ht, IH. cbn.
    apply andb_true_intro. split; [|done]. apply andb_true_intro. rewrite !Z.leb_le. lia.
  - by rewrite Hl, Ht, IH.
Qed.

(** [TextDecoder.decode] returns a well-formed string whatever the bytes. *)
Lemma TextDecoder_decode_well_formed (bytes : list byte) :
  isWellFormed (TextDecoder_decode bytes) = true.
Proof.
  unfold TextDecoder_decode. apply utf16_well_formed, strip_bom_Forall.
  apply utf8_decode_from_scalar. by left.
Qed.

(** Whatever is stored, a key that [decryptApiKey] returns is a well-formed
    string: it never holds an unpaired surrogate. *)
Theorem decryptApiKey_well_formed
    (blob password apiKey : JSString) (rs rs' : RandomSource) :
  decryptApiKey blob password rs = (Normal apiKey, rs') ->
  isWellFormed apiKey = true.
Proof.
  rewrite decryptApiKey_spec.
  destruct (forgiving_base64_decode blob) as [d|]; [|done].
  destruct (subtle_decrypt_AES_GCM _ _ _ rs) as [[plainBuf | e] rs1]; [|done].
  intros [= <- _]. apply TextDecoder_decode_well_formed.
Qed.

Lemma decryptApiKey_well_formed_witness :
  isWellFormed (js "sk-test-123") = true.
Proof.
  apply (decryptApiKey_well_formed
           (base64_encode (sealed_bytes (js "sk-test-123") (js "Encc1234") (constant_source x00)))
           (js "Encc1234") (js "sk-test-123") (constant_source x01) (constant_source x01)).
  rewrite decryptApiKey_encryptApiKey_same_key by reflexivity. reflexivity.
Defined.

Lemma isWellFormed_FFFD (s : JSString) : isWellFormed (0xFFFD :: s) = isWellFormed s.
Proof. reflexivity. Qed.

Lemma to_scalar_values_FFFD (s : JSString) :
  to_scalar_values (0xFFFD :: s) = 0xFFFD :: to_scalar_values s.
Proof. reflexivity. Qed.

(** [toWellFormed] gives a well-formed string with the same scalar values. *)
Lemma toWellFormed_spec (n : nat) (s : JSString) :
  (length s <= n)%nat -> Forall (fun c => 0 <= c <= 0xFFFF) s ->
  isWellFormed (toWellFormed s) = true /\
  to_scalar_values (toWellFormed s) = to_scalar_values s.
Proof.
  revert s. induction n as [|n IH]; intros s Hn Hs.
  { destruct s; [by split | cbn in Hn; lia]. }
  destruct s as [|c rest]; [by split|].
  apply Forall_cons in Hs as [Hc Hrest].
  destruct (IH rest) as [IH1 IH2]; [cbn in Hn; lia | done |].
  destruct (is_lead_surrogate c) eqn:Hlead.
  - destruct rest as [|d rest'].
    { cbn [toWellFormed to_scalar_values]. by rewrite Hlead. }
    destruct (is_trail_surrogate d) eqn:Hd.
    + apply Forall_cons in Hrest as [_ Hrest'].
      destruct (IH rest') as [IH1' IH2']; [cbn in Hn; lia | done |].
      cbn [toWellFormed]. rewrite Hlead, Hd.
      cbn [isWellFormed to_scalar_values]. rewrite Hlead, Hd, IH1', IH2'. done.
    + replace (toWellFormed (c :: d :: rest')) with (0xFFFD :: toWellFormed (d :: rest'))
        by (cbn [toWellFormed]; by rewrite Hlead, Hd).
      rewrite isWellFormed_FFFD, to_scalar_values_FFFD, IH1, IH2.
      split; [done|]. cbn [to_scalar_values]. by rewrite Hlead, Hd.
  - destruct (is_trail_surrogate c) eqn:Htrail.
    + replace (toWellFormed (c :: rest)) with (0xFFFD :: toWellFormed rest)
        by (cbn [toWellFormed]; by rewrite Hlead, Htrail).
      rewrite isWellFormed_FFFD, to_scalar_values_FFFD, IH1, IH2.
      split; [done|]. cbn [to_scalar_values]. by rewrite Hlead, Htrail.
    + replace (toWellFormed (c :: rest)) with (c :: toWellFormed rest)
        by (cbn [toWellFormed]; by rewrite Hlead, Htrail).
      cbn [isWellFormed to_scalar_values]. rewrite Hlead, Htrail, IH1, IH2.
      split; [|done]. cbn [negb andb].
      apply andb_true_intro. split; [|done]. apply andb_true_intro.
      rewrite !Z.leb_le. lia.
Qed.

Lemma TextEncoder_encode_toWellFormed (s : JSString) :
  Forall (fun c => 0 <= c <= 0xFFFF) s ->
  TextEncoder_encode (toWellFormed s) = TextEncoder_encode s.
Proof.
  intros Hs. unfold TextEncoder_encode.
  by destruct (toWellFormed_spec (length s) s) as [_ ->].
Qed.

(** The text codec on an arbitrary string: unpaired surrogates come back as
    U+FFFD, and a leading U+FEFF is dropped. *)
Lemma TextDecoder_TextEncoder_any (s : JSString) :
  Forall (fun c => 0 <= c <= 0xFFFF) s ->
  TextDecoder_decode (TextEncoder_encode s) = strip_bom (toWellFormed s).
Proof.
  intros Hs. rewrite <- TextEncoder_encode_toWellFormed by done.
  rewrite TextDecoder_TextEncoder
    by (by destruct (toWellFormed_spec (length s) s) as [-> _]).
  destruct (toWellFormed s) as [|c r]; [done|]. by rewrite strip_bom_cons.
Qed.

(** What decryption gives back for an arbitrary key string: the key with
    each unpaired surrogate replaced by U+FFFD and without a leading U+FEFF,
    under every state of the random source. *)
Theorem decrypt_encrypt_any_string
    (apiKey password : JSString) (rs : RandomSource) :
  Forall (fun c => 0 <= c <= 0xFFFF) apiKey ->
  exists blob rs',
    encryptApiKey apiKey password rs = (Normal blob, rs') /\
    forall rs2,
      decryptApiKey blob password rs2 = (Normal (strip_bom (toWellFormed apiKey)), rs2).
Proof.
  intros Hs. rewrite encryptApiKey_spec. do 2 eexists. split; [done|].
  intros rs2. rewrite decryptApiKey_encryptApiKey_same_key by done.
  by rewrite TextDecoder_TextEncoder_any.
Qed.

Lemma decrypt_encrypt_any_string_witness :
  exists blob rs',
    encryptApiKey [0xFEFF; 0xD800; 107] (js "Encc1234") (constant_source x00) =
      (Normal blob, rs') /\
    forall rs2,
      decryptApiKey blob (js "Encc1234") rs2 =
        (Normal (strip_bom (toWellFormed [0xFEFF; 0xD800; 107])), rs2).
Proof.
  apply (decrypt_encrypt_any_string [0xFEFF; 0xD800; 107] (js "Encc1234") (constant_source x00)).
  repeat (constructor; [lia|]). constructor.
Defined.

(** ** The framer's helpers on every input *)

Lemma setUint8_spec (view : list byte) (k : nat) (c : Z) :
  setUint8 view k c =
  if decide (k + 1 <= length view)%nat
  then Normal (take k view ++ [byte_of_Z c] ++ drop (k + 1) view)
  else Throw RangeError.
Proof.
  unfold setUint8, set_view_value, uint_bytes. cbn [seq fmap list_fmap length].
  change (256 ^ Z.of_nat 0) with 1. by rewrite Z.div_1_r.
Qed.

Lemma writeString_loop_spec (chars : JSString) (view : list byte) (offset i : nat) :
  writeString_loop view offset i chars =
  if decide (chars = [] \/ (offset + i + length chars <= length view)%nat)
  then Normal (take (offset + i) view ++ (byte_of_Z <$> chars) ++
               drop (offset + i + length chars) view)
  else Throw RangeError.
Proof.
  revert view i. induction chars as [|c rest IH]; intros view i.
  - cbn [writeString_loop]. rewrite decide_True by (by left).
    cbn [fmap list_fmap length app]. by rewrite Nat.add_0_r, take_drop.
  - cbn [writeString_loop]. rewrite setUint8_spec.
    destruct (decide (offset + i + 1 <= length view)%nat) as [Hin | Hout]; cbn [cbind].
    2:{ rewrite decide_False; [done|]. intros [? | H]; [done|]. cbn [length] in H. lia. }
    rewrite IH.
    set (view' := take (offset + i) view ++ [byte_of_Z c] ++ drop (offset + i + 1) view).
    assert (Hlen : length view' = length view).
    { unfold view'. rewrite !length_app, length_take, length_drop. cbn [length]. lia. }
    assert (Htake : take (offset + S i) view' = take (offset + i) view ++ [byte_of_Z c]).
    { unfold view'. rewrite app_assoc.
      rewrite take_app_length'; [done|].
      rewrite length_app, length_take. cbn [length]. lia. }
    assert (Hdrop : forall n, drop (offset + S i + n) view' = drop (offset + i + 1 + n) view).
    { intros n. unfold view'. rewrite app_assoc.
      replace (offset + S i + n)%nat with ((offset + i + 1) + n)%nat by lia.
      rewrite drop_app_add'
        by (rewrite length_app, length_take; cbn [length]; lia).
      rewrite drop_drop. done. }
    cbn [length fmap list_fmap].
    destruct (decide (rest = [] \/ (offset + S i + length rest <= length view')%nat))
      as [Hok | Hbad].
    + rewrite decide_True.
      2:{ right. destruct Hok as [-> | Hok]; cbn [length]; lia. }
      f_equal. rewrite Htake, Hdrop, <- app_assoc. cbn [app].
      by replace (offset + i + S (length rest))%nat
        with (offset + i + 1 + length rest)%nat by lia.
    + rewrite decide_False; [done|]. intros [? | H]; [done|].
      apply Hbad. right. lia.
Qed.

(** [writeString] overwrites [string.length] bytes from [offset] with the
    low eight bits of each code unit; it throws a RangeError exactly when
    the string is not empty and does not fit in the view. *)
Theorem writeString_bounds (view : list byte) (offset : nat) (string : JSString) :
  writeString view offset string =
  if decide (string = [] \/ (offset + length string <= length view)%nat)
  then Normal (take offset view ++ (byte_of_Z <$> string) ++
               drop (offset + length string) view)
  else Throw RangeError.
Proof.
  unfold writeString. rewrite writeString_loop_spec, Nat.add_0_r. done.
Qed.

Lemma field_wav_header (first n : nat) (r L : Z) (t : list byte) :
  (first + n <= 44)%nat ->
  field first n (wav_header r L ++ t) = field first n (wav_header r L).
Proof. intros H. apply field_app_l. rewrite wav_header_length. lia. Qed.

(** The whole header for every sample rate and every array: the four tags,
    the constant fields, and the rate, byte-rate and size fields modulo
    2^32; the payload is read from the start of the array's underlying
    buffer, and [pcmToWav] never throws. *)
Theorem pcmToWav_header (pcm16 : Int16Array) (sampleRate : Z) :
  Int16Array_wf pcm16 ->
  exists bytes,
    pcmToWav pcm16 sampleRate = Normal {| blob_bytes := bytes; blob_type := "audio/wav" |} /\
    length bytes = (44 + byteLength pcm16)%nat /\
    field 0 4 bytes = ascii_bytes "RIFF" /\
    le_value (field 4 4 bytes) = Z.of_nat (36 + byteLength pcm16) mod 2 ^ 32 /\
    field 8 4 bytes = ascii_bytes "WAVE" /\
    field 12 4 bytes = ascii_bytes "fmt " /\
    le_value (field 16 4 bytes) = 16 /\
    le_value (field 20 2 bytes) = 1 /\
    le_value (field 22 2 bytes) = 1 /\
    le_value (field 24 4 bytes) = sampleRate mod 2 ^ 32 /\
    le_value (field 28 4 bytes) = (2 * sampleRate) mod 2 ^ 32 /\
    le_value (field 32 2 bytes) = 2 /\
    le_value (field 34 2 bytes) = 16 /\
    field 36 4 bytes = ascii_bytes "data" /\
    le_value (field 40 4 bytes) = Z.of_nat (byteLength pcm16) mod 2 ^ 32 /\
    drop 44 bytes = take (byteLength pcm16) (ta_buffer pcm16).
Proof.
  intros Hwf. unfold Int16Array_wf in Hwf.
  eexists. split; [apply pcmToWav_spec; lia|].
  split.
  { rewrite length_app, wav_header_length, length_take. lia. }
  rewrite !field_wav_header by lia.
  rewrite (drop_app_length' (wav_header sampleRate (Z.of_nat (byteLength pcm16))))
    by reflexivity.
  repeat apply conj; try reflexivity.
  - change (field 4 4 (wav_header _ _))
      with (uint_bytes 4 (36 + Z.of_nat (byteLength pcm16)) true).
    rewrite le_value_uint_bytes_4. f_equal. lia.
  - change (field 24 4 (wav_header sampleRate _)) with (uint_bytes 4 sampleRate true).
    apply le_value_uint_bytes_4.
  - change (field 28 4 (wav_header sampleRate _)) with (uint_bytes 4 (sampleRate * 1 * 2) true).
    rewrite le_value_uint_bytes_4. f_equal. lia.
  - change (field 40 4 (wav_header _ _)) with (uint_bytes 4 (Z.of_nat (byteLength pcm16)) true).
    apply le_value_uint_bytes_4.
Qed.

Lemma pcmToWav_header_witness :
  exists bytes,
    pcmToWav offset_pcm (2 ^ 32 + 24000) =
      Normal {| blob_bytes := bytes; blob_type := "audio/wav" |} /\
    length bytes = (44 + byteLength offset_pcm)%nat /\
    field 0 4 bytes = ascii_bytes "RIFF" /\
    le_value (field 4 4 bytes) = Z.of_nat (36 + byteLength offset_pcm) mod 2 ^ 32 /\
    field 8 4 bytes = ascii_bytes "WAVE" /\
    field 12 4 bytes = ascii_bytes "fmt " /\
    le_value (field 16 4 bytes) = 16 /\
    le_value (field 20 2 bytes) = 1 /\
    le_value (field 22 2 bytes) = 1 /\
    le_value (field 24 4 bytes) = (2 ^ 32 + 24000) mod 2 ^ 32 /\
    le_value (field 28 4 bytes) = (2 * (2 ^ 32 + 24000)) mod 2 ^ 32 /\
    le_value (field 32 2 bytes) = 2 /\
    le_value (field 34 2 bytes) = 16 /\
    field 36 4 bytes = ascii_bytes "data" /\
    le_value (field 40 4 bytes) = Z.of_nat (byteLength offset_pcm) mod 2 ^ 32 /\
    drop 44 bytes = take (byteLength offset_pcm) (ta_buffer offset_pcm).
Proof.
  apply (pcmToWav_header offset_pcm (2 ^ 32 + 24000)).
  unfold Int16Array_wf. cbn. lia.
Defined.

(* ================================================================== *)
(** * Part IV: the page                                                *)
(* ================================================================== *)

(** ** The second base64 decoder *)

Lemma base64ToArrayBuffer_loop_spec (s : JSString) (todo i : nat) (bytes : list byte) :
  (i + todo = length s)%nat -> length bytes = length s ->
  base64ToArrayBuffer_loop bytes s i todo = take i bytes ++ (byte_of_Z <$> drop i s).
Proof.
  revert i bytes. induction todo as [|todo IH]; intros i bytes Hi Hlen.
  - cbn. rewrite drop_ge by lia. rewrite take_ge by lia. by rewrite app_nil_r.
  - cbn [base64ToArrayBuffer_loop].
    destruct (lookup_lt_is_Some_2 s i ltac:(lia)) as [c Hc].
    unfold charCodeAt. rewrite Hc. cbn [ToIntegerOrZero].
    rewrite IH by (rewrite ?length_insert; lia).
    rewrite (drop_S s c i Hc). cbn [fmap list_fmap].
    rewrite (take_S_r (<[i:=byte_of_Z c]> bytes) i (byte_of_Z c)).
    + rewrite take_insert_ge by lia. by rewrite <- app_assoc.
    + apply list_lookup_insert_eq. lia.
Qed.

Lemma base64ToArrayBuffer_spec (base64 : JSString) :
  base64ToArrayBuffer base64 =
  match forgiving_base64_decode base64 with
  | Some bs => Normal bs
  | None => Throw InvalidCharacterError
  end.
Proof.
  unfold base64ToArrayBuffer, atob.
  destruct (forgiving_base64_decode base64) as [bs|]; [|done].
  cbn [cbind]. f_equal.
  rewrite base64ToArrayBuffer_loop_spec by (rewrite ?length_replicate; lia).
  cbn [take drop app]. apply fmap_byte_of_to_Z.
Qed.

(** The decoder of index.js and the decoder of enc.js return the same bytes
    and fail on the same strings. *)
Theorem base64ToArrayBuffer_base64ToBuf (base64 : JSString) :
  base64ToArrayBuffer base64 = base64ToBuf base64.
Proof. by rewrite base64ToArrayBuffer_spec, base64ToBuf_spec. Qed.
(** ** The worlds of the page *)

Lemma same_page_refl (w : World) : same_page w w.
Proof. by repeat split. Qed.

Lemma same_page_trans (w1 w2 w3 : World) :
  same_page w1 w2 -> same_page w2 w3 -> same_page w1 w3.
Proof.
  unfold same_page. intros (? & ? & ? & ? & ? & ?) (? & ? & ? & ? & ? & ?).
  repeat split; congruence.
Qed.

Lemma same_page_requested url payload w : same_page w (requested url payload w).
Proof. by repeat split. Qed.

Lemma same_page_recorded e w : same_page w (recorded e w).
Proof. by repeat split. Qed.

Lemma fetches_app (l1 l2 : list Event) : fetches (l1 ++ l2) = fetches l1 ++ fetches l2.
Proof. apply omap_app. Qed.

Lemma waits_app (l1 l2 : list Event) : waits (l1 ++ l2) = waits l1 ++ waits l2.
Proof. apply omap_app. Qed.

Lemma fetches_cons_fetch url payload l :
  fetches (ev_fetch url payload :: l) = (url, payload) :: fetches l.
Proof. reflexivity. Qed.

Lemma waits_cons_fetch url payload l : waits (ev_fetch url payload :: l) = waits l.
Proof. reflexivity. Qed.

Lemma backoff_S (delay : Z) (n : nat) :
  backoff delay (S n) = delay :: backoff (delay * 2) n.
Proof.
  unfold backoff. cbn [seq fmap list_fmap]. f_equal; [lia|].
  rewrite <- fmap_S_seq, <- list_fmap_compose. apply list_fmap_ext.
  intros _ k _. cbn. rewrite Nat2Z.inj_succ, Z.pow_succ_r by lia. lia.
Qed.

(** Decryption draws nothing from the random source. *)
Lemma decryptApiKey_source blob password rs : (decryptApiKey blob password rs).2 = rs.
Proof.
  rewrite decryptApiKey_spec.
  destruct (forgiving_base64_decode blob) as [d|]; [|done].
  unfold subtle_decrypt_AES_GCM. destruct (decide _); [done|].
  by destruct (GCM.decrypt _ _ _ _).
Qed.

Section page.
Context `{!Platform}.

(** ** The retry loop *)

Lemma fetchWithBackoff_round_eq url payload maxRetries i delay w :
  fetchWithBackoff_round url payload maxRetries i delay w =
  match round_case (network w (requests w)) with
  | case_return v => (Returns (round_return v), requested url payload w)
  | case_retry =>
      (Returns (round_continue (delay * 2)),
       recorded (ev_setTimeout resolve_promise delay) (requested url payload w))
  | case_catch error =>
      let w1 := recorded (ev_console_error (js "Fetch attempt failed:") error)
                         (requested url payload w) in
      if (i =? maxRetries - 1)%nat || startsWith (error_message error) (js "API Error")
      then (Throws error, w1)
      else (Returns (round_continue (delay * 2)),
            recorded (ev_setTimeout resolve_promise delay) w1)
  end.
Proof.
  destruct w as [doc ls acc rs net n ans evs].
  unfold fetchWithBackoff_round, try_catch, app_bind, fetch, round_case, retry_status.
  cbn [network requests events].
  destruct (net n) as [m | r].
  - cbn. by destruct (_ || _).
  - destruct (response_ok r) eqn:Hok; cbn [negb andb].
    + unfold response_json. destruct (response_body r) as [v | m]; [done|].
      cbn. by destruct (_ || _).
    + destruct ((response_status r =? 429)%nat || (500 <=? response_status r)%nat); [done|].
      unfold response_json. destruct (response_body r) as [v | m].
      2:{ cbn. by destruct (_ || _). }
      unfold error_detail.
      destruct v; try (cbn; by destruct (_ || _)).
      all: cbn [app_ret app_throw Get];
        match goal with |- context [LogicalOr ?a ?b] => generalize (LogicalOr a b) end;
        intros d; unfold ToString.
      all: destruct d; try destruct (ToString_other _); cbn; try by destruct (_ || _).
      all: done.
Qed.

(** Every round sends one request, and waits [delay] exactly when it goes
    on. *)
Lemma fetchWithBackoff_round_effects url payload maxRetries i delay w :
  exists new,
    same_page w (fetchWithBackoff_round url payload maxRetries i delay w).2 /\
    requests (fetchWithBackoff_round url payload maxRetries i delay w).2 = S (requests w) /\
    events (fetchWithBackoff_round url payload maxRetries i delay w).2 =
      events w ++ ev_fetch url payload :: new /\
    fetches new = [] /\
    match (fetchWithBackoff_round url payload maxRetries i delay w).1 with
    | Returns (round_continue d) => d = delay * 2 /\ waits new = [delay]
    | _ => waits new = []
    end.
Proof.
  rewrite fetchWithBackoff_round_eq.
  destruct (round_case _) as [v | | error]; [| |cbv zeta; destruct (_ || _)];
    cbn [fst snd requested recorded events requests with_events with_requests];
    rewrite <- ?app_assoc; cbn [app];
    eexists; (split; [by repeat split|]); (split; [done|]); (split; [done|]); by repeat split.
Qed.

Lemma fetchWithBackoff_loop_bounds url payload maxRetries todo :
  forall i delay w,
  exists new n m,
    same_page w (fetchWithBackoff_loop url payload maxRetries i delay todo w).2 /\
    requests (fetchWithBackoff_loop url payload maxRetries i delay todo w).2 =
      (requests w + n)%nat /\
    events (fetchWithBackoff_loop url payload maxRetries i delay todo w).2 = events w ++ new /\
    fetches new = replicate n (url, payload) /\
    waits new = backoff delay m /\ (m <= n <= todo)%nat /\ (0 < todo -> 0 < n)%nat.
Proof.
  induction todo as [|todo IH]; intros i delay w.
  { exists [], 0%nat, 0%nat. cbn. rewrite app_nil_r, Nat.add_0_r.
    repeat split; try done; lia. }
  cbn [fetchWithBackoff_loop]. unfold app_bind.
  destruct (fetchWithBackoff_round_effects url payload maxRetries i delay w)
    as (new1 & Hp1 & Hr1 & He1 & Hf1 & Hw1).
  destruct (fetchWithBackoff_round url payload maxRetries i delay w) as [[[v | d] | error] w1];
    cbn [fst snd] in *.
  - exists (ev_fetch url payload :: new1), 1%nat, 0%nat.
    cbn [app_ret fst snd]. rewrite fetches_cons_fetch, waits_cons_fetch, Hf1, Hw1.
    rewrite Nat.add_1_r. split; [done|]. repeat split; try done; lia.
  - destruct Hw1 as [-> Hw1].
    destruct (IH (S i) (delay * 2) w1)
      as (new2 & n & m & Hp2 & Hr2 & He2 & Hf2 & Hw2 & Hmn & _).
    exists ((ev_fetch url payload :: new1) ++ new2), (S n), (S m).
    split; [by eapply same_page_trans|].
    split; [rewrite Hr2, Hr1; lia|].
    split; [rewrite He2, He1; by rewrite <- app_assoc|].
    rewrite fetches_app, waits_app, fetches_cons_fetch, waits_cons_fetch.
    rewrite Hf1, Hf2, Hw1, Hw2, backoff_S.
    repeat split; try done; lia.
  - exists (ev_fetch url payload :: new1), 1%nat, 0%nat.
    cbn [fst snd]. rewrite fetches_cons_fetch, waits_cons_fetch, Hf1, Hw1.
    rewrite Nat.add_1_r. split; [done|]. repeat split; try done; lia.
Qed.

Lemma fetchWithBackoff_eq payload w :
  fetchWithBackoff payload w =
  match stored_key w with
  | Throw e => (Throws (platform_exception e), w)
  | Normal [] =>
      (Throws (new_Error
         (js "API key not found. Please refresh the page and enter your API key.")), w)
  | Normal key => fetchWithBackoff_loop (api_endpoint ++ key) payload 5 0 1000 5 w
  end.
Proof.
  destruct w as [doc ls acc rs net n ans evs].
  unfold fetchWithBackoff, app_bind, localStorage_getItem, call_async, stored_key.
  cbn [localStorage entropy].
  pose proof (decryptApiKey_source (default (js "null") (ls !! js "apiKey")) (js "Encc1234") rs)
    as Hrs.
  destruct (decryptApiKey _ _ rs) as [[key | e] rs']. all: cbn [fst snd] in *; subst rs'.
  - cbn [call app_ret with_entropy document localStorage storage_accepts entropy network
         requests prompt_answer events].
    by destruct key.
  - done.
Qed.

(** Whatever the network answers and whatever is stored, [fetchWithBackoff]
    sends at most five requests, every one to the endpoint with the
    decrypted key and with the payload it was given; the delays it awaits
    are 1000, 2000, 4000, ... ms, at most one per request; and it leaves
    the document and the storage as they are. *)
Theorem fetchWithBackoff_bounds (payload : JSValue) (w : World) :
  exists new n m,
    document (fetchWithBackoff payload w).2 = document w /\
    localStorage (fetchWithBackoff payload w).2 = localStorage w /\
    requests (fetchWithBackoff payload w).2 = (requests w + n)%nat /\
    events (fetchWithBackoff payload w).2 = events w ++ new /\
    (m <= n <= 5)%nat /\
    waits new = backoff 1000 m /\
    length (fetches new) = n /\
    forall request, request ∈ fetches new ->
      request.2 = payload /\
      exists key, stored_key w = Normal key /\ key <> [] /\ request.1 = api_endpoint ++ key.
Proof.
  rewrite fetchWithBackoff_eq.
  destruct (stored_key w) as [[|c key] | e] eqn:Hkey.
  1,3: exists [], 0%nat, 0%nat; cbn [fst snd]; rewrite app_nil_r, Nat.add_0_r;
       split_and!; try done; try lia; by intros ? ?%elem_of_nil.
  destruct (fetchWithBackoff_loop_bounds (api_endpoint ++ c :: key) payload 5 5 0%nat 1000 w)
    as (new & n & m & Hp & Hr & He & Hf & Hw & Hmn & _).
  exists new, n, m. destruct Hp as (Hd & Hl & _).
  split_and!; try done; try lia.
  - by rewrite Hf, length_replicate.
  - intros request Hin. rewrite Hf in Hin. apply elem_of_replicate in Hin as [-> _].
    split; [done|]. by exists (c :: key).
Qed.

(** Without a stored key, or with a stored value that is not base64 or too
    short to hold a salt and an IV, [fetchWithBackoff] sends nothing: it
    rejects with the decoder's or the cipher's error and leaves the world
    as it is.  With nothing stored, the string "null" is decrypted, and the
    error is the cipher's OperationError. *)
Theorem fetchWithBackoff_without_key (payload : JSValue) (w : World) :
  malformed_blob (default (js "null") (localStorage w !! js "apiKey")) ->
  exists e,
    fetchWithBackoff payload w = (Throws (platform_exception e), w) /\
    (localStorage w !! js "apiKey" = None -> e = OperationError).
Proof.
  intros Hbad. rewrite fetchWithBackoff_eq. unfold stored_key.
  unfold malformed_blob in Hbad. rewrite base64ToBuf_spec in Hbad.
  rewrite decryptApiKey_spec.
  destruct (localStorage w !! js "apiKey") as [blob|] eqn:Hstored;
    cbn [default from_option id] in *.
  - destruct (forgiving_base64_decode blob) as [d|].
    + rewrite subtle_decrypt_short.
      2:{ rewrite length_drop. unfold saltLen, ivLen in Hbad. lia. }
      by exists OperationError.
    + by exists InvalidCharacterError.
  - exists OperationError. split; [|done].
    change (forgiving_base64_decode (js "null"))
      with (Some [byte_of_Z 158; byte_of_Z 233; byte_of_Z 101]).
    cbv beta iota. by rewrite subtle_decrypt_short by (cbn; lia).
Qed.

(** The rounds before the last one go on after a transient outcome. *)
Lemma round_case_transient (o : FetchOutcome) :
  transient o = true ->
  (round_case o = case_retry /\ caught_rejection o = None) \/
  (exists message, round_case o = case_catch (rejection message) /\
                   caught_rejection o = Some message /\
                   startsWith message (js "API Error") = false).
Proof.
  unfold transient, caught_rejection, round_case.
  destruct o as [m | r].
  - intros Hm%negb_true_iff. right. by exists m.
  - destruct (retry_status r); [by left|].
    destruct (response_body r) as [v | m]; [done|].
    intros Hm%negb_true_iff. right. by exists m.
Qed.

Lemma fetchWithBackoff_loop_transient url payload maxRetries (n : nat) :
  forall i delay todo w,
  (forall j, (j < n)%nat -> transient (network w (requests w + j)%nat) = true) ->
  (i + n < maxRetries)%nat -> (n <= todo)%nat ->
  exists w' new,
    fetchWithBackoff_loop url payload maxRetries i delay todo w =
      fetchWithBackoff_loop url payload maxRetries (i + n) (delay * 2 ^ Z.of_nat n)
                            (todo - n) w' /\
    same_page w w' /\ requests w' = (requests w + n)%nat /\
    events w' = events w ++ new /\
    fetches new = replicate n (url, payload) /\ waits new = backoff delay n.
Proof.
  induction n as [|n IH]; intros i delay todo w Hnet Hi Htodo.
  { exists w, []. rewrite !Nat.add_0_r, Nat.sub_0_r, app_nil_r, Z.mul_1_r.
    repeat split; try done. }
  destruct todo as [|todo]; [lia|].
  pose proof (Hnet 0%nat ltac:(lia)) as H0. rewrite Nat.add_0_r in H0.
  destruct (fetchWithBackoff_round_effects url payload maxRetries i delay w)
    as (new1 & Hp1 & Hr1 & He1 & Hf1 & Hw1).
  assert (Hround : (fetchWithBackoff_round url payload maxRetries i delay w).1 =
                   Returns (round_continue (delay * 2))).
  { rewrite fetchWithBackoff_round_eq.
    destruct (round_case_transient _ H0) as [[-> _] | (m & -> & _ & Hm)]; [done|].
    cbv zeta. cbn [error_message]. rewrite Hm.
    replace (i =? maxRetries - 1)%nat with false by (symmetry; apply Nat.eqb_neq; lia).
    done. }
  cbn [fetchWithBackoff_loop]. unfold app_bind.
  destruct (fetchWithBackoff_round url payload maxRetries i delay w) as [r1 w1].
  cbn [fst snd] in *. subst r1. destruct Hw1 as [_ Hw1].
  destruct (IH (S i) (delay * 2) todo w1) as (w' & new2 & Heq & Hp2 & Hr2 & He2 & Hf2 & Hw2).
  { intros j Hj. destruct Hp1 as (_ & _ & _ & _ & -> & _). rewrite Hr1.
    replace (S (requests w) + j)%nat with (requests w + S j)%nat by lia.
    apply Hnet. lia. }
  { lia. } { lia. }
  exists w', ((ev_fetch url payload :: new1) ++ new2).
  split.
  { rewrite Heq. f_equal; [lia|].
    rewrite Nat2Z.inj_succ, Z.pow_succ_r by lia. lia. }
  split; [by eapply same_page_trans|].
  split; [lia|].
  split; [rewrite He2, He1; by rewrite <- app_assoc|].
  rewrite fetches_app, waits_app, fetches_cons_fetch, waits_cons_fetch.
  by rewrite Hf1, Hf2, Hw1, Hw2, backoff_S.
Qed.

(** After [n] transient outcomes, fewer than five, an ok response with a
    JSON body ends the call: it returns the parsed body after [n + 1]
    requests and the delays 1000, 2000, ..., 1000 * 2^(n-1) ms. *)
Theorem fetchWithBackoff_retries_until_ok
    (payload : JSValue) (w : World) (key : JSString) (n : nat) (r : Response) (v : JSValue) :
  stored_key w = Normal key -> key <> [] ->
  (n < 5)%nat ->
  (forall j, (j < n)%nat -> transient (network w (requests w + j)%nat) = true) ->
  network w (requests w + n)%nat = fetch_fulfils r ->
  response_ok r = true -> response_body r = body_json v ->
  exists w' new,
    fetchWithBackoff payload w = (Returns v, w') /\
    requests w' = (requests w + S n)%nat /\
    events w' = events w ++ new /\
    fetches new = replicate (S n) (api_endpoint ++ key, payload) /\
    waits new = backoff 1000 n.
Proof.
  intros Hkey Hne Hn Htr Hnet Hok Hbody.
  rewrite fetchWithBackoff_eq, Hkey. destruct key as [|c key]; [done|].
  destruct (fetchWithBackoff_loop_transient (api_endpoint ++ c :: key) payload 5 n
              0%nat 1000 5%nat w Htr ltac:(lia) ltac:(lia))
    as (w1 & new1 & -> & Hp1 & Hr1 & He1 & Hf1 & Hw1).
  destruct (5 - n)%nat as [|todo] eqn:Htodo; [lia|].
  cbn [fetchWithBackoff_loop]. unfold app_bind.
  rewrite fetchWithBackoff_round_eq.
  destruct Hp1 as (_ & _ & _ & _ & Hnet1 & _).
  rewrite Hnet1, Hr1, Hnet. unfold round_case, retry_status. rewrite Hok, Hbody.
  cbn [negb andb app_ret].
  do 2 eexists. split; [done|].
  cbn [requested requests events with_requests with_events].
  split; [lia|]. rewrite He1, <- app_assoc. split; [done|].
  rewrite fetches_app, waits_app, Hf1, Hw1. cbn.
  split; [|by rewrite app_nil_r].
  by rewrite <- replicate_cons_app.
Qed.

(** A response that is not ok and has no retried status, with a JSON body
    that is not [null], is not retried: the call rejects at once with
    "API Error: status - detail", where the detail is the body's
    [error.message] or, when that is missing or empty, the status text. *)
Theorem fetchWithBackoff_client_error
    (payload : JSValue) (w : World) (key : JSString) (n : nat) (r : Response)
    (errorData : JSValue) (detail : JSString) :
  stored_key w = Normal key -> key <> [] ->
  (n < 5)%nat ->
  (forall j, (j < n)%nat -> transient (network w (requests w + j)%nat) = true) ->
  network w (requests w + n)%nat = fetch_fulfils r ->
  response_ok r = false -> retry_status r = false ->
  response_body r = body_json errorData ->
  errorData <> JSNull -> errorData <> JSUndefined ->
  error_detail errorData (response_statusText r) = JSStringValue detail ->
  exists w' new,
    fetchWithBackoff payload w =
      (Throws (new_Error (js "API Error: " ++ decimal (response_status r) ++
                          js " - " ++ detail)), w') /\
    requests w' = (requests w + S n)%nat /\
    events w' = events w ++ new /\
    fetches new = replicate (S n) (api_endpoint ++ key, payload) /\
    waits new = backoff 1000 n.
Proof.
  intros Hkey Hne Hn Htr Hnet Hok Hretry Hbody Hnull Hundef Hdetail.
  rewrite fetchWithBackoff_eq, Hkey. destruct key as [|c key]; [done|].
  destruct (fetchWithBackoff_loop_transient (api_endpoint ++ c :: key) payload 5 n
              0%nat 1000 5%nat w Htr ltac:(lia) ltac:(lia))
    as (w1 & new1 & -> & Hp1 & Hr1 & He1 & Hf1 & Hw1).
  destruct (5 - n)%nat as [|todo] eqn:Htodo; [lia|].
  cbn [fetchWithBackoff_loop]. unfold app_bind.
  rewrite fetchWithBackoff_round_eq.
  destruct Hp1 as (_ & _ & _ & _ & Hnet1 & _).
  rewrite Hnet1, Hr1, Hnet. unfold round_case. rewrite Hretry, Hbody, Hok, Hdetail.
  assert (Hcase : forall (A : Type) (a b : A),
            match errorData with JSNull | JSUndefined => a | _ => b end = b)
    by (intros; by destruct errorData).
  rewrite Hcase. cbv zeta.
  replace (startsWith _ (js "API Error")) with true by reflexivity.
  rewrite orb_true_r.
  do 2 eexists. split; [done|].
  cbn [recorded requested requests events with_requests with_events].
  split; [lia|]. rewrite He1, <- !app_assoc. split; [done|].
  rewrite fetches_app, waits_app, Hf1, Hw1. cbn.
  split; [|by rewrite app_nil_r].
  by rewrite <- replicate_cons_app.
Qed.

(** Five transient outcomes in a row end the call after five requests.  When
    the fifth is a retried status, the call still waits the fifth delay,
    16000 ms, and then rejects with "API call failed after multiple
    retries."; when it is a rejection, the call rejects with it at once,
    after four delays. *)
Theorem fetchWithBackoff_gives_up (payload : JSValue) (w : World) (key : JSString) :
  stored_key w = Normal key -> key <> [] ->
  (forall j, (j < 5)%nat -> transient (network w (requests w + j)%nat) = true) ->
  exists w' new,
    fetchWithBackoff payload w =
      (Throws match caught_rejection (network w (requests w + 4)%nat) with
              | Some message => rejection message
              | None => new_Error (js "API call failed after multiple retries.")
              end, w') /\
    requests w' = (requests w + 5)%nat /\
    events w' = events w ++ new /\
    fetches new = replicate 5 (api_endpoint ++ key, payload) /\
    waits new = match caught_rejection (network w (requests w + 4)%nat) with
                | Some _ => [1000; 2000; 4000; 8000]
                | None => [1000; 2000; 4000; 8000; 16000]
                end.
Proof.
  intros Hkey Hne Htr.
  rewrite fetchWithBackoff_eq, Hkey. destruct key as [|c key]; [done|].
  destruct (fetchWithBackoff_loop_transient (api_endpoint ++ c :: key) payload 5 4
              0%nat 1000 5%nat w ltac:(intros; apply Htr; lia) ltac:(lia) ltac:(lia))
    as (w1 & new1 & -> & Hp1 & Hr1 & He1 & Hf1 & Hw1).
  cbn [Nat.sub Nat.add fetchWithBackoff_loop]. unfold app_bind.
  rewrite fetchWithBackoff_round_eq.
  destruct Hp1 as (_ & _ & _ & _ & Hnet1 & _).
  rewrite Hnet1, Hr1.
  destruct (round_case_transient _ (Htr 4%nat ltac:(lia))) as [[-> ->] | (m & -> & -> & Hm)].
  - cbn [app_throw].
    do 2 eexists. split; [done|].
    cbn [recorded requested requests events with_requests with_events].
    split; [lia|]. rewrite He1, <- !app_assoc. split; [done|].
    rewrite fetches_app, waits_app, Hf1, Hw1. by cbn.
  - cbv zeta. cbn [Nat.eqb Nat.sub orb].
    do 2 eexists. split; [done|].
    cbn [recorded requested requests events with_requests with_events].
    split; [lia|]. rewrite He1, <- !app_assoc. split; [done|].
    rewrite fetches_app, waits_app, Hf1, Hw1. by cbn.
Qed.

End page.
